(** * Approximate C1 spline spaces of G+Smo: knot-space algebra, basis
    assignment and assembly of the transformation matrix.

    A shallow embedding of [gsApproxC1Spline<d,T>] (file
    [src/gsUnstructuredSplines/gsApproxC1Spline.hpp]) for [d = 2] and of the
    fixed-point loop of [gsParametrization<T>::constructAndSolveEquationSystem_2]
    (file [src/gsModeling/gsParametrization.hpp]).

    Conventions.
    - [index_t] (a C++ [int]) and [short_t] are embedded as [Z]; signed
      overflow is undefined behaviour in C++, so no wrap-around is written
      out and sizes are taken to stay in range.
    - [real_t] knot values are embedded as canonical rationals [Qc]: the code
      only copies knots, compares them and, in one place, subtracts a knot
      from [1]; the subtraction of the scalar type is a parameter there.
    - An access [v[i]] to a [std::vector] outside its range is undefined
      behaviour; the functions that index return [option], [None] standing
      for such an access.
    - Output sent to [gsInfo] is collected as a list of strings. *)

From Stdlib Require Import ZArith QArith Qcanon Sorted.
From stdpp Require Import base numbers list gmap strings pretty.

Local Open Scope Z_scope.

Abbreviation real_t := Qc (only parsing).
Abbreviation index_t := Z (only parsing).

(** Interior of a sequence: everything but its first and last element. *)
Definition interior {A : Type} (l : list A) : list A := removelast (tail l).

(** ** Knot vectors *)

Module KnotVector.

(** Modelled from the spec: the class [gsKnotVector<T>] (header
    gsNurbs/gsKnotVector.h) is not among the sources.  The spec describes a
    knot vector as an ordered sequence of non-decreasing break points with
    multiplicities and a degree, with the standard operations unique knots,
    multiplicities, degree elevation and reduction, knot insertion and
    multiplicity reduction.  The break points are stored once each, paired
    with their multiplicity. *)
Record gsKnotVector : Type := mkKnotVector {
  m_deg : Z;
  m_knots : list (real_t * Z)
}.

(** Modelled from the spec: [kv.degree()]. *)
Definition degree (kv : gsKnotVector) : Z := m_deg kv.

(** Modelled from the spec: [kv.unique()], the break points without
    repetition. *)
Definition unique (kv : gsKnotVector) : list real_t := (m_knots kv).*1.

(** Modelled from the spec: [kv.multiplicities()], one entry per unique
    break point, the two end knots included. *)
Definition multiplicities (kv : gsKnotVector) : list Z := (m_knots kv).*2.

(** Modelled from the spec: [kv.size()], the number of knots counted with
    repetition. *)
Definition size (kv : gsKnotVector) : Z := foldr Z.add 0 (multiplicities kv).

(** Modelled from the spec: the storage the constructor of [gsKnotVector]
    builds, the run-length encoding of a knot container given with
    repetitions. *)
Fixpoint compress (l : list real_t) : list (real_t * Z) :=
  match l with
  | [] => []
  | x :: l' =>
      match compress l' with
      | (y, m) :: r => if decide (x = y) then (y, m + 1) :: r
                       else (x, 1) :: (y, m) :: r
      | [] => [(x, 1)]
      end
  end.

(** Modelled from the spec: the degree deduced from the end multiplicities
    ("degree is implicit from the end multiplicities"), [-1] for the empty
    knot vector. *)
Definition deduceDegree (ks : list (real_t * Z)) : Z :=
  match ks with
  | [] => -1
  | (_, m0) :: _ => Z.max m0 (default m0 (last ks.*2)) - 1
  end.

(** Modelled from the spec: the constructor [gsKnotVector<>(knots)] from a
    container of knots, the degree being deduced. *)
Definition from_knots (l : list real_t) : gsKnotVector :=
  let ks := compress l in mkKnotVector (deduceDegree ks) ks.

(** Modelled from the spec: the default-constructed, empty knot vector. *)
Definition empty : gsKnotVector := mkKnotVector (-1) [].

(** [on_last f l] applies [f] to the last element. *)
Fixpoint on_last {A : Type} (f : A → A) (l : list A) : list A :=
  match l with
  | [] => []
  | [x] => [f x]
  | x :: l' => x :: on_last f l'
  end.

(** [on_first f l] applies [f] to the first element. *)
Definition on_first {A : Type} (f : A → A) (l : list A) : list A :=
  match l with
  | [] => []
  | x :: l' => f x :: l'
  end.

(** [on_init f l] replaces every element but the last by the list [f] gives
    for it. *)
Fixpoint on_init {A : Type} (f : A → list A) (l : list A) : list A :=
  match l with
  | [] => []
  | [x] => [x]
  | x :: l' => f x ++ on_init f l'
  end.

(** [on_interior f l] replaces every element but the first and the last by
    the list [f] gives for it. *)
Definition on_interior {A : Type} (f : A → list A) (l : list A) : list A :=
  match l with
  | [] => []
  | x :: l' => x :: on_init f l'
  end.

(** A break point with its multiplicity changed by [i]. *)
Definition add_mult (i : Z) (km : real_t * Z) : real_t * Z := (km.1, km.2 + i).

(** Modelled from the spec: [kv.increaseMultiplicity(i)] with its default
    [boundary = false]: the multiplicity of every interior knot grows by [i],
    the end knots and the degree are kept. *)
Definition increaseMultiplicity (i : Z) (kv : gsKnotVector) : gsKnotVector :=
  mkKnotVector (m_deg kv) (on_interior (λ km, [add_mult i km]) (m_knots kv)).

(** Modelled from the spec: what [reduceMultiplicity] does with one interior
    knot, which disappears when no copy of it is left. *)
Definition lower (i : Z) (km : real_t * Z) : list (real_t * Z) :=
  if decide (0 < km.2 - i) then [add_mult (- i) km] else [].

(** Modelled from the spec: [kv.reduceMultiplicity(i)] with its default
    [boundary = false] ("multiplicity reduction"): the multiplicity of every
    interior knot drops by [i], a knot whose multiplicity would not stay
    positive disappears; the end knots and the degree are kept. *)
Definition reduceMultiplicity (i : Z) (kv : gsKnotVector) : gsKnotVector :=
  mkKnotVector (m_deg kv) (on_interior (lower i) (m_knots kv)).

(** Modelled from the spec: [kv.degreeElevate(i)] ("degree elevation",
    smoothness kept): every multiplicity, the ends included, and the degree
    grow by [i]. *)
Definition degreeElevate (i : Z) (kv : gsKnotVector) : gsKnotVector :=
  mkKnotVector (m_deg kv + i) (add_mult i <$> m_knots kv).

(** Modelled from the spec: [kv.degreeIncrease(i)]: the first and the last
    knot are repeated [i] more times and the degree grows by [i]; interior
    knots are kept. *)
Definition degreeIncrease (i : Z) (kv : gsKnotVector) : gsKnotVector :=
  mkKnotVector (m_deg kv + i)
    (on_last (add_mult i) (on_first (add_mult i) (m_knots kv))).

(** Modelled from the spec: what [degreeDecrease] does at each end, the
    removal of up to [i] copies of the first knot; a knot with no copy left
    disappears. *)
Definition remove_first (i : Z) (ks : list (real_t * Z)) : list (real_t * Z) :=
  match ks with
  | [] => []
  | km :: r => if decide (km.2 ≤ i) then r else add_mult (- i) km :: r
  end.

(** Modelled from the spec: the same at the last knot. *)
Fixpoint remove_last (i : Z) (ks : list (real_t * Z)) : list (real_t * Z) :=
  match ks with
  | [] => []
  | [km] => if decide (km.2 ≤ i) then [] else [add_mult (- i) km]
  | km :: r => km :: remove_last i r
  end.

(** Modelled from the spec: [kv.degreeDecrease(i)], the inverse of
    [degreeIncrease] ("degree reduction"): [i] copies are removed at the
    first and then at the last knot, and the degree drops by [i]. *)
Definition degreeDecrease (i : Z) (kv : gsKnotVector) : gsKnotVector :=
  mkKnotVector (m_deg kv - i) (remove_last i (remove_first i (m_knots kv))).

(** Modelled from the spec: [kv.insert(knot, mult)] ("knot insertion"): the
    knot is put at its place in the non-decreasing sequence, or its
    multiplicity is raised when it is a break point already. *)
Fixpoint insert_knot (x : real_t) (mult : Z) (ks : list (real_t * Z))
  : list (real_t * Z) :=
  match ks with
  | [] => [(x, mult)]
  | km :: r =>
      if decide (x = km.1) then add_mult mult km :: r
      else if decide (x < km.1)%Qc then (x, mult) :: km :: r
      else km :: insert_knot x mult r
  end.

(** Modelled from the spec: [kv.insert(knot, mult)] on the knot vector. *)
Definition insert (x : real_t) (mult : Z) (kv : gsKnotVector) : gsKnotVector :=
  mkKnotVector (m_deg kv) (insert_knot x mult (m_knots kv)).

(** Modelled from the spec: the knots with repetition. *)
Definition repKnots (kv : gsKnotVector) : list real_t :=
  flat_map (λ km, replicate (Z.to_nat km.2) km.1) (m_knots kv).

(** Modelled from the spec: [kv[i]], the [i]-th knot counted with
    repetition. *)
Definition at_ (kv : gsKnotVector) (i : Z) : option real_t :=
  if decide (0 ≤ i) then repKnots kv !! Z.to_nat i else None.

(** The multiplicity of a value in the knot vector, [0] when it is no break
    point. *)
Fixpoint mult_in (ks : list (real_t * Z)) (x : real_t) : Z :=
  match ks with
  | [] => 0
  | km :: r => if decide (km.1 = x) then km.2 else mult_in r x
  end.

(** The multiplicity of a value in a knot vector. *)
Definition mult_of (kv : gsKnotVector) (x : real_t) : Z := mult_in (m_knots kv) x.

(** A valid clamped knot vector in the sense of the spec's data model:
    at least two break points, strictly increasing, positive multiplicities,
    end multiplicity [degree + 1]. *)
Record valid (kv : gsKnotVector) : Prop := mkValid {
  valid_two : (2 ≤ length (m_knots kv))%nat;
  valid_sorted : StronglySorted Qclt (unique kv);
  valid_mult : Forall (λ m, 1 ≤ m) (multiplicities kv);
  valid_first : head (multiplicities kv) = Some (m_deg kv + 1);
  valid_last : last (multiplicities kv) = Some (m_deg kv + 1)
}.

End KnotVector.

Export KnotVector.

(** ** The knot-space algebra of [gsApproxC1Spline] *)

(** Line end written by the diagnostics. *)
Definition endl : string := String (Ascii.ascii_of_nat 10) EmptyString.

(** The option list of the object, read with [getInt] and [getSwitch]. *)
Record gsOptionList : Type := mkOptions {
  discreteRegularity : index_t;
  info : bool
}.

(** [cond_do b f x]: the statement [if (b) x.f();] on a local object [x]. *)
Definition cond_do {A : Type} (b : bool) (f : A → A) (x : A) : A :=
  if b then f x else x.

(** [gsInfo << msg] under a condition. *)
Definition info_if (b : bool) (msg : string) : list string :=
  if b then [msg] else [].

(** The diagnostics of [createPlusMinusSpace], numbered in the source. *)
Definition msg_plus_minus (n : string) : string :=
  "NOT IMPLEMENTED YET " +:+ n +:+ ": Plus, Minus space " +:+ endl.
(** The diagnostic of [createGluingDataSpace]. *)
Definition msg_not_matching : string :=
  endl +:+ endl +:+ " ERROR: Interfaces are not matching!!! " +:+ endl +:+ endl.
(** The diagnostic of [createLokalEdgeSpace]. *)
Definition msg_edge_space : string := "ERROR LOKAL EDGE SPACE " +:+ endl.

(** [createPlusMinusSpace], the variant for an interface (two sides).  The
    result is the diagnostic output, [kv1_result] (plus space) and
    [kv2_result] (minus space). *)
Definition createPlusMinusSpace (m_options : gsOptionList)
    (kv1 kv2 kv1_patch kv2_patch : gsKnotVector)
  : option (list string * gsKnotVector * gsKnotVector) :=
  let knots_unique_1 := unique kv1 in
  let knots_unique_2 := unique kv2 in
  let knots_mult_1 := multiplicities kv1 in
  let knots_mult_2 := multiplicities kv2 in
  let patch_kv_unique_1 := unique kv1_patch in
  let p := Z.max (degree kv1) (degree kv2) in
  let out1 := info_if (bool_decide (knots_unique_1 ≠ knots_unique_2))
                (msg_plus_minus "1") in
  let out2 := info_if (bool_decide (degree kv1 ≠ degree kv2))
                (msg_plus_minus "2") in
  u1 ← patch_kv_unique_1 !! 1%nat;
  let out3 := info_if (bool_decide (u1 ≠ 1%Qc))
                (msg_plus_minus "3") in
  let out4 := info_if (bool_decide (knots_mult_1 ≠ knots_mult_2))
                (msg_plus_minus "4") in
  let kv1_result := kv2 in
  let kv1_result :=
    cond_do (bool_decide (p - discreteRegularity m_options ≠ 1))
            (reduceMultiplicity 1) kv1_result in
  let kv2_result := kv2 in
  let kv2_result := degreeDecrease 1 kv2_result in
  let kv2_result :=
    cond_do (bool_decide (p - discreteRegularity m_options ≠ 1))
            (reduceMultiplicity 1) kv2_result in
  Some (out1 ++ out2 ++ out3 ++ out4, kv1_result, kv2_result).

(** [createPlusMinusSpace], the variant for a boundary (one side). *)
Definition createPlusMinusSpace_1 (m_options : gsOptionList)
    (kv1 kv1_patch : gsKnotVector) : gsKnotVector * gsKnotVector :=
  let p := Z.max (degree kv1) 0 in
  let kv1_result := kv1 in
  let kv1_result :=
    cond_do (bool_decide (p - discreteRegularity m_options ≠ 1))
            (reduceMultiplicity 1) kv1_result in
  let kv2_result := kv1 in
  let kv2_result := degreeDecrease 1 kv2_result in
  let kv2_result :=
    cond_do (bool_decide (p - discreteRegularity m_options ≠ 1))
            (reduceMultiplicity 1) kv2_result in
  (kv1_result, kv2_result).

(** [createGluingDataSpace]; [p_tilde] and [r_tilde] are the members of the
    object the function reads. *)
Definition createGluingDataSpace (p_tilde r_tilde : index_t)
    (kv1 kv2 kv1_patch kv2_patch : gsKnotVector)
  : list string * gsKnotVector :=
  let knots_unique_1 := unique kv1 in
  let knots_unique_2 := unique kv2 in
  let out := info_if (bool_decide (knots_unique_1 ≠ knots_unique_2))
               msg_not_matching in
  let knot_vector := knots_unique_2 in
  let kv_result := from_knots knot_vector in
  let kv_result := degreeIncrease p_tilde kv_result in
  let kv_result := increaseMultiplicity (p_tilde - r_tilde - 1) kv_result in
  (out, kv_result).

(** [createLokalEdgeSpace], the variant for an interface. *)
Definition createLokalEdgeSpace
    (kv_plus kv_minus kv_gD_1 kv_gD_2 kv_patch_1 kv_patch_2 : gsKnotVector)
  : option (list string * gsKnotVector * gsKnotVector) :=
  let p_1 := Z.max (degree kv_plus + degree kv_gD_1 - 1)
                   (degree kv_minus + degree kv_gD_1) in
  let knots_unique_plus := unique kv_plus in
  let out := info_if (bool_decide (knots_unique_plus ≠ unique kv_minus))
               msg_edge_space in
  let kv1_result := from_knots knots_unique_plus in
  let kv1_result := degreeIncrease p_1 kv1_result in
  u1 ← knots_unique_plus !! 1%nat;
  kv1_result ←
    (if bool_decide (u1 ≠ 1%Qc) then
       m_plus ← multiplicities kv_plus !! 1%nat;
       m_minus ← multiplicities kv_minus !! 1%nat;
       m_gD ← multiplicities kv_gD_1 !! 1%nat;
       let r_plus := degree kv_plus - m_plus in
       let r_minus := degree kv_minus - m_minus in
       let r_tilde := degree kv_gD_1 - m_gD in
       let r := Z.min r_tilde (Z.min r_plus r_minus) in
       Some (increaseMultiplicity (p_1 - r - 1) kv1_result)
     else Some kv1_result);
  let kv2_result := kv1_result in
  Some (out, kv1_result, kv2_result).

(** [createLokalEdgeSpace], the variant for a boundary. *)
Definition createLokalEdgeSpace_1 (kv_plus kv_minus kv_patch_1 : gsKnotVector)
  : option (list string * gsKnotVector) :=
  let p_1 := Z.max (degree kv_plus) (degree kv_minus) in
  let knots_unique_plus := unique kv_plus in
  let out := info_if (bool_decide (knots_unique_plus ≠ unique kv_minus))
               msg_edge_space in
  let kv1_result := from_knots knots_unique_plus in
  let kv1_result := degreeIncrease p_1 kv1_result in
  u1 ← knots_unique_plus !! 1%nat;
  kv1_result ←
    (if bool_decide (u1 ≠ 1%Qc) then
       m_plus ← multiplicities kv_plus !! 1%nat;
       m_minus ← multiplicities kv_minus !! 1%nat;
       let r_plus := degree kv_plus - m_plus in
       let r_minus := degree kv_minus - m_minus in
       let r := Z.min r_plus r_minus in
       Some (increaseMultiplicity (p_1 - r - 1) kv1_result)
     else Some kv1_result);
  Some (out, kv1_result).


(** ** Bases, topology and the per-patch container *)

(** Modelled from the spec: [gsBSplineBasis<T>] is not among the sources; a
    univariate basis is its knot vector.  [size()] is the number of basis
    functions and [reduceContinuity(i)] raises the multiplicity of the
    interior knots by [i]. *)
Module BSplineBasis.
(** Modelled from the spec: [basis.size()], the number of basis functions. *)
Definition size (kv : gsKnotVector) : Z := KnotVector.size kv - degree kv - 1.
(** Modelled from the spec: [basis.reduceContinuity(i)]. *)
Definition reduceContinuity (i : Z) (kv : gsKnotVector) : gsKnotVector :=
  increaseMultiplicity i kv.
End BSplineBasis.

(** Modelled from the spec: [gsTensorBSplineBasis<2,T>] is not among the
    sources; a tensor-product basis is the pair of the knot vectors of its
    two parametric directions. *)
Record gsTensorBSplineBasis : Type := mkTensorBasis {
  knots_0 : gsKnotVector;
  knots_1 : gsKnotVector
}.

Module TensorBSplineBasis.
(** Modelled from the spec: [basis.component(dir)]. *)
Definition component (b : gsTensorBSplineBasis) (dir : Z) : gsKnotVector :=
  if decide (dir = 0) then knots_0 b else knots_1 b.

(** Modelled from the spec: a member function applied to the component of
    direction [dir]. *)
Definition on_component (dir : Z) (f : gsKnotVector → gsKnotVector)
    (b : gsTensorBSplineBasis) : gsTensorBSplineBasis :=
  if decide (dir = 0) then mkTensorBasis (f (knots_0 b)) (knots_1 b)
  else mkTensorBasis (knots_0 b) (f (knots_1 b)).

(** Modelled from the spec: [basis.degree(dir)]. *)
Definition degree (b : gsTensorBSplineBasis) (dir : Z) : Z :=
  KnotVector.degree (component b dir).

(** Modelled from the spec: [basis.knot(dir, i)], the [i]-th knot of
    direction [dir]. *)
Definition knot (b : gsTensorBSplineBasis) (dir i : Z) : option Qc :=
  at_ (component b dir) i.

(** Modelled from the spec: [basis.insertKnot(knot, dir, mult)]. *)
Definition insertKnot (x : Qc) (dir mult : Z) : gsTensorBSplineBasis → gsTensorBSplineBasis :=
  on_component dir (KnotVector.insert x mult).

(** Modelled from the spec: [basis.degreeElevate(i, dir)], the smoothness
    being kept. *)
Definition degreeElevate (i dir : Z) : gsTensorBSplineBasis → gsTensorBSplineBasis :=
  on_component dir (KnotVector.degreeElevate i).

(** Modelled from the spec: [basis.reduceContinuity(i)], in every
    direction. *)
Definition reduceContinuity (i : Z) (b : gsTensorBSplineBasis) : gsTensorBSplineBasis :=
  mkTensorBasis (BSplineBasis.reduceContinuity i (knots_0 b))
                (BSplineBasis.reduceContinuity i (knots_1 b)).
End TensorBSplineBasis.

(** Modelled from the spec: a patch [gsGeometry<T>] of the geometry, with
    its basis and its control points. *)
Record gsGeometry : Type := mkGeometry {
  basis : gsTensorBSplineBasis;
  coefs : list (list Qc)
}.

(** Modelled from the spec: a side of a patch ([patchSide], index 1 to 4), a
    corner of a patch ([patchCorner], index 1 to 4) and an interface, a
    glued pair of sides ([boundaryInterface]). *)
Record patchSide : Type := mkPatchSide { side_patch : nat; side_index : Z }.
Record patchCorner : Type := mkPatchCorner { patch : nat; m_index : Z }.
Record boundaryInterface : Type := mkInterface { first : patchSide; second : patchSide }.

#[global] Instance patchCorner_eq_dec : EqDecision patchCorner.
Proof. solve_decision. Defined.

(** Modelled from the spec: the multi-patch geometry [gsMultiPatch<T>], an
    ordered collection of patches with the interfaces, the boundaries and
    the vertex groups of its topology. *)
Record gsMultiPatch : Type := mkMultiPatch {
  patches : list gsGeometry;
  interfaces : list boundaryInterface;
  boundaries : list patchSide;
  vertices : list (list patchCorner)
}.

(** Modelled from the spec: the per-patch container [gsC1Basis<d,T>] is not
    among the sources.  Each setter "records one piece of the per-patch
    structure": the interior basis, per side the plus, minus, geo and
    gluing-data bases and the edge basis, per corner the vertex basis and
    the kind of vertex.  A side or corner nothing was recorded for has no
    entry. *)
Record gsC1Basis : Type := mkC1Basis {
  patchID : nat;
  c1_options : option gsOptionList;
  innerBasis : option gsTensorBSplineBasis;
  basisPlus : gmap Z gsKnotVector;
  basisMinus : gmap Z gsKnotVector;
  basisGeo : gmap Z gsKnotVector;
  basisGluingData : gmap Z gsKnotVector;
  edgeBasis : gmap Z gsTensorBSplineBasis;
  vertexBasis : gmap Z gsTensorBSplineBasis;
  kindOfVertex : gmap Z Z
}.

Module C1Basis.
(** Modelled from the spec: the constructor
    [gsC1Basis<d,T> c1Basis(m_patches, np)]. *)
Definition make (np : nat) : gsC1Basis := mkC1Basis np None None ∅ ∅ ∅ ∅ ∅ ∅ ∅.

(** Modelled from the spec: [c.setOptions(o)]. *)
Definition setOptions (o : gsOptionList) (c : gsC1Basis) : gsC1Basis :=
  mkC1Basis (patchID c) (Some o) (innerBasis c) (basisPlus c) (basisMinus c)
    (basisGeo c) (basisGluingData c) (edgeBasis c) (vertexBasis c) (kindOfVertex c).

(** Modelled from the spec: [c.setInnerBasis(b)]. *)
Definition setInnerBasis (b : gsTensorBSplineBasis) (c : gsC1Basis) : gsC1Basis :=
  mkC1Basis (patchID c) (c1_options c) (Some b) (basisPlus c) (basisMinus c)
    (basisGeo c) (basisGluingData c) (edgeBasis c) (vertexBasis c) (kindOfVertex c).

(** Modelled from the spec: [c.setBasisPlus(b, side)]. *)
Definition setBasisPlus (b : gsKnotVector) (side : Z) (c : gsC1Basis) : gsC1Basis :=
  mkC1Basis (patchID c) (c1_options c) (innerBasis c) (<[side := b]> (basisPlus c))
    (basisMinus c) (basisGeo c) (basisGluingData c) (edgeBasis c) (vertexBasis c)
    (kindOfVertex c).

(** Modelled from the spec: [c.setBasisMinus(b, side)]. *)
Definition setBasisMinus (b : gsKnotVector) (side : Z) (c : gsC1Basis) : gsC1Basis :=
  mkC1Basis (patchID c) (c1_options c) (innerBasis c) (basisPlus c)
    (<[side := b]> (basisMinus c)) (basisGeo c) (basisGluingData c) (edgeBasis c)
    (vertexBasis c) (kindOfVertex c).

(** Modelled from the spec: [c.setBasisGeo(b, side)]. *)
Definition setBasisGeo (b : gsKnotVector) (side : Z) (c : gsC1Basis) : gsC1Basis :=
  mkC1Basis (patchID c) (c1_options c) (innerBasis c) (basisPlus c) (basisMinus c)
    (<[side := b]> (basisGeo c)) (basisGluingData c) (edgeBasis c) (vertexBasis c)
    (kindOfVertex c).

(** Modelled from the spec: [c.setBasisGluingData(b, side)]. *)
Definition setBasisGluingData (b : gsKnotVector) (side : Z) (c : gsC1Basis) : gsC1Basis :=
  mkC1Basis (patchID c) (c1_options c) (innerBasis c) (basisPlus c) (basisMinus c)
    (basisGeo c) (<[side := b]> (basisGluingData c)) (edgeBasis c) (vertexBasis c)
    (kindOfVertex c).

(** Modelled from the spec: [c.setEdgeBasis(b, side)]. *)
Definition setEdgeBasis (b : gsTensorBSplineBasis) (side : Z) (c : gsC1Basis) : gsC1Basis :=
  mkC1Basis (patchID c) (c1_options c) (innerBasis c) (basisPlus c) (basisMinus c)
    (basisGeo c) (basisGluingData c) (<[side := b]> (edgeBasis c)) (vertexBasis c)
    (kindOfVertex c).

(** Modelled from the spec: [c.setVertexBasis(b, corner)]. *)
Definition setVertexBasis (b : gsTensorBSplineBasis) (corner : Z) (c : gsC1Basis) : gsC1Basis :=
  mkC1Basis (patchID c) (c1_options c) (innerBasis c) (basisPlus c) (basisMinus c)
    (basisGeo c) (basisGluingData c) (edgeBasis c) (<[corner := b]> (vertexBasis c))
    (kindOfVertex c).

(** Modelled from the spec: [c.setKindOfVertex(kind, corner)]. *)
Definition setKindOfVertex (kind corner : Z) (c : gsC1Basis) : gsC1Basis :=
  mkC1Basis (patchID c) (c1_options c) (innerBasis c) (basisPlus c) (basisMinus c)
    (basisGeo c) (basisGluingData c) (edgeBasis c) (vertexBasis c)
    (<[corner := kind]> (kindOfVertex c)).
End C1Basis.

(** ** The sparse transformation matrix *)

(** Modelled from the spec: the sparse matrix [gsSparseMatrix<T>] is not
    among the sources.  It is "sized once in [init()], filled incrementally
    in [compute()], compressed at the end": its dimensions, the reserved
    capacity, the entries in the order of their insertion and whether it has
    been compressed. *)
Record gsSparseMatrix : Type := mkSparse {
  sm_rows : Z;
  sm_cols : Z;
  sm_reserved : Z;
  sm_entries : list (Z * Z * Qc);
  sm_compressed : bool
}.

Module SparseMatrix.
(** Modelled from the spec: [m.clear()]. *)
Definition clear (m : gsSparseMatrix) : gsSparseMatrix := mkSparse 0 0 0 [] false.
(** Modelled from the spec: [m.resize(r, c)]. *)
Definition resize (r c : Z) (m : gsSparseMatrix) : gsSparseMatrix :=
  mkSparse r c 0 [] false.
(** Modelled from the spec: [m.reserve(nz)]. *)
Definition reserve (nz : Z) (m : gsSparseMatrix) : gsSparseMatrix :=
  mkSparse (sm_rows m) (sm_cols m) nz (sm_entries m) (sm_compressed m).
(** Modelled from the spec: [m.insert(i, j) = v], a new entry. *)
Definition insert (i j : Z) (v : Qc) (m : gsSparseMatrix) : gsSparseMatrix :=
  mkSparse (sm_rows m) (sm_cols m) (sm_reserved m) (sm_entries m ++ [(i, j, v)])
    (sm_compressed m).
(** Modelled from the spec: [m.makeCompressed()]. *)
Definition makeCompressed (m : gsSparseMatrix) : gsSparseMatrix :=
  mkSparse (sm_rows m) (sm_cols m) (sm_reserved m) (sm_entries m) true.
End SparseMatrix.

(** The operations [compute()] applies to the matrix, in the order of their
    execution. *)
Inductive event : Type :=
  | EvInsert (row col : Z) (v : Qc)
  | EvSaveBasisInterface (numInt : nat)
  | EvSaveBasisBoundary (numBdy : nat)
  | EvSaveBasisVertex (numVer : nat)
  | EvMakeCompressed.

#[global] Instance event_eq_dec : EqDecision event.
Proof. solve_decision. Defined.

(** ** The object and its collaborators *)

(** The members of [gsApproxC1Spline<d,T>], together with the output sent to
    [gsInfo] and the record of the operations on [m_matrix]. *)
Record gsApproxC1Spline : Type := mkSpline {
  m_patches : gsMultiPatch;
  m_multiBasis : list gsTensorBSplineBasis;
  m_options : gsOptionList;
  p_tilde : Z;
  r_tilde : Z;
  m_bases : list gsC1Basis;
  m_matrix : gsSparseMatrix;
  gsInfo_out : list string;
  trace : list event
}.

(** Modelled from the spec: the code of the repository that [init()] and
    [compute()] call and that is not among the sources, as parameters of the
    development: the topology of [gsMultiPatch], the layout of [gsC1Basis]
    and the builders [gsApproxC1Edge] and [gsApproxC1Vertex].  By the spec
    the multi-patch geometry is "read-only to the core", the containers are
    "read during [compute()]" and a builder writes rows "into the global
    sparse matrix": a builder maps the matrix it is handed to the matrix it
    leaves, and reads everything else.  The last parameter is the
    subtraction of the scalar type [T], which rounds when [T] is a
    floating-point type. *)
Class Collaborators : Type := mkCollaborators {
  (** [mp.computeTopology(); mp.interfaces()] for the patches of [mp] *)
  computeTopology : list gsGeometry → list boundaryInterface;
  (** [gsC1Basis::init()], [size_rows()], [size_cols()], [print_spaces()] *)
  C1Basis_init : gsC1Basis → gsC1Basis;
  size_rows : gsC1Basis → Z;
  size_cols : gsC1Basis → Z;
  print_spaces : gsC1Basis → list string;
  (** [gsApproxC1Edge(m_patches, m_bases, item, numInt, m_options)
      .saveBasisInterface(m_matrix)] and its siblings *)
  saveBasisInterface :
    gsMultiPatch → list gsC1Basis → boundaryInterface → nat → gsOptionList →
    gsSparseMatrix → gsSparseMatrix;
  saveBasisBoundary :
    gsMultiPatch → list gsC1Basis → patchSide → nat → gsOptionList →
    gsSparseMatrix → gsSparseMatrix;
  saveBasisVertex :
    gsMultiPatch → list gsC1Basis → list nat → list Z → nat → gsOptionList →
    gsSparseMatrix → gsSparseMatrix;
  (** [a - b] for values [a] and [b] of [T] *)
  T_minus : real_t → real_t → real_t
}.

(** ** Stateful code: a state and failure monad over the object *)

(** A member function: from the object to a result and the object after the
    call, or to nothing when the call runs into undefined behaviour (an
    index outside a container). *)
Definition M (A : Type) : Type := gsApproxC1Spline → option (A * gsApproxC1Spline).

#[global] Instance M_ret : MRet M := λ A a s, Some (a, s).
#[global] Instance M_bind : MBind M :=
  λ A B f m s, match m s with Some (a, s') => f a s' | None => None end.

(** Read the object. *)
Definition get : M gsApproxC1Spline := λ s, Some (s, s).

(** A container access that is undefined outside its range. *)
Definition lift {A : Type} (o : option A) : M A :=
  λ s, match o with Some a => Some (a, s) | None => None end.

(** The object with another [m_bases]. *)
Definition set_bases (bs : list gsC1Basis) (s : gsApproxC1Spline) : gsApproxC1Spline :=
  mkSpline (m_patches s) (m_multiBasis s) (m_options s) (p_tilde s) (r_tilde s)
    bs (m_matrix s) (gsInfo_out s) (trace s).

(** The object with another [m_matrix]. *)
Definition set_matrix (m : gsSparseMatrix) (s : gsApproxC1Spline) : gsApproxC1Spline :=
  mkSpline (m_patches s) (m_multiBasis s) (m_options s) (p_tilde s) (r_tilde s)
    (m_bases s) m (gsInfo_out s) (trace s).

(** [m_bases.push_back(c)] *)
Definition push_back_basis (c : gsC1Basis) : M unit :=
  λ s, Some (tt, set_bases (m_bases s ++ [c]) s).

(** [m_bases[np].f(...)] for a setter [f] of the container. *)
Definition update_basis (np : nat) (f : gsC1Basis → gsC1Basis) : M unit :=
  λ s, match m_bases s !! np with
       | Some c => Some (tt, set_bases (<[np := f c]> (m_bases s)) s)
       | None => None
       end.

(** [m_matrix.f(...)] *)
Definition update_matrix (f : gsSparseMatrix → gsSparseMatrix) : M unit :=
  λ s, Some (tt, set_matrix (f (m_matrix s)) s).

(** [gsInfo << ...] *)
Definition gsInfo (out : list string) : M unit :=
  λ s, Some (tt, mkSpline (m_patches s) (m_multiBasis s) (m_options s) (p_tilde s)
                   (r_tilde s) (m_bases s) (m_matrix s) (gsInfo_out s ++ out) (trace s)).

(** Record an operation on the matrix. *)
Definition record_event (e : event) : M unit :=
  λ s, Some (tt, mkSpline (m_patches s) (m_multiBasis s) (m_options s) (p_tilde s)
                   (r_tilde s) (m_bases s) (m_matrix s) (gsInfo_out s) (trace s ++ [e])).

(** [if (b) body;] *)
Definition when (b : bool) (body : M unit) : M unit := if b then body else mret tt.

(** [for (x : l) body;] *)
Fixpoint for_each {A : Type} (l : list A) (body : A → M unit) : M unit :=
  match l with
  | [] => mret tt
  | x :: l' => body x ;; for_each l' body
  end.

(** A loop that carries local variables [acc] from one round to the next. *)
Fixpoint for_acc {A S : Type} (l : list A) (body : A → S → M S) (acc : S) : M S :=
  match l with
  | [] => mret acc
  | x :: l' => acc' ← body x acc; for_acc l' body acc'
  end.

(** [for (size_t i = 0; i < n; i++) body;] *)
Definition for_range (n : nat) (body : nat → M unit) : M unit := for_each (seq 0 n) body.

(** ** [gsApproxC1Spline::init] *)

Module TB := TensorBSplineBasis.

(** The knot [0.5] of the source. *)
Definition one_half : Qc := Q2Qc (1 # 2).

Section Inner.
Context `{Collaborators}.

(** The body of the loop over [uv] in the construction of the interior
    space, on the local copy [basis_inner]. *)
Definition adjust_inner (r uv : Z) (basis_inner : gsTensorBSplineBasis)
  : option gsTensorBSplineBasis :=
  if bool_decide (TB.degree basis_inner uv - r = 1) then
    knot_u ← TB.knot basis_inner uv (TB.degree basis_inner uv + 1);
    let basis_inner :=
      cond_do (bool_decide (knot_u ≠ 1%Qc)) (TB.insertKnot knot_u uv 1) basis_inner in
    let basis_inner :=
      cond_do (bool_decide (knot_u ≠ one_half) && bool_decide (knot_u ≠ 1%Qc))
              (TB.insertKnot (T_minus 1%Qc knot_u) uv 1) basis_inner in
    Some basis_inner
  else Some basis_inner.

(** The first loop of [init()]: one container per patch. *)
Definition init_containers : M unit :=
  s ← get;
  for_range (length (patches (m_patches s))) (λ np,
    s ← get;
    let c1Basis := C1Basis.make np in
    let c1Basis := C1Basis.setOptions (m_options s) c1Basis in
    push_back_basis c1Basis).

(** The second loop of [init()]: the interior spline space of each patch,
    built on a copy of the basis of the patch in [m_multiBasis]. *)
Definition init_inner : M unit :=
  s ← get;
  for_range (length (patches (m_patches s))) (λ np,
    s ← get;
    basis_inner ← lift (m_multiBasis s !! np);
    let r := discreteRegularity (m_options s) in
    basis_inner ← lift (adjust_inner r 0 basis_inner);
    basis_inner ← lift (adjust_inner r 1 basis_inner);
    update_basis np (C1Basis.setInnerBasis basis_inner)).

End Inner.

(** The body of the loop over the interfaces. *)
Definition init_interface (item : boundaryInterface) : M unit :=
  s ← get;
  let side_1 := side_index (first item) in
  let side_2 := side_index (second item) in
  let patch_1 := side_patch (first item) in
  let patch_2 := side_patch (second item) in
  let dir_1 := if bool_decide (side_1 > 2) then 0 else 1 in
  let dir_2 := if bool_decide (side_2 > 2) then 0 else 1 in
  mb_1 ← lift (m_multiBasis s !! patch_1);
  mb_2 ← lift (m_multiBasis s !! patch_2);
  let basis_1 := TB.component mb_1 dir_1 in
  let basis_2 := TB.component mb_2 dir_2 in
  let basis_geo_1 := TB.component mb_1 (1 - dir_1) in
  let basis_geo_2 := TB.component mb_2 (1 - dir_2) in
  let kv_1 := basis_1 in
  let kv_2 := basis_2 in
  geo_1 ← lift (patches (m_patches s) !! patch_1);
  let patch_basis_1 := TB.component (basis geo_1) dir_1 in
  let kv_patch_1 := patch_basis_1 in
  geo_2 ← lift (patches (m_patches s) !! patch_2);
  let patch_basis_2 := TB.component (basis geo_2) dir_2 in
  let kv_patch_2 := patch_basis_1 in
  '(out, kv_plus, kv_minus) ←
    lift (createPlusMinusSpace (m_options s) kv_1 kv_2 kv_patch_1 kv_patch_2);
  gsInfo out;;
  let basis_plus := kv_plus in
  let basis_minus := kv_minus in
  let '(out, kv_gluingData) :=
    createGluingDataSpace (p_tilde s) (r_tilde s) kv_1 kv_2 kv_patch_1 kv_patch_2 in
  gsInfo out;;
  let basis_gluingData := kv_gluingData in
  update_basis patch_1 (C1Basis.setBasisPlus basis_plus side_1);;
  update_basis patch_2 (C1Basis.setBasisPlus basis_plus side_2);;
  update_basis patch_1 (C1Basis.setBasisMinus basis_minus side_1);;
  update_basis patch_2 (C1Basis.setBasisMinus basis_minus side_2);;
  update_basis patch_1 (C1Basis.setBasisGeo basis_geo_1 side_1);;
  update_basis patch_2 (C1Basis.setBasisGeo basis_geo_2 side_2);;
  update_basis patch_1 (C1Basis.setBasisGluingData basis_gluingData side_1);;
  update_basis patch_2 (C1Basis.setBasisGluingData basis_gluingData side_2);;
  let kv_geo_1 := basis_geo_1 in
  let kv_geo_2 := basis_geo_2 in
  '(out, kv_edge_1, kv_edge_2) ←
    lift (createLokalEdgeSpace kv_plus kv_minus kv_gluingData kv_gluingData
                               kv_patch_1 kv_patch_2);
  gsInfo out;;
  let basis_edge_1 :=
    mkTensorBasis (if bool_decide (dir_1 = 0) then kv_edge_1 else kv_geo_1)
                  (if bool_decide (dir_1 = 0) then kv_geo_1 else kv_edge_1) in
  let basis_edge_2 :=
    mkTensorBasis (if bool_decide (dir_2 = 0) then kv_edge_2 else kv_geo_2)
                  (if bool_decide (dir_2 = 0) then kv_geo_2 else kv_edge_2) in
  update_basis patch_1 (C1Basis.setEdgeBasis basis_edge_1 side_1);;
  update_basis patch_2 (C1Basis.setEdgeBasis basis_edge_2 side_2).

(** The body of the loop over the boundaries. *)
Definition init_boundary (bit : patchSide) : M unit :=
  s ← get;
  let patch_1 := side_patch bit in
  let side_1 := side_index bit in
  let dir_1 := if bool_decide (side_index bit < 3) then 1 else 0 in
  mb_1 ← lift (m_multiBasis s !! patch_1);
  let basis_1 := TB.component mb_1 dir_1 in
  let basis_geo_1 := TB.component mb_1 (1 - dir_1) in
  let kv_1 := basis_1 in
  geo_1 ← lift (patches (m_patches s) !! patch_1);
  let kv_patch_1 := TB.component (basis geo_1) dir_1 in
  let '(kv_plus, kv_minus) := createPlusMinusSpace_1 (m_options s) kv_1 kv_patch_1 in
  let basis_plus := kv_plus in
  let basis_minus := kv_minus in
  let basis_geo_1 :=
    cond_do (bool_decide (degree basis_geo_1 - discreteRegularity (m_options s) = 1))
            (BSplineBasis.reduceContinuity 1) basis_geo_1 in
  update_basis patch_1 (C1Basis.setBasisGeo basis_geo_1 side_1);;
  '(out, kv_edge_1) ← lift (createLokalEdgeSpace_1 kv_plus kv_minus kv_patch_1);
  gsInfo out;;
  let kv_geo_1 := basis_geo_1 in
  let basis_edge_1_temp :=
    mkTensorBasis (if bool_decide (dir_1 = 0) then kv_edge_1 else kv_geo_1)
                  (if bool_decide (dir_1 = 0) then kv_geo_1 else kv_edge_1) in
  update_basis patch_1 (C1Basis.setEdgeBasis basis_edge_1_temp side_1);;
  update_basis patch_1 (C1Basis.setBasisPlus basis_plus side_1);;
  update_basis patch_1 (C1Basis.setBasisMinus basis_minus side_1).

(** The statements both branches for a vertex shared by several patches
    apply to the local copy [basis_vertex_1]. *)
Definition elevate_vertex_basis (p_tilde r_tilde r : Z)
    (basis_vertex_1 : gsTensorBSplineBasis) : gsTensorBSplineBasis :=
  let basis_vertex_1 := TB.degreeElevate (p_tilde - 1) 0 basis_vertex_1 in
  let basis_vertex_1 := TB.degreeElevate (p_tilde - 1) 1 basis_vertex_1 in
  let basis_vertex_1 :=
    cond_do (bool_decide (r ≠ 1)) (TB.reduceContinuity 1) basis_vertex_1 in
  let basis_vertex_1 :=
    cond_do (bool_decide (r_tilde < r - 1)) (TB.reduceContinuity (r - r_tilde - 1))
            basis_vertex_1 in
  basis_vertex_1.

(** The body of the loops over [j] in the two branches for a vertex shared
    by several patches; [kind] is [0] in the first and [1] in the second. *)
Definition init_shared_corner (kind : Z) (patch_1 : nat) (vertex_1 : Z) : M unit :=
  s ← get;
  basis_vertex_1 ← lift (m_multiBasis s !! patch_1);
  let r := discreteRegularity (m_options s) in
  let basis_vertex_1 := elevate_vertex_basis (p_tilde s) (r_tilde s) r basis_vertex_1 in
  update_basis patch_1 (C1Basis.setVertexBasis basis_vertex_1 vertex_1);;
  update_basis patch_1 (C1Basis.setKindOfVertex kind vertex_1).

(** [temp_mp]: the patches with the indices [patchIndex]. *)
Definition sub_patches (mp : gsMultiPatch) (patchIndex : list nat)
  : option (list gsGeometry) :=
  mapM (λ i, patches mp !! i) patchIndex.

(** The loop of [init()] over the interfaces. *)
Definition init_interfaces : M unit :=
  s ← get; for_each (interfaces (m_patches s)) init_interface.

(** The loop of [init()] over the boundaries. *)
Definition init_boundaries : M unit :=
  s ← get; for_each (boundaries (m_patches s)) init_boundary.

Section Init.
Context `{Collaborators}.

(** The body of the loop over the vertices. *)
Definition init_vertex (allcornerLists : list patchCorner) : M unit :=
  s ← get;
  let patchIndex := patch <$> allcornerLists in
  let vertIndex := m_index <$> allcornerLists in
  if bool_decide (length patchIndex = 1%nat) then
    patch_1 ← lift (patchIndex !! 0%nat);
    vertex_1 ← lift (vertIndex !! 0%nat);
    basis_vertex_1 ← lift (m_multiBasis s !! patch_1);
    let r := discreteRegularity (m_options s) in
    let basis_vertex_1 :=
      cond_do (bool_decide (TB.degree basis_vertex_1 0 - r = 1))
              (TB.reduceContinuity 1) basis_vertex_1 in
    update_basis patch_1 (C1Basis.setVertexBasis basis_vertex_1 vertex_1);;
    update_basis patch_1 (C1Basis.setKindOfVertex (-1) vertex_1)
  else if bool_decide (1 < length patchIndex)%nat then
    temp_mp ← lift (sub_patches (m_patches s) patchIndex);
    let temp_interfaces := computeTopology temp_mp in
    if bool_decide (length patchIndex = length temp_interfaces) then
      for_each allcornerLists (λ c, init_shared_corner 0 (patch c) (m_index c))
    else if bool_decide (length temp_interfaces < length patchIndex)%nat then
      for_each allcornerLists (λ c, init_shared_corner 1 (patch c) (m_index c))
    else mret tt
  else mret tt.

(** The loop of [init()] over the vertices. *)
Definition init_vertices : M unit :=
  s ← get; for_each (vertices (m_patches s)) init_vertex.

(** The end of [init()]: the layout of the containers and the size of the
    matrix. *)
Definition init_matrix : M unit :=
  s ← get;
  for_range (length (patches (m_patches s))) (λ np, update_basis np C1Basis_init);;
  update_matrix SparseMatrix.clear;;
  s ← get;
  let dim_col := foldl (λ acc c, acc + size_cols c) 0 (m_bases s) in
  let dim_row := foldl (λ acc c, acc + size_rows c) 0 (m_bases s) in
  update_matrix (SparseMatrix.resize dim_row dim_col);;
  let nz := 7 * dim_row in
  update_matrix (SparseMatrix.reserve nz);;
  when (info (m_options s))
    (for_range (length (patches (m_patches s))) (λ np,
       s ← get; c ← lift (m_bases s !! np); gsInfo (print_spaces c))).

(** [gsApproxC1Spline<d,T>::init()] *)
Definition init : M unit :=
  init_containers;;
  init_inner;;
  init_interfaces;;
  init_boundaries;;
  init_vertices;;
  init_matrix.

End Init.

(** ** [gsApproxC1Spline::compute] *)

(** [m_matrix.insert(row, col) = v;] *)
Definition matrix_insert (row col : Z) (v : Qc) : M unit :=
  update_matrix (SparseMatrix.insert row col v);; record_event (EvInsert row col v).

Section Compute.
Context `{Collaborators}.

(** The interior block of one patch; [shifts] are the local variables
    [shift_row] and [shift_col]. *)
Definition compute_inner_patch (np : nat) (shifts : Z * Z) : M (Z * Z) :=
  let '(shift_row, shift_col) := shifts in
  s ← get;
  c ← lift (m_bases s !! np);
  inner ← lift (innerBasis c);
  let dim_u := BSplineBasis.size (TB.component inner 0) in
  let dim_v := BSplineBasis.size (TB.component inner 1) in
  let row_i := 0 in
  row_i ← for_acc (seqZ 2 (dim_v - 2 - 2)) (λ j row_i,
             for_acc (seqZ 2 (dim_u - 2 - 2)) (λ i row_i,
               matrix_insert (shift_row + row_i) (shift_col + j * dim_u + i) 1%Qc;;
               mret (row_i + 1)) row_i) row_i;
  let shift_row := shift_row + size_rows c in
  let shift_col := shift_col + size_cols c in
  mret (shift_row, shift_col).

(** The loop of [compute()] over the patches: the interior basis
    functions. *)
Definition compute_inner : M unit :=
  s ← get;
  for_acc (seq 0 (length (patches (m_patches s)))) compute_inner_patch (0, 0);;
  mret tt.

(** The loop of [compute()] over the interfaces. *)
Definition compute_interfaces : M unit :=
  s ← get;
  for_range (length (interfaces (m_patches s))) (λ numInt,
    s ← get;
    item ← lift (interfaces (m_patches s) !! numInt);
    update_matrix (saveBasisInterface (m_patches s) (m_bases s) item numInt (m_options s));;
    record_event (EvSaveBasisInterface numInt)).

(** The loop of [compute()] over the boundaries. *)
Definition compute_boundaries : M unit :=
  s ← get;
  for_range (length (boundaries (m_patches s))) (λ numBdy,
    s ← get;
    bit ← lift (boundaries (m_patches s) !! numBdy);
    update_matrix (saveBasisBoundary (m_patches s) (m_bases s) bit numBdy (m_options s));;
    record_event (EvSaveBasisBoundary numBdy)).

(** The loop of [compute()] over the vertices. *)
Definition compute_vertices : M unit :=
  s ← get;
  for_range (length (vertices (m_patches s))) (λ numVer,
    s ← get;
    allcornerLists ← lift (vertices (m_patches s) !! numVer);
    let patchIndex := patch <$> allcornerLists in
    let vertIndex := m_index <$> allcornerLists in
    update_matrix (saveBasisVertex (m_patches s) (m_bases s) patchIndex vertIndex numVer
                     (m_options s));;
    record_event (EvSaveBasisVertex numVer)).

(** The output at the end of [compute()]. *)
Definition compute_info : M unit :=
  s ← get;
  when (info (m_options s))
    (gsInfo ["Dim for Patches: " +:+ endl];;
     for_range (length (patches (m_patches s))) (λ np,
       s ← get;
       c ← lift (m_bases s !! np);
       gsInfo ["(" +:+ pretty (size_rows c) +:+ "," +:+ pretty (size_cols c) +:+ "), "]);;
     gsInfo [endl]).

(** [gsApproxC1Spline<d,T>::compute()] *)
Definition compute : M unit :=
  compute_inner;;
  compute_interfaces;;
  compute_boundaries;;
  compute_vertices;;
  (update_matrix SparseMatrix.makeCompressed;; record_event EvMakeCompressed);;
  compute_info.

End Compute.

(** ** [gsParametrization::constructAndSolveEquationSystem_2] *)

(** A loop over a list in the failure monad, carrying local variables. *)
Fixpoint fold_opt {A S : Type} (l : list A) (body : A → S → option S) (acc : S)
  : option S :=
  match l with
  | [] => Some acc
  | x :: l' => acc' ← body x acc; fold_opt l' body acc'
  end.

Section Parametrization.
(** The scalars [T] with the constants and operations the function uses,
    the weights [neighbourhood.getLambdas(i)] and the flat mesh
    [createFlatMesh()] builds from the parameter points. *)
Context {T mesh : Type}.
Context (one one_half : T) (add mul : T → T → T) (zero : T).
Context (getLambdas : nat → list T).

(** A parameter point [Point2D(x, y, index)]. *)
Record Point2D : Type := mkPoint2D { px : T; py : T; pindex : nat }.

Context (createFlatMesh : list Point2D → mesh).

(** A dense matrix [gsMatrix<T>], entry by row and column. *)
Definition gsMatrix : Type := nat → nat → T.

(** [m(i, j) = v;] *)
Definition set_entry (m : gsMatrix) (i j : nat) (v : T) : gsMatrix :=
  λ i' j', if decide (i' = i ∧ j' = j) then v else m i' j'.

(** [LHS * RHS] for a matrix [LHS] with [N] columns. *)
Definition product (N : nat) (LHS RHS : gsMatrix) : gsMatrix :=
  λ i c, foldl (λ acc k, add acc (mul (LHS i k) (RHS k c))) zero (seq 0 N).

(** The first loop of the set-up: the rows [i < n]. *)
Definition setup_inner (n N : nat) (acc : gsMatrix * gsMatrix)
  : option (gsMatrix * gsMatrix) :=
  fold_opt (seq 0 n) (λ i acc,
    let lambdas := getLambdas i in
    fold_opt (seq 0 N) (λ j '(LHS, RHS),
      l ← lambdas !! j;
      let LHS := set_entry LHS i j l in
      let RHS := set_entry RHS i 0 one_half in
      let RHS := set_entry RHS i 1 one_half in
      Some (LHS, RHS)) acc) acc.

(** The second loop of the set-up: the rows [n <= i < N]. *)
Definition setup_boundary (n N : nat) (pts : list Point2D)
    (acc : gsMatrix * gsMatrix) : option (gsMatrix * gsMatrix) :=
  fold_opt (seq n (N - n)) (λ i '(LHS, RHS),
    let LHS := set_entry LHS i i one in
    p ← pts !! i;
    let RHS := set_entry (set_entry RHS i 0 (px p)) i 1 (py p) in
    Some (LHS, RHS)) acc.

(** The local variables [sol] and [RHS], the member [m_parameterPoints], the
    files written and the number of rounds of the loop over [k] executed. *)
Record solver_state : Type := mkSolver {
  sol : option gsMatrix;
  RHS : gsMatrix;
  m_parameterPoints : list Point2D;
  written : list (string * mesh);
  rounds : nat
}.

(** [m_parameterPoints[i] << x, y;] *)
Definition store_point (i : nat) (x y : T) (pts : list Point2D)
  : option (list Point2D) :=
  p ← pts !! i; Some (<[i := mkPoint2D x y (pindex p)]> pts).

(** The body of the loop over [k]. *)
Definition solver_round (n N : nat) (LHS : gsMatrix) (k : nat) (st : solver_state)
  : option solver_state :=
  let sol := product N LHS (RHS st) in
  let RHS := sol in
  pts ← fold_opt (seq 0 n) (λ i pts, store_point i (sol i 0%nat) (sol i 1%nat) pts)
                 (m_parameterPoints st);
  let written :=
    if bool_decide (k `mod` 5 = 0)%nat
    then written st ++ [("mesh" +:+ pretty k, createFlatMesh pts)]
    else written st in
  Some (mkSolver (Some sol) RHS pts written (S (rounds st))).

(** [for (size_t k = 0; k <= 100; k++) body;] as a loop with fuel. *)
Fixpoint solver_loop (fuel : nat) (n N : nat) (LHS : gsMatrix) (k : nat)
    (st : solver_state) : option solver_state :=
  match fuel with
  | O => None
  | S fuel' =>
      if bool_decide (k ≤ 100)%nat
      then st' ← solver_round n N LHS k st; solver_loop fuel' n N LHS (k + 1)%nat st'
      else Some st
  end.

(** The function; [LHS0] and [RHS0] are the matrices as their constructors
    leave them, with entries that are not initialised. *)
Definition constructAndSolveEquationSystem_2 (n N : nat) (LHS0 RHS0 : gsMatrix)
    (pts : list Point2D) : option solver_state :=
  '(LHS, RHS) ← setup_inner n N (LHS0, RHS0);
  '(LHS, RHS) ← setup_boundary n N pts (LHS, RHS);
  solver_loop 102 n N LHS 0%nat (mkSolver None RHS pts [] 0).

End Parametrization.

Arguments gsMatrix T : clear implicits.
Arguments Point2D T : clear implicits.
Arguments solver_state T mesh : clear implicits.

(** * Mesh parametrization: the functions of [gsParametrization<T>] around
    the solver

    A shallow embedding of further functions of
    [src/gsModeling/gsParametrization.hpp].

    Conventions of this part.
    - [size_t] is embedded as [Z] with the wrap-around of a 64-bit unsigned
      integer written out ([to_size_t]); an [index_t] cast to [size_t] wraps
      the same way.
    - The values of the scalar type [T] are embedded as canonical rationals
      [Qc], as the knots are.  Where the weights of a vertex are computed,
      the addition, the multiplication and the division of [T] are
      parameters of the embedding, since the operations of a floating-point
      type round.  Where a coordinate is interpolated, a division by zero
      gives no real number and the function returns [None] for it.
    - [GISMO_ASSERT] is compiled out of release builds and is not part of
      the embedding; the behaviour the assertion guards against is.
    - A loop that need not end runs on fuel; [OutOfFuel] tells a run that
      did not end within its fuel from an [Undefined] one.
    - Output sent to [gsDebug] is left out. *)

From Stdlib Require Import Lqa Qround.
From stdpp Require Import sorting.

Local Open Scope Z_scope.

(** ** Sizes, reals and outcomes *)

(** The value of an integer expression of type [size_t]. *)
Definition to_size_t (x : Z) : Z := x `mod` 2 ^ 64.

(** [v[i]] for a [std::vector] and an index of type [size_t]. *)
Definition vec_at {A : Type} (v : list A) (i : Z) : option A :=
  if decide (0 ≤ i < Z.of_nat (length v)) then v !! Z.to_nat i else None.

(** An integer as a scalar. *)
Definition real (z : Z) : Qc := Q2Qc (inject_Z z).

(** [x / y] on scalars. *)
Definition divide (x y : Qc) : option Qc :=
  if decide (y = 0%Qc) then None else Some (x / y)%Qc.

(** What a call does: it returns, it runs into undefined behaviour, or it
    is still running when the fuel is used up. *)
Inductive outcome (A : Type) : Type :=
  | Returns (a : A)
  | Undefined
  | OutOfFuel.
Arguments Returns {A} a.
Arguments Undefined {A}.
Arguments OutOfFuel {A}.

#[global] Instance outcome_ret : MRet outcome := λ A a, Returns a.
#[global] Instance outcome_bind : MBind outcome :=
  λ A B f m, match m with
             | Returns a => f a
             | Undefined => Undefined
             | OutOfFuel => OutOfFuel
             end.

(** An access that is undefined outside the container. *)
Definition defined {A : Type} (o : option A) : outcome A :=
  match o with Some a => Returns a | None => Undefined end.

(** [std::find(l.begin(), l.end(), x)] as a position: the index of the
    first occurrence of [x], the length of [l] (the iterator [l.end()]) when
    there is none. *)
Fixpoint find_pos (l : list Z) (x : Z) : nat :=
  match l with
  | [] => 0%nat
  | y :: l' => if decide (y = x) then 0%nat else S (find_pos l' x)
  end.

(** ** [gsParametrization::rangeCheck] *)

Fixpoint rangeCheck (corners : list index_t) (minimum maximum : Z) : bool :=
  match corners with
  | [] => true
  | it :: corners' =>
      if bool_decide (to_size_t it < minimum ∨ maximum < to_size_t it) then false
      else rangeCheck corners' minimum maximum
  end.

(** ** [gsParametrization::findLengthOfPositionPart] *)

Section FindLength.
Context {T : Type} (zero : T).

(** The loop over [i], which takes the values [indices]; [b_0] is
    [(size_t)bounds[0]]. *)
Fixpoint findLengthOfPositionPart_loop (position b_0 : Z) (bounds : list index_t)
    (lengths : list T) (numberOfBounds : Z) (indices : list Z) : option T :=
  match indices with
  | [] => Some zero
  | i :: indices' =>
      b_i ← vec_at bounds i;
      if bool_decide (to_size_t (to_size_t b_i - b_0 + 1)
                      < to_size_t (position - b_0 + 1)) then
        b_n ← vec_at bounds ((i + 1) `mod` numberOfBounds);
        if bool_decide (to_size_t (position - b_0 + 1)
                        ≤ to_size_t (to_size_t b_n - b_0 + 1))
        then vec_at lengths i
        else findLengthOfPositionPart_loop position b_0 bounds lengths numberOfBounds indices'
      else findLengthOfPositionPart_loop position b_0 bounds lengths numberOfBounds indices'
  end.

Definition findLengthOfPositionPart (position numberOfPositions : Z)
    (bounds : list index_t) (lengths : list T) : option T :=
  let numberOfBounds := Z.of_nat (length bounds) in
  let s := Z.of_nat (length lengths) in
  b_last ← vec_at bounds (to_size_t (numberOfBounds - 1));
  if bool_decide (to_size_t b_last < position) then vec_at lengths (to_size_t (s - 1))
  else
    b_0 ← vec_at bounds 0;
    if bool_decide (position ≤ to_size_t b_0) then vec_at lengths (to_size_t (s - 1))
    else findLengthOfPositionPart_loop position (to_size_t b_0) bounds lengths
           numberOfBounds (seqZ 0 numberOfBounds).

End FindLength.

(** ** [Neighbourhood::findPointOnBoundary] *)

(** [Point2D_default] is the point the default constructor [Point2D()]
    builds; the constructor is not among the sources. *)
Definition findPointOnBoundary (Point2D_default : Point2D Qc) (w : Qc)
    (vertexIndex : nat) : Point2D Qc :=
  if bool_decide (0 ≤ w)%Qc && bool_decide (w ≤ 1)%Qc then
    mkPoint2D w 0%Qc vertexIndex
  else if bool_decide (1 < w)%Qc && bool_decide (w ≤ real 2)%Qc then
    mkPoint2D 1%Qc (w - 1)%Qc vertexIndex
  else if bool_decide (real 2 < w)%Qc && bool_decide (w ≤ real 3)%Qc then
    mkPoint2D (1 - w + real 2)%Qc 1%Qc vertexIndex
  else if bool_decide (real 3 < w)%Qc && bool_decide (w ≤ real 4)%Qc then
    mkPoint2D 0%Qc (1 - w + real 3)%Qc vertexIndex
  else Point2D_default.

(** ** The local neighbourhood of a vertex *)

(** The members of [LocalNeighbourhood].  The chain [m_neighbours] is a
    [gsHalfEdgeMesh<T>::Chain], which is not among the sources; it is
    embedded by the two values read from it, [getVertexIndices()] and
    [getNumberOfVertices()]. *)
Record LocalNeighbourhood : Type := mkLocalNeighbourhood {
  m_vertexIndex : Z;
  m_neighbours_indices : list Z;
  m_neighbours_number : Z;
  m_angles : list Qc;
  m_neighbourDistances : list Qc
}.

Definition getVertexIndex (ln : LocalNeighbourhood) : Z := m_vertexIndex ln.
Definition getNumberOfNeighbours (ln : LocalNeighbourhood) : Z := m_neighbours_number ln.
Definition getVertexIndicesOfNeighbours (ln : LocalNeighbourhood) : list Z :=
  m_neighbours_indices ln.
Definition getAngles (ln : LocalNeighbourhood) : list Qc := m_angles ln.
Definition getNeighbourDistances (ln : LocalNeighbourhood) : list Qc :=
  m_neighbourDistances ln.


(** ** [Neighbourhood::takeCornersWithSmallestAngles] and
    [Neighbourhood::getBoundaryCorners] *)

(** [operator<] of [std::pair<T, size_t>], made reflexive: the order
    [std::sort] arranges the pairs in. *)
Definition pair_le (a b : Qc * Z) : Prop :=
  (a.1 < b.1)%Qc ∨ (a.1 = b.1 ∧ a.2 ≤ b.2).

#[global] Instance pair_le_dec a b : Decision (pair_le a b).
Proof. unfold pair_le. apply _. Defined.





Section Restrict.
(** [m_basicInfos.getShortestBoundaryDistanceBetween(i, j)] and
    [m_basicInfos.getBoundaryLength()] of the half-edge mesh, which is not
    among the sources. *)
Context (getShortestBoundaryDistanceBetween : Z → Z → Qc) (getBoundaryLength : Qc).



End Restrict.

(** ** [Neighbourhood::computeCorrections] *)

(** The loop [while (neighbours.front() != target)], which moves the first
    neighbour to the end. *)
Fixpoint rotate_to (fuel : nat) (target : Z) (neighbours : list Z) : outcome (list Z) :=
  match fuel with
  | O => OutOfFuel
  | S fuel' =>
      match neighbours with
      | [] => Undefined
      | front :: rest =>
          if decide (front ≠ target) then rotate_to fuel' target (rest ++ [front])
          else Returns neighbours
      end
  end.

Definition computeCorrections (fuel : nat) (stitchIndices : list Z)
    (localNeighbourhood : LocalNeighbourhood) : outcome (list Z) :=
  let indexIt := find_pos stitchIndices (getVertexIndex localNeighbourhood) in
  if decide (indexIt = length stitchIndices) then Returns []
  else
    let neighbours := getVertexIndicesOfNeighbours localNeighbourhood in
    result ←
      (if decide (indexIt = 0%nat) then
         next ← defined (stitchIndices !! S indexIt);
         let nextOnStitch := find_pos neighbours next in
         Returns (drop nextOnStitch neighbours)
       else if decide (S indexIt = length stitchIndices) then
         prev ← defined (stitchIndices !! pred indexIt);
         let prevOnStitch := find_pos neighbours prev in
         Returns (take prevOnStitch neighbours)
       else
         next ← defined (stitchIndices !! S indexIt);
         neighbours ← rotate_to fuel next neighbours;
         prev ← defined (stitchIndices !! pred indexIt);
         let prevOnStitch := find_pos neighbours prev in
         Returns (take prevOnStitch neighbours));
    let result :=
      foldl (λ result it, filter (λ x, x ≠ it) result) result stitchIndices in
    Returns result.

(** ** [gsParametrization::getSide] *)

(** The loop of [getSide]; the iterators [it] and [itEnd] are positions in
    [boundary], [boundary.end()] being its length. *)
Fixpoint getSide_loop (fuel : nat) (boundary : list Z) (itEnd it : nat)
    (result : list Z) : outcome (list Z) :=
  match fuel with
  | O => OutOfFuel
  | S fuel' =>
      if decide (it ≠ itEnd) then
        let it := if decide (it = length boundary) then 0%nat else it in
        x ← defined (boundary !! it);
        getSide_loop fuel' boundary itEnd (S it) (result ++ [x])
      else Returns result
  end.

(** The result is the output sent to [gsInfo] and what the call does. *)
Definition getSide (fuel : nat) (boundary : list Z) (beg end_ : Z)
  : list string * outcome (list Z) :=
  let out :=
    ["Boundary (" +:+ pretty (length boundary) +:+ " elements):" +:+ endl]
    ++ ((λ it : Z, pretty it +:+ " ") <$> boundary) ++ [endl] in
  let itBeg := find_pos boundary beg in
  let itEnd := find_pos boundary end_ in
  (out,
   if decide (itBeg = length boundary) then Undefined
   else getSide_loop fuel boundary itEnd (S itBeg) []).

(** ** The restricted flat mesh *)

(** Modelled from the spec: [gsMesh<T>] belongs to the mesh data structures
    the spec takes as available and is not among the sources.  A mesh is
    embedded by the vertices and the faces added to it, in the order of the
    calls, and a vertex handle by the vertex it points to. *)
Record gsVertex : Type := mkVertex { vx : Qc; vy : Qc; vz : Qc }.
Record gsMesh : Type := mkMesh {
  m_vertex : list gsVertex;
  m_face : list (gsVertex * gsVertex * gsVertex)
}.

(** Modelled from the spec: [mesh.addVertex(x, y)], with [z = 0]. *)
Definition addVertex (x y : Qc) (mesh : gsMesh) : gsVertex * gsMesh :=
  let v := mkVertex x y 0%Qc in (v, mkMesh (m_vertex mesh ++ [v]) (m_face mesh)).

(** Modelled from the spec: [mesh.addFace(v0, v1, v2)]. *)
Definition addFace (v0 v1 v2 : gsVertex) (mesh : gsMesh) : gsMesh :=
  mkMesh (m_vertex mesh) (m_face mesh ++ [(v0, v1, v2)]).

(** What [gsWarn] is sent; the scalars are kept as they are instead of
    their decimal rendering. *)
Inductive warning : Type :=
  | WarnOneOut (v1x : Qc)
  | WarnTwoOut (v1x : Qc)
  | WarnIntersects (v0 v1 v2 : Qc * Qc).

(** The mesh under construction and the warnings so far. *)
Definition flat : Type := gsMesh * list warning.

(** [gsParametrization::correspondingV] *)
Definition correspondingV (h0 h1 : gsVertex) (u : Qc) : option Qc :=
  let u0 := vx h0 in
  let u1 := vx h1 in
  let v0 := vy h0 in
  let v1 := vy h1 in
  t ← divide (u - u0)%Qc (u1 - u0)%Qc;
  Some ((1 - t) * v0 + t * v1)%Qc.

(** [gsParametrization::addThreeFlatTrianglesOneOut]: [v1] is outside the
    domain, [v0] and [v2] inside. *)
Definition addThreeFlatTrianglesOneOut (st : flat) (v0 v1 v2 : gsVertex) : option flat :=
  let '(mesh, warn) := st in
  let '(w0, mesh) := addVertex (vx v0) (vy v0) mesh in
  let '(w2, mesh) := addVertex (vx v2) (vy v2) mesh in
  if decide (vx v1 < 0)%Qc then
    c01 ← correspondingV v0 v1 0%Qc;
    let '(w01, mesh) := addVertex 0%Qc c01 mesh in
    c12 ← correspondingV v1 v2 0%Qc;
    let '(w12, mesh) := addVertex 0%Qc c12 mesh in
    let mesh := addFace w0 w01 w12 mesh in
    let mesh := addFace w0 w12 w2 mesh in
    c01 ← correspondingV v0 v1 0%Qc;
    let '(vvv01, mesh) := addVertex 1%Qc c01 mesh in
    c12 ← correspondingV v1 v2 0%Qc;
    let '(vvv12, mesh) := addVertex 1%Qc c12 mesh in
    let '(v1copy, mesh) := addVertex (vx v1 + 1)%Qc (vy v1) mesh in
    let mesh := addFace vvv01 v1copy vvv12 mesh in
    Some (mesh, warn)
  else if decide (1 < vx v1)%Qc then
    c01 ← correspondingV v0 v1 1%Qc;
    let '(w01, mesh) := addVertex 1%Qc c01 mesh in
    c12 ← correspondingV v1 v2 1%Qc;
    let '(w12, mesh) := addVertex 1%Qc c12 mesh in
    let mesh := addFace w0 w01 w12 mesh in
    let mesh := addFace w0 w12 w2 mesh in
    c01 ← correspondingV v0 v1 1%Qc;
    let '(vvv01, mesh) := addVertex 0%Qc c01 mesh in
    c12 ← correspondingV v1 v2 1%Qc;
    let '(vvv12, mesh) := addVertex 0%Qc c12 mesh in
    let '(v1copy, mesh) := addVertex (vx v1 - 1)%Qc (vy v1) mesh in
    let mesh := addFace vvv01 v1copy vvv12 mesh in
    Some (mesh, warn)
  else Some (mesh, warn ++ [WarnOneOut (vx v1)]).

(** [gsParametrization::addThreeFlatTrianglesTwoOut]: [v1] is inside the
    domain, [v0] and [v2] outside. *)
Definition addThreeFlatTrianglesTwoOut (st : flat) (v0 v1 v2 : gsVertex) : option flat :=
  let '(mesh, warn) := st in
  if bool_decide (vx v0 < 0)%Qc && bool_decide (vx v2 < 0)%Qc then
    let '(w0, mesh) := addVertex (vx v0 + 1)%Qc (vy v0) mesh in
    let '(w1, mesh) := addVertex (vx v1 + 1)%Qc (vy v1) mesh in
    let '(w2, mesh) := addVertex (vx v2 + 1)%Qc (vy v2) mesh in
    addThreeFlatTrianglesOneOut (mesh, warn) w0 w1 w2
  else if bool_decide (1 < vx v0)%Qc && bool_decide (1 < vx v2)%Qc then
    let '(w0, mesh) := addVertex (vx v0 - 1)%Qc (vy v0) mesh in
    let '(w1, mesh) := addVertex (vx v1 - 1)%Qc (vy v1) mesh in
    let '(w2, mesh) := addVertex (vx v2 - 1)%Qc (vy v2) mesh in
    addThreeFlatTrianglesOneOut (mesh, warn) w0 w1 w2
  else Some (mesh, warn ++ [WarnTwoOut (vx v1)]).

(** The loop [while (v0x > 1 && v1x > 1 && v2x > 1)], which subtracts [1]
    from the three values; [rounds] bounds the number of its rounds. *)
Fixpoint shift_down (rounds : nat) (v : Qc * Qc * Qc) : Qc * Qc * Qc :=
  match rounds with
  | O => v
  | S rounds' =>
      let '(v0x, v1x, v2x) := v in
      if bool_decide (1 < v0x)%Qc && bool_decide (1 < v1x)%Qc && bool_decide (1 < v2x)%Qc
      then shift_down rounds' ((v0x - 1)%Qc, (v1x - 1)%Qc, (v2x - 1)%Qc)
      else v
  end.

(** The loop [while (v0x < 0 && v1x < 0 && v2x < 0)], which adds [1]. *)
Fixpoint shift_up (rounds : nat) (v : Qc * Qc * Qc) : Qc * Qc * Qc :=
  match rounds with
  | O => v
  | S rounds' =>
      let '(v0x, v1x, v2x) := v in
      if bool_decide (v0x < 0)%Qc && bool_decide (v1x < 0)%Qc && bool_decide (v2x < 0)%Qc
      then shift_up rounds' ((v0x + 1)%Qc, (v1x + 1)%Qc, (v2x + 1)%Qc)
      else v
  end.

(** [gsParametrization::addOneFlatTriangleNotIntersectingBoundary].  The
    first loop runs no more than [ceiling v0x] rounds and the second no more
    than [ceiling (- v0x)] rounds, since every round moves [v0x] by [1]
    towards the bound that ends the loop. *)
Definition addOneFlatTriangleNotIntersectingBoundary (st : flat)
    (v0 v1 v2 : gsVertex) : flat :=
  let '(mesh, warn) := st in
  let v := (vx v0, vx v1, vx v2) in
  let v := shift_down (Z.to_nat (Qceiling (this v.1.1))) v in
  let v := shift_up (Z.to_nat (Qceiling (- this v.1.1))) v in
  let '(v0x, v1x, v2x) := v in
  if bool_decide (0 ≤ v0x)%Qc && bool_decide (v0x ≤ 1)%Qc &&
     bool_decide (0 ≤ v1x)%Qc && bool_decide (v1x ≤ 1)%Qc &&
     bool_decide (0 ≤ v2x)%Qc && bool_decide (v2x ≤ 1)%Qc
  then
    let '(a, mesh) := addVertex v0x (vy v0) mesh in
    let '(b, mesh) := addVertex v1x (vy v1) mesh in
    let '(c, mesh) := addVertex v2x (vy v2) mesh in
    (addFace a b c mesh, warn)
  else
    (mesh, warn ++ [WarnIntersects (v0x, vy v0) (v1x, vy v1) (v2x, vy v2)]).

(** The body of the loop of [createRestrictedFlatMesh] for the triangle with
    the corners [vh]. *)
Definition restrict_triangle (st : flat) (vh : gsVertex * gsVertex * gsVertex)
  : option flat :=
  let '(vh0, vh1, vh2) := vh in
  let out (v : gsVertex) : bool :=
    bool_decide (vx v < 0 ∨ 1 < vx v)%Qc in
  let out0 := out vh0 in
  let out1 := out vh1 in
  let out2 := out vh2 in
  if negb out0 && negb out1 && negb out2 then
    Some (addOneFlatTriangleNotIntersectingBoundary st vh0 vh1 vh2)
  else if out0 && negb out1 && out2 then addThreeFlatTrianglesTwoOut st vh0 vh1 vh2
  else if out0 && out1 && negb out2 then addThreeFlatTrianglesTwoOut st vh1 vh2 vh0
  else if negb out0 && out1 && out2 then addThreeFlatTrianglesTwoOut st vh2 vh0 vh1
  else if negb out0 && negb out1 && out2 then addThreeFlatTrianglesOneOut st vh1 vh2 vh0
  else if negb out0 && out1 && negb out2 then addThreeFlatTrianglesOneOut st vh0 vh1 vh2
  else if out0 && negb out1 && negb out2 then addThreeFlatTrianglesOneOut st vh2 vh0 vh1
  else Some (addOneFlatTriangleNotIntersectingBoundary st vh0 vh1 vh2).

(** [gsParametrization::createRestrictedFlatMesh].  The half-edge mesh
    [unfolded] is embedded by its triangles, each with the vertices
    [unfolded.getVertex(unfolded.getGlobalVertexIndex(j, i))] for [j] from 1
    to 3; [cleanMesh] is the member function [gsMesh<T>::cleanMesh] applied
    to the result, which is not among the sources. *)
Definition createRestrictedFlatMesh_loop
    (unfolded : list (gsVertex * gsVertex * gsVertex)) : option flat :=
  fold_opt unfolded (λ vh st, restrict_triangle st vh) (mkMesh [] [], []).

Definition createRestrictedFlatMesh (cleanMesh : gsMesh → gsMesh)
    (unfolded : list (gsVertex * gsVertex * gsVertex)) : option (gsMesh * list warning) :=
  '(result, warn) ← createRestrictedFlatMesh_loop unfolded;
  Some (cleanMesh result, warn).

(** ** The constructor of [LocalParametrization] *)

Section LocalParametrization.
(** The addition, the multiplication and the division of the scalar type
    [T], and the conversion of a [size_t] to it.  Nothing is assumed of
    them. *)
Context (add mul div : Qc → Qc → Qc) (of_size_t : Z → Qc).

(** [m_lambdas[i] += x] *)
Definition add_at (m_lambdas : list Qc) (i : Z) (x : Qc) : option (list Qc) :=
  l ← vec_at m_lambdas i; Some (<[Z.to_nat i := add l x]> m_lambdas).

(** The loop [while (!indices.empty())] of the branch
    [parametrizationMethod == 2]. *)
Fixpoint uniform_loop (d : Z) (indices : list Z) (m_lambdas : list Qc)
  : option (list Qc) :=
  match indices with
  | [] => Some m_lambdas
  | front :: indices' =>
      m_lambdas ← add_at m_lambdas (to_size_t (front - 1)) (div 1%Qc (of_size_t d));
      uniform_loop d indices' m_lambdas
  end.

(** The vector [m_lambdas] the constructor leaves in the branch
    [parametrizationMethod == 2]; [N] is [meshInfo.getNumberOfVertices()]. *)
Definition LocalParametrization_2 (N : nat) (localNeighbourhood : LocalNeighbourhood)
  : option (list Qc) :=
  let indices := getVertexIndicesOfNeighbours localNeighbourhood in
  let d := getNumberOfNeighbours localNeighbourhood in
  let m_lambdas := replicate N 0%Qc in
  uniform_loop d indices m_lambdas.

(** The last loop of the branch [parametrizationMethod == 3], over the
    elements of [neighbourDistances]; [indices.front()] of an empty list is
    undefined. *)
Fixpoint distance_loop (sumOfDistancesInv : Qc) (neighbourDistances : list Qc)
    (indices : list Z) (m_lambdas : list Qc) : option (list Qc) :=
  match neighbourDistances with
  | [] => Some m_lambdas
  | it :: neighbourDistances' =>
      match indices with
      | [] => None
      | front :: indices' =>
          m_lambdas ← add_at m_lambdas (to_size_t (front - 1)) (mul it sumOfDistancesInv);
          distance_loop sumOfDistancesInv neighbourDistances' indices' m_lambdas
      end
  end.

(** The vector [m_lambdas] the constructor leaves in the branch
    [parametrizationMethod == 3]. *)
Definition LocalParametrization_3 (N : nat) (localNeighbourhood : LocalNeighbourhood)
  : option (list Qc) :=
  let indices := getVertexIndicesOfNeighbours localNeighbourhood in
  let neighbourDistances := getNeighbourDistances localNeighbourhood in
  let sumOfDistances :=
    foldl (λ sumOfDistances it, add sumOfDistances it) 0%Qc neighbourDistances in
  let sumOfDistancesInv := div 1%Qc sumOfDistances in
  let m_lambdas := replicate N 0%Qc in
  distance_loop sumOfDistancesInv neighbourDistances indices m_lambdas.

End LocalParametrization.

(** ** [gsParametrization::constructAndSolveEquationSystem], the system for
    a free boundary *)

Section FreeBoundary.
(** The scalars [T] with the constants and the negation the function uses,
    and the member [m_localParametrizations] of the neighbourhood. *)
Context {T : Type}.
Context (one zero : T) (opp : T → T).
Context (m_localParametrizations : list (list T)).

(** [Neighbourhood::getLambdas] *)
Definition Neighbourhood_getLambdas (i : Z) : option (list T) :=
  vec_at m_localParametrizations i.

(** The four matrices of the function and the output sent to [gsInfo] and
    [gsWarn]. *)
Record free_system : Type := mkFreeSystem {
  LHSx : gsMatrix T;
  LHSy : gsMatrix T;
  RHSx : gsMatrix T;
  RHSy : gsMatrix T;
  free_out : list string
}.

(** [m(i, j) = v;] for a matrix with [rows] rows and [cols] columns; an
    entry outside the matrix is undefined. *)
Definition assign (rows cols : Z) (m : gsMatrix T) (i j : Z) (v : T)
  : option (gsMatrix T) :=
  if decide (0 ≤ i < rows ∧ 0 ≤ j < cols)
  then Some (set_entry m (Z.to_nat i) (Z.to_nat j) v) else None.

Definition set_LHSx (N i j : Z) (v : T) (s : free_system) : option free_system :=
  m ← assign N N (LHSx s) i j v;
  Some (mkFreeSystem m (LHSy s) (RHSx s) (RHSy s) (free_out s)).
Definition set_LHSy (N i j : Z) (v : T) (s : free_system) : option free_system :=
  m ← assign N N (LHSy s) i j v;
  Some (mkFreeSystem (LHSx s) m (RHSx s) (RHSy s) (free_out s)).
Definition set_RHSx (N i : Z) (v : T) (s : free_system) : option free_system :=
  m ← assign N 1 (RHSx s) i 0 v;
  Some (mkFreeSystem (LHSx s) (LHSy s) m (RHSy s) (free_out s)).
Definition set_RHSy (N i : Z) (v : T) (s : free_system) : option free_system :=
  m ← assign N 1 (RHSy s) i 0 v;
  Some (mkFreeSystem (LHSx s) (LHSy s) (RHSx s) m (free_out s)).
Definition free_print (msg : string) (s : free_system) : free_system :=
  mkFreeSystem (LHSx s) (LHSy s) (RHSx s) (RHSy s) (free_out s ++ [msg]).

(** [i == j ? T(1) : -lambdas[j]] *)
Definition diagonal_or_weight (lambdas : list T) (i j : Z) : option T :=
  if decide (i = j) then Some one else opp <$> vec_at lambdas j.

(** The loop over the interior points. *)
Definition free_interior (n N : Z) (s : free_system) : option free_system :=
  fold_opt (seqZ 0 n) (λ i s,
    lambdas ← Neighbourhood_getLambdas i;
    fold_opt (seqZ 0 N) (λ j s,
      x ← diagonal_or_weight lambdas i j;
      s ← set_LHSx N i j x s;
      set_LHSy N i j (LHSx s (Z.to_nat i) (Z.to_nat j)) s) s) s.

(** The loop over the corners: [for (size_t i = n; i < 4; i++)]. *)
Definition free_corners (n N : Z) (corners : list Z) (s : free_system)
  : option free_system :=
  fold_opt (seqZ n (4 - n)) (λ i s,
    j ← vec_at corners i;
    s ← set_LHSx N j j one s;
    s ← set_LHSy N i j one s;
    if decide (i = 0) then s ← set_RHSx N j zero s; set_RHSy N j zero s
    else if decide (i = 1) then s ← set_RHSx N j zero s; set_RHSy N j one s
    else if decide (i = 2) then s ← set_RHSx N j one s; set_RHSy N j one s
    else if decide (i = 3) then s ← set_RHSx N j one s; set_RHSy N j zero s
    else Some (free_print ("This switch case should never happen." +:+ endl) s)) s.

(** The loop over the bottom boundary. *)
Definition free_bottom (N : Z) (botBoundary : list Z) (s : free_system)
  : option free_system :=
  fold_opt botBoundary (λ i s,
    lambdas ← Neighbourhood_getLambdas i;
    fold_opt (seqZ 0 N) (λ j s,
      x ← diagonal_or_weight lambdas i j;
      s ← set_LHSx N i j x s;
      y ← vec_at lambdas j;
      set_LHSy N i j (opp y) s) s) s.

(** The loop over the top boundary. *)
Definition free_top (N : Z) (topBoundary : list Z) (s : free_system)
  : option free_system :=
  fold_opt topBoundary (λ i s,
    lambdas ← Neighbourhood_getLambdas i;
    fold_opt (seqZ 0 N) (λ j s,
      x ← diagonal_or_weight lambdas i j;
      s ← set_LHSx N i j x s;
      y ← vec_at lambdas j;
      s ← set_LHSy N i j (opp y) s;
      set_RHSy N i one s) s) s.

(** The loop over the left boundary. *)
Definition free_left (N : Z) (lftBoundary : list Z) (s : free_system)
  : option free_system :=
  fold_opt lftBoundary (λ i s,
    lambdas ← Neighbourhood_getLambdas i;
    fold_opt (seqZ 0 N) (λ j s,
      x ← vec_at lambdas j;
      s ← set_LHSx N i j (opp x) s;
      y ← diagonal_or_weight lambdas i j;
      set_LHSy N i j y s) s) s.

(** The loop over the right boundary. *)
Definition free_right (N : Z) (rgtBoundary : list Z) (s : free_system)
  : option free_system :=
  fold_opt rgtBoundary (λ i s,
    let s := free_print ("Assembling row " +:+ pretty i +:+ "." +:+ endl) s in
    lambdas ← Neighbourhood_getLambdas i;
    fold_opt (seqZ 0 N) (λ j s,
      x ← vec_at lambdas j;
      s ← set_LHSx N i j (opp x) s;
      y ← diagonal_or_weight lambdas i j;
      s ← set_LHSy N i j y s;
      set_RHSx N i one s) s) s.

(** The function up to the two LU decompositions: the assembly of the
    systems for the two coordinates.  [s] holds the matrices as their
    constructors leave them.  The decompositions are done by Eigen, which is
    not among the sources. *)
Definition constructAndSolveEquationSystem_assembly (n N : Z) (corners : list Z)
    (botBoundary rgtBoundary topBoundary lftBoundary : list Z) (s : free_system)
  : option free_system :=
  s ← free_interior n N s;
  s ← free_corners n N corners s;
  s ← free_bottom N botBoundary s;
  s ← free_top N topBoundary s;
  s ← free_left N lftBoundary s;
  free_right N rgtBoundary s.

End FreeBoundary.

Arguments free_system T : clear implicits.

(** ** [gsApproxC1Spline::createLokalVertexSpace] *)

(** The diagnostic of [createLokalVertexSpace]. *)
Definition msg_vertex_space : string := "ERROR LOKAL Vertex SPACE " +:+ endl.

(** [createLokalVertexSpace]; [p_tilde] is the member of the object the
    function reads.  The result is the output and [basis_vertex_result]. *)
Definition createLokalVertexSpace (m_options : gsOptionList) (p_tilde : index_t)
    (basis_vertex : gsTensorBSplineBasis) : list string * gsTensorBSplineBasis :=
  let p_1 := TB.degree basis_vertex 0 in
  let r := discreteRegularity m_options in
  let out := info_if (bool_decide (TB.degree basis_vertex 0 ≠ TB.degree basis_vertex 1))
               msg_vertex_space in
  let basis_vertex_result := basis_vertex in
  let basis_vertex_result := TB.degreeElevate p_tilde 0 basis_vertex_result in
  let basis_vertex_result := TB.degreeElevate p_tilde 1 basis_vertex_result in
  let basis_vertex_result := TB.reduceContinuity (r - 1) basis_vertex_result in
  (out, basis_vertex_result).

(** ** Properties of derived knot vectors *)

(** [clamped kv]: both end knots carry the multiplicity [degree + 1]. *)
Definition clamped (kv : gsKnotVector) : Prop :=
  head (multiplicities kv) = Some (degree kv + 1) ∧
  last (multiplicities kv) = Some (degree kv + 1).

(** [interior_lowered delta kv kv']: [kv'] keeps the two end break points of
    [kv], has no break point that [kv] has not, and carries at every interior
    break point of [kv] the multiplicity of [kv] lowered by [delta]
    (multiplicity [0] meaning that the break point is gone). *)
Definition interior_lowered (delta : Z) (kv kv' : gsKnotVector) : Prop :=
  head (unique kv') = head (unique kv) ∧
  last (unique kv') = last (unique kv) ∧
  unique kv' ⊆ unique kv ∧
  ∀ x, x ∈ interior (unique kv) → mult_of kv' x = mult_of kv x - delta.

(** The degree law of the plus and the minus space for an input [kv] of
    degree [p] and a discrete regularity [r]. *)
Definition plus_minus_law (r p : Z) (kv kv_plus kv_minus : gsKnotVector) : Prop :=
  let delta := if decide (p - r = 1) then 0 else 1 in
  (degree kv_plus = p ∧ clamped kv_plus ∧ interior_lowered delta kv kv_plus) ∧
  (degree kv_minus = p - 1 ∧ clamped kv_minus ∧ interior_lowered delta kv kv_minus).

(** [uniform m kv]: every interior break point of [kv] has multiplicity [m]
    (the code reads the multiplicity of the first interior break point as
    "the same for all"). *)
Definition uniform (m : Z) (kv : gsKnotVector) : Prop :=
  Forall (λ m', m' = m) (interior (multiplicities kv)).

(** The law of a local edge space [kv] over the break points of [kv_plus]:
    clamped of degree [p_1], continuity [r] at every interior break point. *)
Definition local_edge_law (p_1 r : Z) (kv_plus kv : gsKnotVector) : Prop :=
  unique kv = unique kv_plus ∧ degree kv = p_1 ∧ clamped kv ∧
  Forall (λ m, degree kv - m = r) (interior (multiplicities kv)).

(** The continuity of [kv] at the break point [x]. *)
Definition continuity_at (kv : gsKnotVector) (x : real_t) : Z :=
  degree kv - mult_of kv x.

(** The rule for the local edge space of an interface as it is worded, for
    any plus, minus and gluing-data knot vectors: the degree, the same knot
    vector for both sides, and at every interior break point the minimum of
    the continuities the three inputs have there. *)
Definition edge_space_as_claimed
    (kv_plus kv_minus kv_gD kv_patch_1 kv_patch_2 : gsKnotVector) : Prop :=
  ∃ out kv1_result kv2_result,
    createLokalEdgeSpace kv_plus kv_minus kv_gD kv_gD kv_patch_1 kv_patch_2
      = Some (out, kv1_result, kv2_result) ∧
    kv1_result = kv2_result ∧
    degree kv1_result
    = Z.max (degree kv_plus + degree kv_gD - 1) (degree kv_minus + degree kv_gD) ∧
    ∀ x, x ∈ interior (unique kv_plus) →
      continuity_at kv1_result x
      = Z.min (continuity_at kv_gD x)
              (Z.min (continuity_at kv_plus x) (continuity_at kv_minus x)).

(** [plus_minus_as_if_matching]: for the sides [kv1] and [kv2] of an
    interface [createPlusMinusSpace] returns the knot spaces it returns when
    both sides carry [kv2], that is spaces built from the data of one side
    only. *)
Definition plus_minus_as_if_matching (m_options : gsOptionList)
    (kv1 kv2 kv1_patch kv2_patch : gsKnotVector) : Prop :=
  ∃ out out' kv_plus kv_minus,
    createPlusMinusSpace m_options kv1 kv2 kv1_patch kv2_patch
      = Some (out, kv_plus, kv_minus) ∧
    createPlusMinusSpace m_options kv2 kv2 kv1_patch kv2_patch
      = Some (out', kv_plus, kv_minus).

(** The same for the gluing-data space. *)
Definition gluing_data_as_if_matching (p_tilde r_tilde : Z)
    (kv1 kv2 kv1_patch kv2_patch : gsKnotVector) : Prop :=
  (createGluingDataSpace p_tilde r_tilde kv1 kv2 kv1_patch kv2_patch).2
  = (createGluingDataSpace p_tilde r_tilde kv2 kv2 kv1_patch kv2_patch).2.

(** The reading of "mismatched break points are not silently patched": on
    sides with different break points neither derivation returns a space
    built from one side as if the sides had matched. *)
Definition rejects_mismatch (m_options : gsOptionList) (p_tilde r_tilde : Z)
    (kv1 kv2 kv1_patch kv2_patch : gsKnotVector) : Prop :=
  unique kv1 ≠ unique kv2 →
  ¬ plus_minus_as_if_matching m_options kv1 kv2 kv1_patch kv2_patch ∧
  ¬ gluing_data_as_if_matching p_tilde r_tilde kv1 kv2 kv1_patch kv2_patch.

(** ** The number of rounds of the solver loop *)

(** [executes_rounds c result]: the function returns, having executed the
    body of its loop [c] times. *)
Definition executes_rounds {T mesh : Type} (c : nat)
    (result : option (solver_state T mesh)) : Prop :=
  ∃ st, result = Some st ∧ rounds st = c.

(** ** What a member function leaves alone *)

(** [frame s s']: the input geometry, the input multi-basis and the
    configuration are the same in [s'] as in [s]. *)
Record frame (s s' : gsApproxC1Spline) : Prop := mkFrame {
  frame_patches : m_patches s' = m_patches s;
  frame_multiBasis : m_multiBasis s' = m_multiBasis s;
  frame_options : m_options s' = m_options s;
  frame_p_tilde : p_tilde s' = p_tilde s;
  frame_r_tilde : r_tilde s' = r_tilde s
}.

(** [preserves m]: every run of [m] that returns leaves the frame alone. *)
Definition preserves {A : Type} (m : M A) : Prop :=
  ∀ s a s', m s = Some (a, s') → frame s s'.

(** ** The interior block of the transformation matrix *)

(** The size [dim_u] of the first component of the interior basis of a
    container, [dim_v] the size of the second. *)
Definition dim_u (c : gsC1Basis) : Z :=
  match innerBasis c with
  | Some b => BSplineBasis.size (TB.component b 0)
  | None => 0
  end.

(** The size [dim_v]. *)
Definition dim_v (c : gsC1Basis) : Z :=
  match innerBasis c with
  | Some b => BSplineBasis.size (TB.component b 1)
  | None => 0
  end.

(** The sum of a list of integers. *)
Definition sumZ (l : list Z) : Z := foldr Z.add 0 l.

(** The state [compute()] expects from [init()]: one container per patch,
    each with its interior basis. *)
Definition ready (s : gsApproxC1Spline) : Prop :=
  length (m_bases s) = length (patches (m_patches s)) ∧
  Forall (λ c, is_Some (innerBasis c)) (m_bases s).

(** The interior lattice of one patch, in row-major order with the
    [v]-index outermost: the indices [(np, i, j)] with [2 <= i < dim_u - 2]
    and [2 <= j < dim_v - 2]. *)
Definition patch_lattice (np : nat) (c : gsC1Basis) : list (nat * Z * Z) :=
  j ← seqZ 2 (dim_v c - 4); i ← seqZ 2 (dim_u c - 4); [(np, i, j)].

(** The interior lattices of all patches, one patch after the other. *)
Definition interior_indices (bases : list gsC1Basis) : list (nat * Z * Z) :=
  np ← seq 0 (length bases);
  match bases !! np with Some c => patch_lattice np c | None => [] end.

Section InteriorBlock.
Context `{Collaborators}.

(** The sum of [size_rows()] over the patches before [np]. *)
Definition shift_row (bases : list gsC1Basis) (np : nat) : Z :=
  sumZ (size_rows <$> take np bases).

(** The sum of [size_cols()] over the patches before [np]. *)
Definition shift_col (bases : list gsC1Basis) (np : nat) : Z :=
  sumZ (size_cols <$> take np bases).

(** The entry that belongs to the lattice index [(np, i, j)]. *)
Definition interior_entry (bases : list gsC1Basis) (idx : nat * Z * Z) : Z * Z * Qc :=
  let '(np, i, j) := idx in
  let du := from_option dim_u 0 (bases !! np) in
  (shift_row bases np + ((j - 2) * (du - 4) + (i - 2)),
   shift_col bases np + (j * du + i),
   1%Qc).

End InteriorBlock.

(** The operations of the interior pass. *)
Definition insert_events (es : list (Z * Z * Qc)) : list event :=
  (λ e, EvInsert e.1.1 e.1.2 e.2) <$> es.

(** The object after the insertion of the entries [es] into [m_matrix]. *)
Definition add_entries (es : list (Z * Z * Qc)) (s : gsApproxC1Spline)
  : gsApproxC1Spline :=
  mkSpline (m_patches s) (m_multiBasis s) (m_options s) (p_tilde s) (r_tilde s)
    (m_bases s)
    (mkSparse (sm_rows (m_matrix s)) (sm_cols (m_matrix s)) (sm_reserved (m_matrix s))
       (sm_entries (m_matrix s) ++ es) (sm_compressed (m_matrix s)))
    (gsInfo_out s)
    (trace s ++ insert_events es).

(** [same_core s s']: only the matrix and the record of the operations on
    it differ between [s] and [s']. *)
Record same_core (s s' : gsApproxC1Spline) : Prop := mkSameCore {
  core_frame : frame s s';
  core_bases : m_bases s' = m_bases s;
  core_out : gsInfo_out s' = gsInfo_out s
}.

(** ** Vertices *)

(** The kind of vertex the containers hold for a corner, if one was
    recorded. *)
Definition kind_at (s : gsApproxC1Spline) (c : patchCorner) : option Z :=
  b ← m_bases s !! patch c; kindOfVertex b !! m_index c.

(** The vertex basis recorded for a corner. *)
Definition vertex_basis_at (s : gsApproxC1Spline) (c : patchCorner)
  : option gsTensorBSplineBasis :=
  b ← m_bases s !! patch c; vertexBasis b !! m_index c.

(** The kind [init()] gives to the corners of a vertex group with [n]
    corners whose patches have [k] interfaces among them; [None] when no
    branch of the code applies. *)
Definition vertex_kind (n k : nat) : option Z :=
  if decide (n = 1%nat) then Some (-1)
  else if decide (1 < n)%nat then
    if decide (n = k) then Some 0
    else if decide (k < n)%nat then Some 1
    else None
  else None.

(** The kind as the classification is worded: boundary, else internal when
    the counts agree, else interface-boundary. *)
Definition claimed_vertex_kind (n k : nat) : Z :=
  if decide (n = 1%nat) then -1 else if decide (n = k) then 0 else 1.

Section VertexSpecs.
Context `{Collaborators}.

(** The number of interfaces of the temporary multi-patch of a group. *)
Definition group_interfaces (mp : gsMultiPatch) (g : list patchCorner) : nat :=
  from_option (λ temp_mp, length (computeTopology temp_mp)) 0%nat
              (sub_patches mp (patch <$> g)).

(** The classification as worded, for the object [s] before and [s'] after
    the assignment: every corner of every vertex group carries the claimed
    kind. *)
Definition vertex_kinds_as_claimed (s s' : gsApproxC1Spline) : Prop :=
  ∀ g c, g ∈ vertices (m_patches s) → c ∈ g →
    kind_at s' c = Some (claimed_vertex_kind (length g) (group_interfaces (m_patches s) g)).

End VertexSpecs.

(** By how much the two conditional calls of [reduceContinuity] lower the
    continuity of a vertex basis. *)
Definition continuity_drop (r r_tilde : Z) : Z :=
  (if decide (r = 1) then 0 else 1)
  + (if decide (r_tilde < r - 1) then r - r_tilde - 1 else 0).

(** The continuity of the vertex basis as the rule is worded: [r - 1], and
    [r - r_tilde - 1] when [r_tilde < r - 1]. *)
Definition claimed_vertex_continuity (r r_tilde : Z) : Z :=
  if decide (r_tilde < r - 1) then r - r_tilde - 1 else r - 1.

(** The vertex basis [b'] for the basis [b] of the patch, as the rule is
    worded. *)
Definition vertex_basis_as_claimed (p_tilde r_tilde r : Z)
    (b b' : gsTensorBSplineBasis) : Prop :=
  ∀ dir, dir = 0 ∨ dir = 1 →
    TB.degree b' dir = TB.degree b dir + (p_tilde - 1) ∧
    Forall (λ m, TB.degree b' dir - m = claimed_vertex_continuity r r_tilde)
           (interior (multiplicities (TB.component b' dir))).

(** The items of a vector with their positions, as a loop
    [for (size_t i = 0; i < v.size(); i++)] meets them. *)
Definition numbered {X : Type} (l : list X) : list (nat * X) :=
  zip (seq 0 (length l)) l.

Section Operations.
Context `{Collaborators}.

(** The operations on the matrix in the order the state machine of the
    assembler prescribes: the interior block, then the builders over all
    interfaces, over all boundaries and over all vertex groups, then the
    compression. *)
Definition compute_operations (s : gsApproxC1Spline) : list event :=
  insert_events (interior_entry (m_bases s) <$> interior_indices (m_bases s))
  ++ (EvSaveBasisInterface <$> seq 0 (length (interfaces (m_patches s))))
  ++ (EvSaveBasisBoundary <$> seq 0 (length (boundaries (m_patches s))))
  ++ (EvSaveBasisVertex <$> seq 0 (length (vertices (m_patches s))))
  ++ [EvMakeCompressed].

(** The matrix [compute()] leaves for the object [s]: the entries of the
    interior block added to [m_matrix], then the edge builder called for
    every interface and for every boundary and the vertex builder for every
    vertex group, each call on the matrix the call before it left, then the
    compression. *)
Definition computed_matrix (s : gsApproxC1Spline) : gsSparseMatrix :=
  let m :=
    m_matrix (add_entries (interior_entry (m_bases s) <$> interior_indices (m_bases s)) s) in
  let m :=
    foldl (λ m it, saveBasisInterface (m_patches s) (m_bases s) it.2 it.1 (m_options s) m)
          m (numbered (interfaces (m_patches s))) in
  let m :=
    foldl (λ m it, saveBasisBoundary (m_patches s) (m_bases s) it.2 it.1 (m_options s) m)
          m (numbered (boundaries (m_patches s))) in
  let m :=
    foldl (λ m it, saveBasisVertex (m_patches s) (m_bases s) (patch <$> it.2)
                     (m_index <$> it.2) it.1 (m_options s) m)
          m (numbered (vertices (m_patches s))) in
  SparseMatrix.makeCompressed m.

End Operations.

(** ** Sample data *)

(** Cubic, C1 at the break point [1/2]: knots 0,0,0,0,1/2,1/2,1,1,1,1. *)
Definition kv_cubic_C1 : gsKnotVector :=
  mkKnotVector 3 [(0%Qc, 4); (one_half, 2); (1%Qc, 4)].

(** Cubic, C2 at the break point [1/2]. *)
Definition kv_cubic_C2 : gsKnotVector :=
  mkKnotVector 3 [(0%Qc, 4); (one_half, 1); (1%Qc, 4)].

(** Cubic without interior break point, as the geometry of a patch has it. *)
Definition kv_cubic_patch : gsKnotVector :=
  mkKnotVector 3 [(0%Qc, 4); (1%Qc, 4)].

(** Quadratic, C1 at [1/2]: the minus space that goes with [kv_cubic_C2]. *)
Definition kv_quadratic_C1 : gsKnotVector :=
  mkKnotVector 2 [(0%Qc, 3); (one_half, 1); (1%Qc, 3)].

(** Cubic with two interior break points of different multiplicity: C2 at
    [1/4] and C1 at [1/2]; the minus space (quadratic, C1 at [1/4] and C0 at
    [1/2]) and the gluing-data space (cubic, C1 at both) that go with it for
    the discrete regularity [2], [p_tilde = 3] and [r_tilde = 1]. *)
Definition quarter : Qc := Q2Qc (1 # 4).
Definition kv_cubic_mixed : gsKnotVector :=
  mkKnotVector 3 [(0%Qc, 4); (quarter, 1); (one_half, 2); (1%Qc, 4)].
Definition kv_quadratic_mixed : gsKnotVector :=
  mkKnotVector 2 [(0%Qc, 3); (quarter, 1); (one_half, 2); (1%Qc, 3)].
Definition kv_gluing_mixed : gsKnotVector :=
  mkKnotVector 3 [(0%Qc, 4); (quarter, 2); (one_half, 2); (1%Qc, 4)].

(** Plus, minus and gluing-data spaces on the domain from [0] to [2], with
    the one interior break point [1]. *)
Definition two : Qc := Q2Qc 2.
Definition kv_cubic_long : gsKnotVector :=
  mkKnotVector 3 [(0%Qc, 4); (1%Qc, 1); (two, 4)].
Definition kv_quadratic_long : gsKnotVector :=
  mkKnotVector 2 [(0%Qc, 3); (1%Qc, 1); (two, 3)].
Definition kv_gluing_long : gsKnotVector :=
  mkKnotVector 3 [(0%Qc, 4); (1%Qc, 2); (two, 4)].

(** The break point [1/3]. *)
Definition third : Qc := Q2Qc (1 # 3).

(** Cubic, C1 at the break point [1/3]: a side that does not match
    [kv_cubic_C1]. *)
Definition kv_cubic_C1_third : gsKnotVector :=
  mkKnotVector 3 [(0%Qc, 4); (third, 2); (1%Qc, 4)].

(** A mesh neighbourhood with one interior point, weighted by its two
    boundary neighbours, and two boundary points. *)
Definition sample_lambdas (i : nat) : list Qc := [0%Qc; one_half; one_half].
(** The parameter points of the neighbourhood. *)
Definition sample_points : list (Point2D Qc) :=
  [mkPoint2D 0%Qc 0%Qc 1; mkPoint2D 0%Qc 0%Qc 2; mkPoint2D 1%Qc 0%Qc 3].
(** A matrix as its constructor may leave it. *)
Definition sample_matrix : gsMatrix Qc := λ _ _, 0%Qc.
(** The flat mesh of the sample. *)
Definition sample_flat_mesh (pts : list (Point2D Qc)) : list (Point2D Qc) := pts.

(** Two patches glued along one side: side 2 of patch 0 to side 1 of
    patch 1.  Both carry the bicubic C1 basis over the bisected unit square,
    the geometry being bicubic without interior knots. *)
Definition sample_basis : gsTensorBSplineBasis := mkTensorBasis kv_cubic_C1 kv_cubic_C1.
Definition sample_geometry : gsGeometry :=
  mkGeometry (mkTensorBasis kv_cubic_patch kv_cubic_patch) [].
Definition sample_interface : boundaryInterface :=
  mkInterface (mkPatchSide 0 2) (mkPatchSide 1 1).

Definition sample_patches : gsMultiPatch :=
  mkMultiPatch [sample_geometry; sample_geometry]
    [sample_interface]
    [mkPatchSide 0 1; mkPatchSide 0 3; mkPatchSide 0 4;
     mkPatchSide 1 2; mkPatchSide 1 3; mkPatchSide 1 4]
    [[mkPatchCorner 0 1]; [mkPatchCorner 0 3]; [mkPatchCorner 1 2]; [mkPatchCorner 1 4];
     [mkPatchCorner 0 2; mkPatchCorner 1 1]; [mkPatchCorner 0 4; mkPatchCorner 1 3]].

(** Collaborators for the sample: the topology of two patches is their one
    interface, a container has one row per interior coefficient and one
    column per coefficient, the builders leave the matrix as it is, and the
    subtraction is exact. *)
Definition sample_collaborators : Collaborators :=
  mkCollaborators
    (λ ps, if decide (length ps = 2%nat) then [sample_interface] else [])
    (λ c, c)
    (λ c, (dim_u c - 4) * (dim_v c - 4))
    (λ c, dim_u c * dim_v c)
    (λ _, [])
    (λ _ _ _ _ _ m, m)
    (λ _ _ _ _ _ m, m)
    (λ _ _ _ _ _ _ m, m)
    Qcminus.

(** Collaborators as those of the sample, with builders that write: each
    call adds one entry to the matrix, in the row with the number of the
    item and in column [0] for an interface, [1] for a boundary and [2] for
    a vertex group. *)
Definition marking_collaborators : Collaborators :=
  mkCollaborators
    (λ ps, if decide (length ps = 2%nat) then [sample_interface] else [])
    (λ c, c)
    (λ c, (dim_u c - 4) * (dim_v c - 4))
    (λ c, dim_u c * dim_v c)
    (λ _, [])
    (λ _ _ _ numInt _ m, SparseMatrix.insert (Z.of_nat numInt) 0 1%Qc m)
    (λ _ _ _ numBdy _ m, SparseMatrix.insert (Z.of_nat numBdy) 1 1%Qc m)
    (λ _ _ _ _ numVer _ m, SparseMatrix.insert (Z.of_nat numVer) 2 1%Qc m)
    Qcminus.

(** The object before [init()], after [init()] and after [compute()]. *)
Definition sample_spline : gsApproxC1Spline :=
  mkSpline sample_patches [sample_basis; sample_basis] (mkOptions 1 false) 3 1
    [] (mkSparse 0 0 0 [] false) [] [].

Definition sample_before_vertices : gsApproxC1Spline :=
  Eval vm_compute in
    match (init_containers;; init_inner (H := sample_collaborators);;
           init_interfaces;; init_boundaries)
            sample_spline with
    | Some (_, s) => s
    | None => sample_spline
    end.

Definition sample_after_vertices : gsApproxC1Spline :=
  Eval vm_compute in
    match init_vertices (H := sample_collaborators) sample_before_vertices with
    | Some (_, s) => s
    | None => sample_before_vertices
    end.

Definition sample_after_init : gsApproxC1Spline :=
  Eval vm_compute in
    match init (H := sample_collaborators) sample_spline with
    | Some (_, s) => s
    | None => sample_spline
    end.

Definition sample_after_compute : gsApproxC1Spline :=
  Eval vm_compute in
    match compute (H := sample_collaborators) sample_after_init with
    | Some (_, s) => s
    | None => sample_after_init
    end.

(** A closed surface of three patches: the sphere cut along three meridians,
    each lune with the corners north pole (1), two points of the equator
    (2 and 3) and south pole (4).  Two neighbouring lunes share the two
    halves of a meridian, so the three patches have six interfaces, and the
    three corners at a pole form one vertex group. *)
Definition lune_interfaces : list boundaryInterface :=
  [mkInterface (mkPatchSide 0 1) (mkPatchSide 1 3);
   mkInterface (mkPatchSide 0 4) (mkPatchSide 1 2);
   mkInterface (mkPatchSide 1 1) (mkPatchSide 2 3);
   mkInterface (mkPatchSide 1 4) (mkPatchSide 2 2);
   mkInterface (mkPatchSide 2 1) (mkPatchSide 0 3);
   mkInterface (mkPatchSide 2 4) (mkPatchSide 0 2)].

Definition north_pole : list patchCorner :=
  [mkPatchCorner 0 1; mkPatchCorner 1 1; mkPatchCorner 2 1].

Definition lune_patches : gsMultiPatch :=
  mkMultiPatch [sample_geometry; sample_geometry; sample_geometry]
    lune_interfaces
    []
    [north_pole;
     [mkPatchCorner 0 4; mkPatchCorner 1 4; mkPatchCorner 2 4];
     [mkPatchCorner 0 2; mkPatchCorner 2 3];
     [mkPatchCorner 1 2; mkPatchCorner 0 3];
     [mkPatchCorner 2 2; mkPatchCorner 1 3]].

(** Collaborators for the sphere: three patches have the six interfaces, two
    neighbouring patches the two halves of their meridian. *)
Definition lune_collaborators : Collaborators :=
  mkCollaborators
    (λ ps, if decide (length ps = 3%nat) then lune_interfaces
           else if decide (length ps = 2%nat)
                then [mkInterface (mkPatchSide 0 1) (mkPatchSide 1 3);
                      mkInterface (mkPatchSide 0 4) (mkPatchSide 1 2)]
                else [])
    (λ c, c)
    (λ c, (dim_u c - 4) * (dim_v c - 4))
    (λ c, dim_u c * dim_v c)
    (λ _, [])
    (λ _ _ _ _ _ m, m)
    (λ _ _ _ _ _ m, m)
    (λ _ _ _ _ _ _ m, m)
    Qcminus.

Definition lune_spline : gsApproxC1Spline :=
  mkSpline lune_patches [sample_basis; sample_basis; sample_basis]
    (mkOptions 1 false) 3 1 [] (mkSparse 0 0 0 [] false) [] [].

Definition lune_after_init : gsApproxC1Spline :=
  Eval vm_compute in
    match init (H := lune_collaborators) lune_spline with
    | Some (_, s) => s
    | None => lune_spline
    end.

(** ** Properties of the parametrization functions *)

(** [in_part bounds position i]: [position] lies in the part of the closed
    boundary that starts after the [i]-th bound: behind [bounds[i]] and not
    behind [bounds[i + 1]], or, for the last bound, behind it or not behind
    the first one. *)
Definition in_part (bounds : list Z) (position : Z) (i : nat) : Prop :=
  (∃ b b', bounds !! i = Some b ∧ bounds !! S i = Some b' ∧ b < position ≤ b') ∨
  (S i = length bounds ∧
   ∃ b_0 b_last, bounds !! 0%nat = Some b_0 ∧ last bounds = Some b_last ∧
     (position ≤ b_0 ∨ b_last < position)).

(** A point on the boundary of the unit square. *)
Definition on_square_boundary (p : Point2D Qc) : Prop :=
  (0 ≤ px p)%Qc ∧ (px p ≤ 1)%Qc ∧ (0 ≤ py p)%Qc ∧ (py p ≤ 1)%Qc ∧
  (px p = 0%Qc ∨ px p = 1%Qc ∨ py p = 0%Qc ∨ py p = 1%Qc).

(** Two points with the same coordinates. *)
Definition same_place (p q : Point2D Qc) : Prop := px p = px q ∧ py p = py q.


(** A vertex in the strip [0 <= x <= 1], the domain of the restricted flat
    mesh; a vertex no more than one period away from it; a face with its
    three corners in the strip. *)
Definition in_strip (v : gsVertex) : Prop := (0 ≤ vx v)%Qc ∧ (vx v ≤ 1)%Qc.
Definition near_strip (v : gsVertex) : Prop := (- (1) ≤ vx v)%Qc ∧ (vx v ≤ real 2)%Qc.
Definition face_in_strip (f : gsVertex * gsVertex * gsVertex) : Prop :=
  in_strip f.1.1 ∧ in_strip f.1.2 ∧ in_strip f.2.

(** A mesh under construction all of whose faces lie in the strip. *)
Definition faces_in_strip (st : flat) : Prop := Forall face_in_strip (m_face st.1).

(** The number of times the vertex with the position [j] in the vector of
    the weights, the vertex [j + 1], occurs among the indices. *)
Definition occurrences (indices : list Z) (j : nat) : nat :=
  length (filter (λ i, i = Z.of_nat j + 1) indices).

(** The terms the loop over the distances adds to the weight of the vertex
    [j + 1], in the order of the loop: the distance of every neighbour with
    this index, multiplied by [inv]. *)
Definition shares (mul : Qc → Qc → Qc) (inv : Qc) (indices : list Z)
    (neighbourDistances : list Qc) (j : nat) : list Qc :=
  (λ p, mul p.2 inv) <$> filter (λ p, p.1 = Z.of_nat j + 1) (zip indices neighbourDistances).

(** The name of the file the solver writes in round [k]. *)
Definition mesh_name (k : nat) : string := "mesh" +:+ pretty k.

(** [moved_to n m pts pts']: the points [pts'] are the points [pts] with the
    coordinates of the first [n] of them, the inner ones, replaced by the
    rows of [m]. *)
Definition moved_to {T : Type} (n : nat) (m : gsMatrix T) (pts pts' : list (Point2D T))
  : Prop :=
  length pts' = length pts ∧
  ∀ (i : nat) p, pts !! i = Some p →
    pts' !! i = Some (if decide (i < n)%nat
                      then mkPoint2D (m i 0%nat) (m i 1%nat) (pindex p) else p).

(** The names of the files a run of the loop of the solver from round [k]
    on leaves. *)
Definition names_from (k : nat) : list string :=
  mesh_name <$> filter (λ k, k `mod` 5 = 0)%nat (seq k (101 - k)).

(** ** Properties of [createLokalVertexSpace], [init()] and [compute()] *)

(** [keeps R m]: every run of the statement [m] that returns takes the
    object from a state to one related to it by [R]. *)
Definition keeps {A : Type} (R : relation gsApproxC1Spline) (m : M A) : Prop :=
  ∀ s a s', m s = Some (a, s') → R s s'.

(** The number of containers is the same; the containers are the same; the
    matrix and the record of the operations on it are the same. *)
Definition same_count : relation gsApproxC1Spline :=
  λ s s', length (m_bases s') = length (m_bases s).
Definition same_bases : relation gsApproxC1Spline :=
  λ s s', m_bases s' = m_bases s.
Definition same_matrix : relation gsApproxC1Spline :=
  λ s s', m_matrix s' = m_matrix s ∧ trace s' = trace s.

(** The matrix [init()] leaves for the containers [bases]: no entry, one row
    and one column for every row and column of every container, room
    reserved for seven entries in every row. *)
Definition sized_matrix `{Collaborators} (bases : list gsC1Basis) : gsSparseMatrix :=
  mkSparse (sumZ (size_rows <$> bases)) (sumZ (size_cols <$> bases))
    (7 * sumZ (size_rows <$> bases)) [] false.

(** The law of the vertex space [b'] that [createLokalVertexSpace] derives
    from the basis [b]: in both directions the degree is raised by
    [p_tilde], the break points are kept, the space is clamped and the
    multiplicity of every interior break point is raised by
    [p_tilde + r - 1], which lowers the continuity there by [r - 1]. *)
Definition local_vertex_law (p_tilde r : Z) (b b' : gsTensorBSplineBasis) : Prop :=
  ∀ dir, dir = 0 ∨ dir = 1 →
    let kv := TB.component b dir in
    let kv' := TB.component b' dir in
    degree kv' = degree kv + p_tilde ∧
    unique kv' = unique kv ∧
    clamped kv' ∧
    interior (multiplicities kv')
    = (λ m, m + p_tilde + (r - 1)) <$> interior (multiplicities kv) ∧
    Forall2 (λ m m', degree kv' - m' = degree kv - m - (r - 1))
      (interior (multiplicities kv)) (interior (multiplicities kv')).

(** [holds_at p Q s]: the object holds a container for the patch [p], and
    [Q] holds of it. *)
Definition holds_at (p : nat) (Q : gsC1Basis → Prop) (s : gsApproxC1Spline) : Prop :=
  ∃ c, m_bases s !! p = Some c ∧ Q c.

(** [kept_at p Q]: the relation between a state and a later one that [Q], if
    it holds of the container of the patch [p], still does. *)
Definition kept_at (p : nat) (Q : gsC1Basis → Prop) : relation gsApproxC1Spline :=
  λ s s', holds_at p Q s → holds_at p Q s'.

(** [ensures P m]: every run of the statement [m] that returns ends in a
    state with [P]. *)
Definition ensures {A : Type} (P : gsApproxC1Spline → Prop) (m : M A) : Prop :=
  ∀ s a s', m s = Some (a, s') → P s'.

(** The spaces the containers hold for a side of a patch: the plus space,
    the minus space and the space of the gluing data. *)
Definition side_spaces (s : gsApproxC1Spline) (ps : patchSide)
  : option (gsKnotVector * gsKnotVector * gsKnotVector) :=
  c ← m_bases s !! side_patch ps;
  kv_plus ← basisPlus c !! side_index ps;
  kv_minus ← basisMinus c !! side_index ps;
  kv_gluingData ← basisGluingData c !! side_index ps;
  Some (kv_plus, kv_minus, kv_gluingData).

(** ** Sample data for the parametrization functions *)




(** The boundary of a mesh as the list of its vertex indices. *)
Definition sample_boundary : list Z := [10; 11; 12; 13; 14; 15].

(** A stitch through the vertices 1, 2, 3, 4, 5 and the vertex 3 on it, with
    its neighbours in the order of the chain round it. *)
Definition sample_stitch : list Z := [1; 2; 3; 4; 5].
(** The vertex 3 of the stitch. *)
Definition sample_stitch_vertex : LocalNeighbourhood :=
  mkLocalNeighbourhood 3 [9; 2; 6; 4; 7; 8] 6 [] [].

(** An unfolded mesh of three triangles: one in the strip, one that crosses
    its left border with one corner and one that lies to the right of it. *)
Definition sample_unfolded : list (gsVertex * gsVertex * gsVertex) :=
  [ (mkVertex 0%Qc 0%Qc 0%Qc, mkVertex one_half 0%Qc 0%Qc, mkVertex one_half 1%Qc 0%Qc);
    (mkVertex one_half 0%Qc 0%Qc, mkVertex (- one_half)%Qc one_half 0%Qc,
     mkVertex 0%Qc 1%Qc 0%Qc);
    (mkVertex (real 2) 0%Qc 0%Qc, mkVertex (1 + one_half)%Qc 0%Qc 0%Qc,
     mkVertex (real 2) 1%Qc 0%Qc) ].

(** The inner vertex 1 of a mesh with six vertices, with the neighbours 2, 4,
    5 and 6 at the distances 1, 2, 1 and 1/2. *)
Definition sample_inner_vertex : LocalNeighbourhood :=
  mkLocalNeighbourhood 1 [2; 4; 5; 6] 4 [one_half; one_half; 1%Qc; 1%Qc]
    [1%Qc; real 2; 1%Qc; one_half].

(** The local parametrizations of a mesh with four inner vertices among six
    vertices: the weights of each inner vertex for all vertices. *)
Definition sample_weights : list (list Qc) :=
  replicate 4 [0%Qc; 0%Qc; 0%Qc; 0%Qc; one_half; one_half].

(** The matrices of the system as their constructors may leave them, with
    no output. *)
Definition sample_free_system : free_system Qc :=
  mkFreeSystem sample_matrix sample_matrix sample_matrix sample_matrix [].

(** The sample object of two patches before and after the round of the loop
    of [init()] over the interfaces for its one interface. *)
Definition sample_before_interface : gsApproxC1Spline :=
  Eval vm_compute in
    match (init_containers;; init_inner (H := sample_collaborators)) sample_spline with
    | Some (_, s) => s
    | None => sample_spline
    end.

Definition sample_after_interface : gsApproxC1Spline :=
  Eval vm_compute in
    match init_interface sample_interface sample_before_interface with
    | Some (_, s) => s
    | None => sample_before_interface
    end.
(** ** Facts about sequences and knot vectors *)

Section ListFacts.
Context {A : Type}.
Implicit Types (l mid : list A) (x y : A).

Lemma split_ends l :
  (2 ≤ length l)%nat → ∃ x mid y, l = x :: mid ++ [y].
Proof.
  destruct l as [|x l]; simpl; [lia|]. intros Hlen.
  destruct (decide (l = [])) as [->|Hne]; [simpl in Hlen; lia|].
  destruct (exists_last Hne) as (mid & y & ->). by exists x, mid, y.
Qed.

Lemma interior_ends x mid y : interior (x :: mid ++ [y]) = mid.
Proof. unfold interior. simpl. apply removelast_last. Qed.

Lemma on_last_snoc (f : A → A) l y : on_last f (l ++ [y]) = l ++ [f y].
Proof.
  induction l as [|a l IH]; [done|]. simpl. rewrite IH.
  by destruct l.
Qed.

Lemma on_init_snoc (f : A → list A) mid y :
  on_init f (mid ++ [y]) = (mid ≫= f) ++ [y].
Proof.
  induction mid as [|a mid IH]; [done|].
  change ((a :: mid) ++ [y]) with (a :: (mid ++ [y])).
  change (on_init f (a :: mid ++ [y]))
    with (match mid ++ [y] with [] => [a] | _ => f a ++ on_init f (mid ++ [y]) end).
  destruct (mid ++ [y]) eqn:E; [by destruct mid|].
  rewrite IH. simpl. by rewrite <-(assoc_L (++)).
Qed.

Lemma on_interior_ends (f : A → list A) x mid y :
  on_interior f (x :: mid ++ [y]) = x :: (mid ≫= f) ++ [y].
Proof. simpl. by rewrite on_init_snoc. Qed.

Lemma last_ends x mid y : last (x :: mid ++ [y]) = Some y.
Proof. by rewrite app_comm_cons, last_snoc. Qed.
End ListFacts.

Lemma remove_last_snoc i ks km :
  remove_last i (ks ++ [km]) =
  ks ++ (if decide (km.2 ≤ i) then [] else [add_mult (- i) km]).
Proof.
  induction ks as [|a ks IH]; [done|].
  change ((a :: ks) ++ [km]) with (a :: (ks ++ [km])).
  change (remove_last i (a :: ks ++ [km]))
    with (match ks ++ [km] with
          | [] => if decide (a.2 ≤ i) then [] else [add_mult (- i) a]
          | _ => a :: remove_last i (ks ++ [km]) end).
  destruct (ks ++ [km]) eqn:E; [by destruct ks|]. by rewrite IH.
Qed.

Lemma sorted_NoDup (l : list real_t) : StronglySorted Qclt l → NoDup l.
Proof.
  induction 1 as [|x l _ IH Hall]; constructor; [|done].
  intros Hin. rewrite Forall_forall in Hall.
  apply (irreflexivity Qclt x), Hall, Hin.
Qed.

(** The shape of a valid knot vector. *)
Lemma valid_shape kv :
  valid kv →
  ∃ x0 mid x1,
    m_knots kv = (x0, m_deg kv + 1) :: mid ++ [(x1, m_deg kv + 1)] ∧
    NoDup (x0 :: mid.*1 ++ [x1]) ∧ Forall (λ km, 1 ≤ km.2) mid ∧ 0 ≤ m_deg kv.
Proof.
  intros [Htwo Hsorted Hmult Hfirst Hlast].
  destruct (split_ends _ Htwo) as ([x0 m0] & mid & [x1 m1] & Hk).
  unfold multiplicities, unique in *. rewrite Hk in *. clear Htwo.
  rewrite fmap_cons, fmap_app in Hsorted. rewrite fmap_cons, fmap_app in Hmult.
  rewrite fmap_cons, fmap_app in Hfirst. rewrite fmap_cons, fmap_app in Hlast.
  cbn [fmap list_fmap fst snd head] in Hsorted, Hmult, Hfirst, Hlast.
  rewrite last_ends in Hlast. simplify_eq.
  exists x0, mid, x1. split_and!; [done|by apply sorted_NoDup| |].
  - apply Forall_cons in Hmult as [_ Hmult].
    apply Forall_app in Hmult as [Hmult _].
    rewrite Forall_forall in Hmult. apply Forall_forall. intros km Hkm.
    apply Hmult, list_elem_of_fmap. by exists km.
  - apply Forall_cons in Hmult as [? _]. lia.
Qed.

Section MultiplicityFacts.
Implicit Types (ks mid : list (real_t * Z)) (x : real_t) (a b : real_t * Z).

Lemma mult_in_notin ks x : x ∉ ks.*1 → mult_in ks x = 0.
Proof.
  induction ks as [|km ks IH]; [done|]. rewrite fmap_cons, not_elem_of_cons.
  intros [Hne Hnin]. simpl. case_decide; [congruence|auto].
Qed.

Lemma mult_in_pos ks x :
  Forall (λ km, 1 ≤ km.2) ks → x ∈ ks.*1 → 1 ≤ mult_in ks x.
Proof.
  induction 1 as [|km ks Hkm _ IH]; [by intros ?%elem_of_nil|].
  rewrite fmap_cons, elem_of_cons. simpl. case_decide; [done|].
  intros [?|?]; [congruence|auto].
Qed.

Lemma mult_in_snoc mid b x : x ≠ b.1 → mult_in (mid ++ [b]) x = mult_in mid x.
Proof.
  intros Hb. induction mid as [|km mid IH]; simpl.
  - case_decide; congruence.
  - by rewrite IH.
Qed.

Lemma mult_in_ends a mid b x :
  x ≠ a.1 → x ≠ b.1 → mult_in (a :: mid ++ [b]) x = mult_in mid x.
Proof.
  intros Ha Hb. simpl. case_decide; [congruence|]. by apply mult_in_snoc.
Qed.

Lemma lower_knots i mid : (mid ≫= lower i).*1 ⊆ mid.*1.
Proof.
  induction mid as [|km mid IH]; [done|]. rewrite bind_cons, fmap_app, fmap_cons.
  unfold lower at 1. intros x. rewrite elem_of_app, elem_of_cons.
  case_decide; simpl.
  - rewrite list_elem_of_singleton. intros [->|?]; [by left|right; by apply IH].
  - intros [?%elem_of_nil|?]; [done|right; by apply IH].
Qed.

Lemma mult_in_lower mid x :
  NoDup mid.*1 → Forall (λ km, 1 ≤ km.2) mid →
  mult_in (mid ≫= lower 1) x = Z.max 0 (mult_in mid x - 1).
Proof.
  induction mid as [|km mid IH]; [done|].
  rewrite fmap_cons, NoDup_cons, Forall_cons. intros [Hnin Hnd] [Hkm Hall].
  rewrite bind_cons. unfold lower at 1. simpl.
  destruct (decide (km.1 = x)) as [<-|Hne].
  - case_decide; simpl.
    + rewrite decide_True by done. lia.
    + rewrite mult_in_notin; [lia|]. intros Hin. by apply Hnin, (lower_knots 1).
  - case_decide; simpl; [rewrite decide_False by done|]; by apply IH.
Qed.
End MultiplicityFacts.

Lemma reduceMultiplicity_shape i kv a mid b :
  m_knots kv = a :: mid ++ [b] →
  m_knots (reduceMultiplicity i kv) = a :: (mid ≫= lower i) ++ [b].
Proof. intros Hk. unfold reduceMultiplicity. simpl. rewrite Hk. apply on_interior_ends. Qed.

Lemma increaseMultiplicity_shape i kv a mid b :
  m_knots kv = a :: mid ++ [b] →
  m_knots (increaseMultiplicity i kv) = a :: (add_mult i <$> mid) ++ [b].
Proof.
  intros Hk. unfold increaseMultiplicity. simpl. rewrite Hk, on_interior_ends.
  replace (mid ≫= λ km, [add_mult i km]) with (add_mult i <$> mid); [done|].
  clear Hk. induction mid as [|km mid IH]; [done|].
  rewrite bind_cons, <-IH. reflexivity.
Qed.

Lemma degreeDecrease_shape kv x0 mid x1 d :
  1 ≤ d → m_knots kv = (x0, d + 1) :: mid ++ [(x1, d + 1)] →
  m_knots (degreeDecrease 1 kv) = (x0, d) :: mid ++ [(x1, d)].
Proof.
  intros Hd Hk. unfold degreeDecrease. simpl. rewrite Hk. simpl.
  rewrite decide_False by lia. rewrite app_comm_cons, remove_last_snoc. simpl.
  rewrite decide_False by lia. unfold add_mult. simpl.
  by replace (d + 1 + - (1)) with d by lia.
Qed.

Lemma degreeIncrease_shape i kv a mid b :
  m_knots kv = a :: mid ++ [b] →
  m_knots (degreeIncrease i kv) = add_mult i a :: mid ++ [add_mult i b].
Proof.
  intros Hk. unfold degreeIncrease. cbn [m_knots]. rewrite Hk. cbn [on_first].
  by rewrite app_comm_cons, on_last_snoc.
Qed.

(** ** Running statements *)

Lemma bind_inv {A B : Type} (m : M A) (f : A → M B) s b s2 :
  (m ≫= f) s = Some (b, s2) → ∃ a s1, m s = Some (a, s1) ∧ f a s1 = Some (b, s2).
Proof.
  unfold mbind, M_bind. destruct (m s) as [[a s1]|]; [|done]. eauto.
Qed.

Lemma bind_run {A B : Type} (m : M A) (f : A → M B) s a s1 :
  m s = Some (a, s1) → (m ≫= f) s = f a s1.
Proof. unfold mbind, M_bind. by intros ->. Qed.

Lemma get_run s : get s = Some (s, s).
Proof. reflexivity. Qed.

Lemma lift_run {A : Type} (o : option A) a s : o = Some a → lift o s = Some (a, s).
Proof. by intros ->. Qed.

(** [run_bind tac]: run the first statement of a sequence, [tac] proving
    what it returns. *)
Ltac run_bind tac := erewrite bind_run by tac; cbv beta.

Lemma lift_inv {A : Type} (o : option A) s a s1 :
  lift o s = Some (a, s1) → o = Some a ∧ s1 = s.
Proof. unfold lift. destruct o; naive_solver. Qed.

Lemma update_basis_inv np f s u s1 :
  update_basis np f s = Some (u, s1) →
  ∃ c, m_bases s !! np = Some c ∧ s1 = set_bases (<[np := f c]> (m_bases s)) s.
Proof. unfold update_basis. destruct (m_bases s !! np); naive_solver. Qed.

Lemma for_each_inv {A : Type} (I : gsApproxC1Spline → Prop) (l : list A)
    (body : A → M unit) s s1 :
  (∀ x s s1, x ∈ l → I s → body x s = Some (tt, s1) → I s1) →
  I s → for_each l body s = Some (tt, s1) → I s1.
Proof.
  revert s. induction l as [|x l IH]; intros s Hbody Hs; simpl.
  - by intros [= <-].
  - intros (u & s2 & Hx & Hl)%bind_inv. destruct u.
    eapply (IH s2); [|by eapply Hbody; [left|..]|done].
    intros y. intros; eapply Hbody; [by right|done..].
Qed.

(** ** The frame of the statements *)

Lemma frame_refl s : frame s s.
Proof. by constructor. Qed.

Lemma frame_trans s1 s2 s3 : frame s1 s2 → frame s2 s3 → frame s1 s3.
Proof. intros [] []. constructor; congruence. Qed.

Lemma preserves_ret {A : Type} (a : A) : preserves (mret a).
Proof. intros s a' s1 [= <- <-]. apply frame_refl. Qed.

Section Preserves.
Context {A B : Type}.

Lemma preserves_bind (m : M A) (f : A → M B) :
  preserves m → (∀ a, preserves (f a)) → preserves (m ≫= f).
Proof.
  intros Hm Hf s b s2 (a & s1 & H1 & H2)%bind_inv.
  eapply frame_trans; [by eapply Hm|by eapply Hf].
Qed.

Lemma preserves_lift (o : option A) : preserves (lift o).
Proof. intros s a s1 [_ ->]%lift_inv. apply frame_refl. Qed.

Lemma preserves_for_each (l : list A) (body : A → M unit) :
  (∀ x, preserves (body x)) → preserves (for_each l body).
Proof.
  intros Hbody s [] s1 Hrun.
  eapply (for_each_inv (frame s)); [|apply frame_refl|done].
  intros x s2 s3 _ Hs2 Hx. eapply frame_trans; [done|by eapply Hbody].
Qed.

Lemma preserves_for_acc (l : list A) (body : A → B → M B) (acc : B) :
  (∀ x acc, preserves (body x acc)) → preserves (for_acc l body acc).
Proof.
  intros Hbody. revert acc. induction l as [|x l IH]; intros acc; simpl.
  - apply preserves_ret.
  - intros s b s2 (acc1 & s1 & H1 & H2)%bind_inv.
    eapply frame_trans; [by eapply Hbody|by eapply IH].
Qed.
End Preserves.

Lemma preserves_get : preserves get.
Proof. intros s a s1 [= <- <-]. apply frame_refl. Qed.

Lemma preserves_push_back_basis c : preserves (push_back_basis c).
Proof. intros s a s1 [= <- <-]. by constructor. Qed.

Lemma preserves_update_basis np f : preserves (update_basis np f).
Proof. intros s a s1 (c & _ & ->)%update_basis_inv. by constructor. Qed.

Lemma preserves_update_matrix f : preserves (update_matrix f).
Proof. intros s a s1 [= <- <-]. by constructor. Qed.

Lemma preserves_gsInfo out : preserves (gsInfo out).
Proof. intros s a s1 [= <- <-]. by constructor. Qed.

Lemma preserves_record_event e : preserves (record_event e).
Proof. intros s a s1 [= <- <-]. by constructor. Qed.

Lemma preserves_when b (body : M unit) : preserves body → preserves (when b body).
Proof. destruct b; [done|]. intros _. apply (preserves_ret tt). Qed.

Ltac preserves_step :=
  first
    [ apply preserves_ret
    | apply preserves_get
    | apply preserves_lift
    | apply preserves_push_back_basis
    | apply preserves_update_basis
    | apply preserves_update_matrix
    | apply preserves_gsInfo
    | apply preserves_record_event
    | apply preserves_when
    | apply preserves_for_each; intros ?
    | apply preserves_for_acc; intros ? ?
    | apply preserves_bind; [|intros ?]
    | match goal with
      | |- preserves (match ?x with _ => _ end) => destruct x
      end ].

Ltac preserves_tac := repeat preserves_step.

Section FrameOfInit.
Context `{Collaborators}.

Lemma preserves_init_interface item : preserves (init_interface item).
Proof. unfold init_interface. preserves_tac. Qed.

Lemma preserves_init_boundary bit : preserves (init_boundary bit).
Proof. unfold init_boundary. preserves_tac. Qed.

Lemma preserves_init_shared_corner kind patch_1 vertex_1 :
  preserves (init_shared_corner kind patch_1 vertex_1).
Proof. unfold init_shared_corner. preserves_tac. Qed.

Lemma preserves_init_vertex allcornerLists : preserves (init_vertex allcornerLists).
Proof.
  unfold init_vertex.
  repeat first [ apply preserves_init_shared_corner | preserves_step ].
Qed.

Lemma preserves_init : preserves init.
Proof.
  unfold init, init_containers, init_inner, init_interfaces, init_boundaries,
    init_vertices, init_matrix, for_range.
  repeat first [ apply preserves_init_interface | apply preserves_init_boundary
               | apply preserves_init_vertex | preserves_step ].
Qed.

Lemma preserves_compute : preserves compute.
Proof.
  unfold compute, compute_inner, compute_inner_patch, compute_interfaces,
    compute_boundaries, compute_vertices, compute_info, matrix_insert, for_range.
  preserves_tac.
Qed.
End FrameOfInit.

(** ** The plus and the minus space *)

Lemma fmap_fst_snd_eq {A B : Type} (l1 l2 : list (A * B)) :
  l1.*1 = l2.*1 → l1.*2 = l2.*2 → l1 = l2.
Proof.
  revert l2. induction l1 as [|[a b] l1 IH]; intros [|[a' b'] l2]; try done.
  rewrite !fmap_cons. simpl. intros [= -> H1] [= -> H2]. f_equal. by apply IH.
Qed.

Lemma valid_eq kv1 kv2 :
  valid kv1 → valid kv2 → degree kv1 = degree kv2 →
  unique kv1 = unique kv2 →
  interior (multiplicities kv1) = interior (multiplicities kv2) → kv1 = kv2.
Proof.
  intros (x0 & mid & x1 & Hk1 & _)%valid_shape (y0 & mid' & y1 & Hk2 & _)%valid_shape.
  unfold degree, unique, multiplicities. intros Hdeg. rewrite Hk1, Hk2, Hdeg.
  rewrite !fmap_cons, !fmap_app. cbn [fmap list_fmap fst snd].
  rewrite !interior_ends. intros [= -> Hu] Hm. apply app_inj_tail in Hu as [Hu ->].
  destruct kv1, kv2; simpl in *. subst. f_equal.
  by rewrite (fmap_fst_snd_eq _ _ Hu Hm).
Qed.

Lemma interior_lowered_intro delta kv kv' x0 m0 m0' mid mid' x1 m1 m1' :
  m_knots kv = (x0, m0) :: mid ++ [(x1, m1)] →
  m_knots kv' = (x0, m0') :: mid' ++ [(x1, m1')] →
  NoDup (x0 :: mid.*1 ++ [x1]) →
  mid'.*1 ⊆ mid.*1 →
  (∀ x, x ∈ mid.*1 → mult_in mid' x = mult_in mid x - delta) →
  interior_lowered delta kv kv'.
Proof.
  intros Hk Hk' Hnd Hsub Hmult. unfold interior_lowered, unique, mult_of.
  rewrite Hk, Hk', !fmap_cons, !fmap_app. cbn [fmap list_fmap fst snd head].
  rewrite !last_ends, interior_ends.
  split_and!; [done..| |].
  - intros x [->|[?|?]%elem_of_app]%elem_of_cons; [by left|right..].
    + apply elem_of_app. left. by apply Hsub.
    + apply elem_of_app. by right.
  - intros x Hx. apply NoDup_cons in Hnd as [Hx0 Hnd].
    apply NoDup_app in Hnd as (_ & Hx1 & _).
    assert (x ≠ x0) by (intros ->; apply Hx0, elem_of_app; by left).
    assert (x ≠ x1) by (intros ->; apply (Hx1 x1 Hx), list_elem_of_singleton; done).
    rewrite !mult_in_ends by done. by apply Hmult.
Qed.

Lemma interior_lowered_keep kv kv' x0 m0 m0' mid x1 m1 m1' :
  m_knots kv = (x0, m0) :: mid ++ [(x1, m1)] →
  m_knots kv' = (x0, m0') :: mid ++ [(x1, m1')] →
  NoDup (x0 :: mid.*1 ++ [x1]) →
  interior_lowered 0 kv kv'.
Proof.
  intros Hk Hk' Hnd. eapply interior_lowered_intro; [done..| |]; [done|].
  intros; lia.
Qed.

Lemma interior_lowered_reduce kv kv' x0 m0 m0' mid x1 m1 m1' :
  m_knots kv = (x0, m0) :: mid ++ [(x1, m1)] →
  m_knots kv' = (x0, m0') :: mid ++ [(x1, m1')] →
  NoDup (x0 :: mid.*1 ++ [x1]) →
  Forall (λ km, 1 ≤ km.2) mid →
  interior_lowered 1 kv (reduceMultiplicity 1 kv').
Proof.
  intros Hk Hk' Hnd Hall.
  eapply interior_lowered_intro;
    [done|by apply reduceMultiplicity_shape|done|apply lower_knots|].
  apply NoDup_cons in Hnd as [_ [Hnd _]%NoDup_app].
  intros x Hx. rewrite mult_in_lower by done.
  pose proof (mult_in_pos _ _ Hall Hx). lia.
Qed.

Lemma clamped_intro kv x0 mid x1 :
  m_knots kv = (x0, m_deg kv + 1) :: mid ++ [(x1, m_deg kv + 1)] → clamped kv.
Proof.
  intros Hk. unfold clamped, multiplicities, degree.
  rewrite Hk, fmap_cons, fmap_app. cbn [fmap list_fmap fst snd head].
  by rewrite last_ends.
Qed.

(** The law for one input knot vector: [degreeDecrease] and the conditional
    [reduceMultiplicity] as both variants of [createPlusMinusSpace] apply
    them. *)
Lemma plus_minus_law_holds r kv :
  valid kv → 1 ≤ degree kv →
  plus_minus_law r (degree kv) kv
    (cond_do (bool_decide (degree kv - r ≠ 1)) (reduceMultiplicity 1) kv)
    (cond_do (bool_decide (degree kv - r ≠ 1)) (reduceMultiplicity 1)
             (degreeDecrease 1 kv)).
Proof.
  intros (x0 & mid & x1 & Hk & Hnd & Hall & _)%valid_shape Hp.
  unfold degree in *.
  pose proof (degreeDecrease_shape kv x0 mid x1 (m_deg kv) Hp Hk) as Hk'.
  unfold plus_minus_law. destruct (decide (m_deg kv - r = 1)) as [Heq|Hne].
  - rewrite bool_decide_eq_false_2 by tauto. simpl. split_and!.
    + done.
    + by eapply clamped_intro.
    + by eapply interior_lowered_keep.
    + done.
    + eapply clamped_intro with (x0 := x0) (x1 := x1). rewrite Hk'.
      change (m_deg (degreeDecrease 1 kv)) with (m_deg kv - 1).
      by replace (m_deg kv - 1 + 1) with (m_deg kv) by lia.
    + by eapply interior_lowered_keep.
  - rewrite bool_decide_eq_true_2 by done. simpl. split_and!.
    + done.
    + eapply clamped_intro. by apply reduceMultiplicity_shape.
    + by eapply interior_lowered_reduce.
    + done.
    + eapply clamped_intro with (x0 := x0) (x1 := x1).
      erewrite reduceMultiplicity_shape by done.
      change (m_deg (reduceMultiplicity 1 (degreeDecrease 1 kv))) with (m_deg kv - 1).
      by replace (m_deg kv - 1 + 1) with (m_deg kv) by lia.
    + by eapply interior_lowered_reduce.
Qed.

(** C1: for two interface knot vectors of equal degree [p] with the same
    break points and interior multiplicities, [createPlusMinusSpace] returns
    a plus space of degree [p] and a minus space of degree [p - 1], both with
    the interior multiplicities of the input lowered by exactly 1 when
    [p - r ≠ 1] and unchanged when [p - r = 1]; the variant for a boundary
    obeys the same law for its single input. *)
Theorem createPlusMinusSpace_degree_law
    (m_options : gsOptionList) (kv1 kv2 kv1_patch kv2_patch : gsKnotVector) (p : Z) :
  valid kv1 → valid kv2 →
  degree kv1 = p → degree kv2 = p → 1 ≤ p →
  unique kv1 = unique kv2 →
  interior (multiplicities kv1) = interior (multiplicities kv2) →
  (2 ≤ length (unique kv1_patch))%nat →
  let r := discreteRegularity m_options in
  (∃ out kv_plus kv_minus,
     createPlusMinusSpace m_options kv1 kv2 kv1_patch kv2_patch
       = Some (out, kv_plus, kv_minus) ∧
     plus_minus_law r p kv1 kv_plus kv_minus ∧
     plus_minus_law r p kv2 kv_plus kv_minus) ∧
  (∃ kv_plus kv_minus,
     createPlusMinusSpace_1 m_options kv1 kv1_patch = (kv_plus, kv_minus) ∧
     plus_minus_law r p kv1 kv_plus kv_minus).
Proof.
  intros Hv1 Hv2 Hp1 Hp2 Hp Hu Hm Hpatch r.
  assert (kv1 = kv2) as <- by (apply valid_eq; congruence).
  pose proof (plus_minus_law_holds r kv1 Hv1) as Hlaw.
  rewrite Hp1 in Hlaw. specialize (Hlaw Hp). split.
  - unfold createPlusMinusSpace.
    destruct (unique kv1_patch !! 1%nat) as [u1|] eqn:Hu1.
    + simpl. rewrite Z.max_id, Hp1. eauto 10.
    + apply lookup_ge_None in Hu1. exfalso. lia.
  - unfold createPlusMinusSpace_1. rewrite Hp1, Z.max_l by lia. eauto.
Qed.

Ltac solve_valid :=
  constructor;
  [ cbn; lia
  | cbn; repeat first [ reflexivity | constructor ]
  | cbn; repeat first [ lia | constructor ]
  | reflexivity
  | reflexivity ].

Lemma valid_kv_cubic_C1 : valid kv_cubic_C1.
Proof. solve_valid. Qed.

Lemma valid_kv_cubic_C2 : valid kv_cubic_C2.
Proof. solve_valid. Qed.

Lemma createPlusMinusSpace_degree_law_witness :
  (∃ out kv_plus kv_minus,
     createPlusMinusSpace (mkOptions 1 false)
       kv_cubic_C1 kv_cubic_C1 kv_cubic_patch kv_cubic_patch
       = Some (out, kv_plus, kv_minus) ∧
     plus_minus_law 1 3 kv_cubic_C1 kv_plus kv_minus ∧
     plus_minus_law 1 3 kv_cubic_C1 kv_plus kv_minus) ∧
  (∃ kv_plus kv_minus,
     createPlusMinusSpace_1 (mkOptions 1 false) kv_cubic_C1 kv_cubic_patch
       = (kv_plus, kv_minus) ∧
     plus_minus_law 1 3 kv_cubic_C1 kv_plus kv_minus).
Proof.
  apply (createPlusMinusSpace_degree_law (mkOptions 1 false)
           kv_cubic_C1 kv_cubic_C1 kv_cubic_patch kv_cubic_patch 3);
    [ apply valid_kv_cubic_C1 | apply valid_kv_cubic_C1
    | reflexivity | reflexivity | lia | reflexivity | reflexivity
    | simpl; lia ].
Defined.

(** ** Spaces built from break points: gluing data and local edge space *)

Lemma compress_sorted (us : list Qc) :
  StronglySorted Qclt us → compress us = (λ x, (x, 1)) <$> us.
Proof.
  induction 1 as [|x us Hs IH Hall]; [done|]. simpl. rewrite IH.
  destruct us as [|y us]; [done|]. simpl.
  rewrite decide_False; [done|]. intros ->.
  apply Forall_cons in Hall as [Hlt _]. by apply (irreflexivity Qclt y).
Qed.

(** The knot vector over the break points [us] with clamped ends of degree
    [p] and every interior multiplicity raised by [i]. *)
Lemma derived_space_shape (x0 : Qc) (midu : list Qc) (x1 : Qc) (p i : Z) :
  StronglySorted Qclt (x0 :: midu ++ [x1]) →
  let kv := degreeIncrease p (from_knots (x0 :: midu ++ [x1])) in
  m_deg kv = p ∧
  m_knots kv = (x0, 1 + p) :: ((λ x, (x, 1)) <$> midu) ++ [(x1, 1 + p)] ∧
  m_deg (increaseMultiplicity i kv) = p ∧
  m_knots (increaseMultiplicity i kv)
    = (x0, 1 + p) :: ((λ x, (x, 1 + i)) <$> midu) ++ [(x1, 1 + p)].
Proof.
  intros Hs kv.
  assert (Hc : m_knots (from_knots (x0 :: midu ++ [x1]))
               = (x0, 1) :: ((λ x, (x, 1)) <$> midu) ++ [(x1, 1)]).
  { unfold from_knots. cbn [m_knots]. rewrite compress_sorted by done.
    by rewrite fmap_cons, fmap_app. }
  assert (Hd : m_deg (from_knots (x0 :: midu ++ [x1])) = 0).
  { unfold from_knots in *. cbn [m_deg m_knots] in *. rewrite Hc.
    unfold deduceDegree. rewrite fmap_cons, fmap_app. cbn [fmap list_fmap snd].
    by rewrite last_ends. }
  assert (Hk : m_knots kv
               = (x0, 1 + p) :: ((λ x, (x, 1)) <$> midu) ++ [(x1, 1 + p)]).
  { unfold kv. by erewrite degreeIncrease_shape by done. }
  assert (Hp : m_deg kv = p).
  { unfold kv, degreeIncrease. cbn [m_deg]. rewrite Hd. lia. }
  split_and!; [done..|].
  erewrite increaseMultiplicity_shape by done. do 2 f_equal.
  rewrite <-list_fmap_compose. by apply list_fmap_ext.
Qed.

Lemma unique_ends (ks : list (Qc * Z)) x0 m0 midu (f : Qc → Z) x1 m1 :
  ks = (x0, m0) :: ((λ x, (x, f x)) <$> midu) ++ [(x1, m1)] →
  ks.*1 = x0 :: midu ++ [x1] ∧ interior ks.*2 = f <$> midu.
Proof.
  intros ->. rewrite !fmap_cons, !fmap_app. cbn [fmap list_fmap fst snd].
  rewrite interior_ends, <-!list_fmap_compose. split; [|done].
  do 2 f_equal. rewrite <-(list_fmap_id midu) at 2. by apply list_fmap_ext.
Qed.

(** C4: for an interface whose sides share their break points,
    [createGluingDataSpace] returns, without diagnostic, a clamped knot
    vector over exactly these break points, of degree [p_tilde], whose
    interior multiplicities are [p_tilde - r_tilde], that is continuity
    [r_tilde = p_tilde - 2]. *)
Theorem createGluingDataSpace_space
    (p_tilde r_tilde : Z) (kv1 kv2 kv1_patch kv2_patch : gsKnotVector) :
  valid kv2 → unique kv1 = unique kv2 → r_tilde = p_tilde - 2 →
  ∃ kv_result,
    createGluingDataSpace p_tilde r_tilde kv1 kv2 kv1_patch kv2_patch
      = ([], kv_result) ∧
    unique kv_result = unique kv1 ∧ unique kv_result = unique kv2 ∧
    degree kv_result = p_tilde ∧ clamped kv_result ∧
    Forall (λ m, m = p_tilde - r_tilde ∧ degree kv_result - m = p_tilde - 2)
           (interior (multiplicities kv_result)).
Proof.
  intros Hv Hu Hr. pose proof (valid_sorted _ Hv) as Hs.
  destruct (valid_shape _ Hv) as (x0 & mid & x1 & Hk & _).
  unfold createGluingDataSpace. rewrite Hu.
  rewrite bool_decide_eq_false_2 by tauto. cbn [info_if].
  eexists. split; [reflexivity|].
  assert (Hus : unique kv2 = x0 :: mid.*1 ++ [x1]).
  { unfold unique. rewrite Hk, fmap_cons, fmap_app. done. }
  rewrite Hus in Hs |- *.
  destruct (derived_space_shape x0 mid.*1 x1 p_tilde (p_tilde - r_tilde - 1) Hs)
    as (_ & _ & Hdeg & Hknots).
  destruct (unique_ends _ _ _ _ (λ _, 1 + (p_tilde - r_tilde - 1)) _ _ Hknots)
    as [Hu' Hm'].
  unfold unique, multiplicities, degree. rewrite Hu', Hm', Hdeg.
  split_and!; [done..| |].
  - eapply clamped_intro with (x0 := x0) (x1 := x1). rewrite Hknots, Hdeg.
    by rewrite (Z.add_comm 1 p_tilde).
  - apply Forall_fmap, Forall_forall. intros x _. simpl. lia.
Qed.

Lemma createGluingDataSpace_space_witness :
  ∃ kv_result,
    createGluingDataSpace 3 1 kv_cubic_C1 kv_cubic_C1 kv_cubic_patch kv_cubic_patch
      = ([], kv_result) ∧
    unique kv_result = unique kv_cubic_C1 ∧ unique kv_result = unique kv_cubic_C1 ∧
    degree kv_result = 3 ∧ clamped kv_result ∧
    Forall (λ m, m = 3 - 1 ∧ degree kv_result - m = 3 - 2)
           (interior (multiplicities kv_result)).
Proof.
  apply (createGluingDataSpace_space 3 1
           kv_cubic_C1 kv_cubic_C1 kv_cubic_patch kv_cubic_patch);
    [ apply valid_kv_cubic_C1 | reflexivity | reflexivity ].
Defined.

Lemma lookup_1_interior {A : Type} (l : list A) :
  (3 ≤ length l)%nat → ∃ m, l !! 1%nat = Some m ∧ m ∈ interior l.
Proof.
  destruct l as [|a [|b [|c l]]]; simpl; try lia. intros _.
  exists b. split; [done|]. unfold interior. simpl. by left.
Qed.

Lemma uniform_lookup_1 m kv (us : list Qc) :
  uniform m kv → unique kv = us → (3 ≤ length us)%nat →
  multiplicities kv !! 1%nat = Some m.
Proof.
  intros Hun Hu Hlen.
  destruct (lookup_1_interior (multiplicities kv)) as (m' & Hm' & Hin).
  - unfold multiplicities. rewrite length_fmap.
    unfold unique in Hu. by rewrite <-Hu, length_fmap in Hlen.
  - unfold uniform in Hun. rewrite Forall_forall in Hun. by rewrite (Hun m' Hin) in Hm'.
Qed.

(** The part both variants of [createLokalEdgeSpace] share: the knot vector
    over the break points of the plus space, clamped at degree [p_1], whose
    interior multiplicities are raised by [p_1 - r - 1] when the second
    break point is not [1]. *)
Lemma local_edge_core kv_plus p_1 r :
  valid kv_plus → last (unique kv_plus) = Some 1%Qc →
  ∃ u1, unique kv_plus !! 1%nat = Some u1 ∧
    (interior (unique kv_plus) = [] → u1 = 1%Qc) ∧
    (interior (unique kv_plus) ≠ [] →
       u1 ≠ 1%Qc ∧ (3 ≤ length (unique kv_plus))%nat) ∧
    local_edge_law p_1 r kv_plus
      (if bool_decide (u1 ≠ 1%Qc)
       then increaseMultiplicity (p_1 - r - 1)
              (degreeIncrease p_1 (from_knots (unique kv_plus)))
       else degreeIncrease p_1 (from_knots (unique kv_plus))).
Proof.
  intros Hv Hlast. pose proof (valid_sorted _ Hv) as Hs.
  destruct (valid_shape _ Hv) as (x0 & mid & x1 & Hk & Hnd & _).
  assert (Hus : unique kv_plus = x0 :: mid.*1 ++ [x1]).
  { unfold unique. by rewrite Hk, fmap_cons, fmap_app. }
  rewrite Hus in Hs, Hlast |- *. rewrite last_ends in Hlast. simplify_eq.
  rewrite interior_ends.
  destruct (derived_space_shape x0 mid.*1 1%Qc p_1 (p_1 - r - 1) Hs)
    as (Hdeg0 & Hknots0 & Hdeg & Hknots).
  destruct (unique_ends _ _ _ _ (λ _, 1) _ _ Hknots0) as [Hu0 Hm0].
  destruct (unique_ends _ _ _ _ (λ _, 1 + (p_1 - r - 1)) _ _ Hknots) as [Hu' Hm'].
  destruct mid as [|[k m] mid].
  - exists 1%Qc. split_and!; [done..|].
    rewrite bool_decide_eq_false_2 by tauto.
    unfold local_edge_law, unique, multiplicities, degree.
    rewrite Hu0, Hm0, Hdeg0. split_and!; [done..| |by constructor].
    eapply clamped_intro with (x0 := x0) (x1 := 1%Qc).
    by rewrite Hknots0, Hdeg0, (Z.add_comm 1 p_1).
  - assert (k ≠ 1%Qc).
    { intros ->. apply NoDup_cons in Hnd as [_ Hnd].
      rewrite fmap_cons in Hnd. simpl in Hnd.
      apply NoDup_cons in Hnd as [Hnin _]. apply Hnin, elem_of_app. right.
      by apply list_elem_of_singleton. }
    exists k. split_and!; [done|done| |].
    { intros _. split; [done|]. simpl. rewrite length_app. simpl. lia. }
    rewrite bool_decide_eq_true_2 by done.
    unfold local_edge_law, unique, multiplicities, degree.
    rewrite Hu', Hm', Hdeg. split_and!; [done..| |].
    + eapply clamped_intro with (x0 := x0) (x1 := 1%Qc).
      by rewrite Hknots, Hdeg, (Z.add_comm 1 p_1).
    + apply Forall_fmap, Forall_forall. intros x _. simpl. lia.
Qed.

(** The spaces [init()] derives from the sides [kv_cubic_mixed] of an
    interface, for the discrete regularity [2], [p_tilde = 3] and
    [r_tilde = 1]. *)
Example mixed_spaces_derived :
  valid kv_cubic_mixed ∧
  createPlusMinusSpace (mkOptions 2 false) kv_cubic_mixed kv_cubic_mixed
    kv_cubic_patch kv_cubic_patch
  = Some ([], kv_cubic_mixed, kv_quadratic_mixed) ∧
  createGluingDataSpace 3 1 kv_cubic_mixed kv_cubic_mixed kv_cubic_patch kv_cubic_patch
  = ([], kv_gluing_mixed).
Proof.
  split_and!; [solve_valid|by vm_compute..].
Qed.

(** C5 as stated fails: for the plus, minus and gluing-data spaces of
    [mixed_spaces_derived], whose interior break points carry different
    multiplicities, [createLokalEdgeSpace] reads the multiplicities of the
    first interior break point [1/4] only and returns a space of degree [5]
    with the multiplicity [4] at both interior break points: the continuity
    at [1/2] is [1], where the minus space has the continuity [0]. *)
Lemma edge_continuity_counterexample :
  ¬ edge_space_as_claimed kv_cubic_mixed kv_quadratic_mixed kv_gluing_mixed
      kv_cubic_patch kv_cubic_patch.
Proof.
  intros (out & kv1_result & kv2_result & Hrun & _ & _ & Hmin).
  assert (createLokalEdgeSpace kv_cubic_mixed kv_quadratic_mixed kv_gluing_mixed
            kv_gluing_mixed kv_cubic_patch kv_cubic_patch
          = Some ([], mkKnotVector 5 [(0%Qc, 6); (quarter, 4); (one_half, 4); (1%Qc, 6)],
                  mkKnotVector 5 [(0%Qc, 6); (quarter, 4); (one_half, 4); (1%Qc, 6)]))
    as Hval by (by vm_compute).
  rewrite Hval in Hrun. injection Hrun as _ <- _.
  specialize (Hmin one_half).
  assert (one_half ∈ interior (unique kv_cubic_mixed)) as Hin.
  { apply list_elem_of_In. right. by left. }
  apply Hmin in Hin. vm_compute in Hin. discriminate Hin.
Qed.

(** The test [knots_unique_plus[1] != 1] takes the second break point [1]
    of a domain from [0] to [2] for the end of the domain: the multiplicity
    of the interior break point is not raised, and the edge space has the
    continuity [4] there, where the inputs have the continuities [2], [1]
    and [1]. *)
Example edge_space_domain_two :
  createLokalEdgeSpace kv_cubic_long kv_quadratic_long kv_gluing_long kv_gluing_long
    kv_cubic_patch kv_cubic_patch
  = Some ([], mkKnotVector 5 [(0%Qc, 6); (1%Qc, 1); (two, 6)],
          mkKnotVector 5 [(0%Qc, 6); (1%Qc, 1); (two, 6)]) ∧
  ¬ edge_space_as_claimed kv_cubic_long kv_quadratic_long kv_gluing_long
      kv_cubic_patch kv_cubic_patch.
Proof.
  assert (createLokalEdgeSpace kv_cubic_long kv_quadratic_long kv_gluing_long
            kv_gluing_long kv_cubic_patch kv_cubic_patch
          = Some ([], mkKnotVector 5 [(0%Qc, 6); (1%Qc, 1); (two, 6)],
                  mkKnotVector 5 [(0%Qc, 6); (1%Qc, 1); (two, 6)]))
    as Hval by (by vm_compute).
  split; [done|].
  intros (out & kv1_result & kv2_result & Hrun & _ & _ & Hmin).
  rewrite Hval in Hrun. injection Hrun as _ <- _.
  specialize (Hmin 1%Qc).
  assert (1%Qc ∈ interior (unique kv_cubic_long)) as Hin.
  { apply list_elem_of_In. by left. }
  apply Hmin in Hin. vm_compute in Hin. discriminate Hin.
Qed.

(** C5, amended: for plus, minus and gluing-data knot vectors the code is
    written for (the plus space valid, the break points shared, the domain
    ending at [1], and in each of the three the same multiplicity at all
    interior break points), the local edge space of an interface has degree
    [max (p_plus + p_gD - 1) (p_minus + p_gD)] and the one of a boundary
    degree [max p_plus p_minus]; at every interior break point its
    continuity is the minimum of the continuities of the inputs; the
    two-sided variant returns the same knot vector for both sides. *)
Theorem createLokalEdgeSpace_law
    (kv_plus kv_minus kv_gD_1 kv_gD_2 kv_patch_1 kv_patch_2 : gsKnotVector)
    (m_plus m_minus m_gD : Z) :
  valid kv_plus → last (unique kv_plus) = Some 1%Qc →
  unique kv_minus = unique kv_plus → unique kv_gD_1 = unique kv_plus →
  uniform m_plus kv_plus → uniform m_minus kv_minus → uniform m_gD kv_gD_1 →
  let r_plus := degree kv_plus - m_plus in
  let r_minus := degree kv_minus - m_minus in
  let r_gD := degree kv_gD_1 - m_gD in
  (∃ kv1_result kv2_result,
     createLokalEdgeSpace kv_plus kv_minus kv_gD_1 kv_gD_2 kv_patch_1 kv_patch_2
       = Some ([], kv1_result, kv2_result) ∧
     kv1_result = kv2_result ∧
     local_edge_law
       (Z.max (degree kv_plus + degree kv_gD_1 - 1) (degree kv_minus + degree kv_gD_1))
       (Z.min r_gD (Z.min r_plus r_minus)) kv_plus kv1_result) ∧
  (∃ kv1_result,
     createLokalEdgeSpace_1 kv_plus kv_minus kv_patch_1 = Some ([], kv1_result) ∧
     local_edge_law (Z.max (degree kv_plus) (degree kv_minus))
       (Z.min r_plus r_minus) kv_plus kv1_result).
Proof.
  intros Hv Hlast Hum Hug Hp Hm Hg r_plus r_minus r_gD. split.
  - set (p_1 := Z.max _ _). set (r := Z.min _ _).
    destruct (local_edge_core kv_plus p_1 r Hv Hlast) as (u1 & Hu1 & He & Hne & Hlaw).
    unfold createLokalEdgeSpace. rewrite Hum, Hu1.
    rewrite (bool_decide_eq_false_2 (unique kv_plus ≠ unique kv_plus)) by tauto.
    cbn [info_if mbind option_bind]. fold p_1.
    destruct (decide (interior (unique kv_plus) = [])) as [Hint|Hint].
    + rewrite (He Hint) in Hlaw |- *.
      rewrite bool_decide_eq_false_2 in Hlaw |- * by tauto. simpl. eauto.
    + destruct (Hne Hint) as [Hu1ne Hlen].
      rewrite bool_decide_eq_true_2 in Hlaw |- * by done.
      rewrite (uniform_lookup_1 m_plus kv_plus _ Hp eq_refl Hlen).
      rewrite (uniform_lookup_1 m_minus kv_minus _ Hm Hum Hlen).
      rewrite (uniform_lookup_1 m_gD kv_gD_1 _ Hg Hug Hlen).
      simpl. eauto.
  - set (p_1 := Z.max _ _). set (r := Z.min _ _).
    destruct (local_edge_core kv_plus p_1 r Hv Hlast) as (u1 & Hu1 & He & Hne & Hlaw).
    unfold createLokalEdgeSpace_1. rewrite Hum, Hu1.
    rewrite (bool_decide_eq_false_2 (unique kv_plus ≠ unique kv_plus)) by tauto.
    cbn [info_if mbind option_bind]. fold p_1.
    destruct (decide (interior (unique kv_plus) = [])) as [Hint|Hint].
    + rewrite (He Hint) in Hlaw |- *.
      rewrite bool_decide_eq_false_2 in Hlaw |- * by tauto. simpl. eauto.
    + destruct (Hne Hint) as [Hu1ne Hlen].
      rewrite bool_decide_eq_true_2 in Hlaw |- * by done.
      rewrite (uniform_lookup_1 m_plus kv_plus _ Hp eq_refl Hlen).
      rewrite (uniform_lookup_1 m_minus kv_minus _ Hm Hum Hlen).
      simpl. eauto.
Qed.

Lemma createLokalEdgeSpace_law_witness :
  (∃ kv1_result kv2_result,
     createLokalEdgeSpace kv_cubic_C2 kv_quadratic_C1 kv_cubic_C1 kv_cubic_C1
                          kv_cubic_patch kv_cubic_patch
       = Some ([], kv1_result, kv2_result) ∧
     kv1_result = kv2_result ∧
     local_edge_law (Z.max (3 + 3 - 1) (2 + 3))
       (Z.min (3 - 2) (Z.min (3 - 1) (2 - 1))) kv_cubic_C2 kv1_result) ∧
  (∃ kv1_result,
     createLokalEdgeSpace_1 kv_cubic_C2 kv_quadratic_C1 kv_cubic_patch
       = Some ([], kv1_result) ∧
     local_edge_law (Z.max 3 2) (Z.min (3 - 1) (2 - 1)) kv_cubic_C2 kv1_result).
Proof.
  apply (createLokalEdgeSpace_law kv_cubic_C2 kv_quadratic_C1 kv_cubic_C1
           kv_cubic_C1 kv_cubic_patch kv_cubic_patch 1 1 2);
    [ apply valid_kv_cubic_C2 | reflexivity | reflexivity | reflexivity
    | repeat constructor | repeat constructor | repeat constructor ].
Defined.

(** ** Sides of an interface that do not match *)

(** C7 as stated fails: for the sides [kv_cubic_C1_third] and [kv_cubic_C1],
    whose break points differ, both derivations return the spaces built from
    the second side alone. *)
Lemma rejects_mismatch_counterexample :
  ¬ rejects_mismatch (mkOptions 1 false) 3 1
      kv_cubic_C1_third kv_cubic_C1 kv_cubic_patch kv_cubic_patch.
Proof.
  intros Hrej. destruct Hrej as [Hpm _]; [by vm_compute|].
  apply Hpm. by repeat eexists.
Qed.

(** C7, amended: when the break points of the two sides differ (the degrees
    being equal), [createPlusMinusSpace] and [createGluingDataSpace] write
    their diagnostic and go on: they return the spaces they return when both
    sides carry the knot vector of the second side. *)
Theorem mismatch_diagnosed_and_continued
    (m_options : gsOptionList) (p_tilde r_tilde : Z)
    (kv1 kv2 kv1_patch kv2_patch : gsKnotVector) :
  unique kv1 ≠ unique kv2 → degree kv1 = degree kv2 →
  (2 ≤ length (unique kv1_patch))%nat →
  (∃ out out' kv_plus kv_minus,
     createPlusMinusSpace m_options kv1 kv2 kv1_patch kv2_patch
       = Some (out, kv_plus, kv_minus) ∧
     msg_plus_minus "1" ∈ out ∧
     createPlusMinusSpace m_options kv2 kv2 kv1_patch kv2_patch
       = Some (out', kv_plus, kv_minus) ∧
     msg_plus_minus "1" ∉ out') ∧
  (∃ kv_result,
     createGluingDataSpace p_tilde r_tilde kv1 kv2 kv1_patch kv2_patch
       = ([msg_not_matching], kv_result) ∧
     createGluingDataSpace p_tilde r_tilde kv2 kv2 kv1_patch kv2_patch
       = ([], kv_result)).
Proof.
  intros Hne Hdeg Hpatch. split.
  - unfold createPlusMinusSpace.
    destruct (unique kv1_patch !! 1%nat) as [u1|] eqn:Hu1;
      [|apply lookup_ge_None in Hu1; exfalso; lia].
    cbn [mbind option_bind]. rewrite Hdeg.
    rewrite (bool_decide_eq_true_2 (unique kv1 ≠ unique kv2)) by done.
    rewrite (bool_decide_eq_false_2 (unique kv2 ≠ unique kv2)) by tauto.
    rewrite (bool_decide_eq_false_2 (degree kv2 ≠ degree kv2)) by tauto.
    rewrite (bool_decide_eq_false_2 (multiplicities kv2 ≠ multiplicities kv2)) by tauto.
    do 4 eexists. split_and!; [reflexivity| |reflexivity|].
    + cbn [info_if]. apply elem_of_app. left. by apply list_elem_of_singleton.
    + cbn [info_if app]. rewrite app_nil_r.
      unfold info_if. case_bool_decide; [|by intros ?%elem_of_nil].
      intros Hin%list_elem_of_singleton. vm_compute in Hin. discriminate.
  - unfold createGluingDataSpace.
    rewrite (bool_decide_eq_true_2 (unique kv1 ≠ unique kv2)) by done.
    rewrite (bool_decide_eq_false_2 (unique kv2 ≠ unique kv2)) by tauto.
    eexists. split; reflexivity.
Qed.

Lemma mismatch_diagnosed_and_continued_witness :
  (∃ out out' kv_plus kv_minus,
     createPlusMinusSpace (mkOptions 1 false)
       kv_cubic_C1_third kv_cubic_C1 kv_cubic_patch kv_cubic_patch
       = Some (out, kv_plus, kv_minus) ∧
     msg_plus_minus "1" ∈ out ∧
     createPlusMinusSpace (mkOptions 1 false)
       kv_cubic_C1 kv_cubic_C1 kv_cubic_patch kv_cubic_patch
       = Some (out', kv_plus, kv_minus) ∧
     msg_plus_minus "1" ∉ out') ∧
  (∃ kv_result,
     createGluingDataSpace 3 1 kv_cubic_C1_third kv_cubic_C1
                           kv_cubic_patch kv_cubic_patch
       = ([msg_not_matching], kv_result) ∧
     createGluingDataSpace 3 1 kv_cubic_C1 kv_cubic_C1
                           kv_cubic_patch kv_cubic_patch
       = ([], kv_result)).
Proof.
  apply (mismatch_diagnosed_and_continued (mkOptions 1 false) 3 1
           kv_cubic_C1_third kv_cubic_C1 kv_cubic_patch kv_cubic_patch);
    [ by vm_compute | reflexivity | simpl; lia ].
Defined.

(** ** The interior pass of [compute()] *)

Lemma add_entries_nil s : add_entries [] s = s.
Proof.
  destruct s as [? ? ? ? ? ? [] ? ?]. unfold add_entries. simpl.
  by rewrite !app_nil_r.
Qed.

Lemma add_entries_app es1 es2 s :
  add_entries es2 (add_entries es1 s) = add_entries (es1 ++ es2) s.
Proof.
  unfold add_entries, insert_events. simpl. by rewrite fmap_app, !(assoc_L (++)).
Qed.

Lemma matrix_insert_run row col v s :
  matrix_insert row col v s = Some (tt, add_entries [(row, col, v)] s).
Proof. reflexivity. Qed.

Lemma seqZ_S (a : Z) (n : nat) :
  seqZ a (Z.of_nat (S n)) = a :: seqZ (a + 1) (Z.of_nat n).
Proof.
  rewrite Nat2Z.inj_succ, seqZ_cons; [|lia]. f_equal. f_equal; lia.
Qed.

(** The loop over [i]: one insertion per [i], the row counter going up by
    one each time. *)
Lemma row_loop (sr : Z) (colf : Z → Z) (n : nat) (a r0 : Z) s :
  for_acc (seqZ a (Z.of_nat n))
    (λ i row_i, matrix_insert (sr + row_i) (colf i) 1%Qc;; mret (row_i + 1)) r0 s
  = Some (r0 + Z.of_nat n,
          add_entries ((λ i, (sr + (r0 + (i - a)), colf i, 1%Qc)) <$> seqZ a (Z.of_nat n)) s).
Proof.
  revert a r0 s. induction n as [|n IH]; intros a r0 s.
  - simpl. rewrite add_entries_nil. unfold mret, M_ret. do 2 f_equal. lia.
  - rewrite seqZ_S. cbn [for_acc].
    erewrite bind_run; [|erewrite bind_run by apply matrix_insert_run; reflexivity].
    rewrite IH, add_entries_app. f_equal. f_equal; [lia|]. f_equal.
    rewrite fmap_cons. cbn [app]. replace (r0 + (a - a)) with r0 by lia. f_equal.
    apply list_fmap_ext. intros _ i _.
    by replace (r0 + 1 + (i - (a + 1))) with (r0 + (i - a)) by lia.
Qed.

(** The loop over [j] around the loop over [i]. *)
Lemma lattice_loop (sr : Z) (colf : Z → Z → Z) (n m : nat) (a b r0 : Z) s :
  for_acc (seqZ b (Z.of_nat m))
    (λ j row_i,
       for_acc (seqZ a (Z.of_nat n))
         (λ i row_i, matrix_insert (sr + row_i) (colf j i) 1%Qc;; mret (row_i + 1))
         row_i) r0 s
  = Some (r0 + Z.of_nat m * Z.of_nat n,
          add_entries
            (j ← seqZ b (Z.of_nat m);
             (λ i, (sr + (r0 + ((j - b) * Z.of_nat n + (i - a))), colf j i, 1%Qc))
               <$> seqZ a (Z.of_nat n)) s).
Proof.
  revert b r0 s. induction m as [|m IH]; intros b r0 s.
  - simpl. rewrite add_entries_nil. unfold mret, M_ret. do 2 f_equal. lia.
  - rewrite seqZ_S. cbn [for_acc].
    erewrite bind_run by apply (row_loop sr (colf b) n a r0 s).
    rewrite IH, add_entries_app. f_equal. f_equal; [lia|]. f_equal.
    rewrite bind_cons. f_equal.
    + apply list_fmap_ext. intros _ i _.
      by replace (r0 + ((b - b) * Z.of_nat n + (i - a))) with (r0 + (i - a)) by lia.
    + apply list_bind_ext; [|done]. intros j.
      apply list_fmap_ext. intros _ i _.
      by replace (r0 + Z.of_nat n + ((j - (b + 1)) * Z.of_nat n + (i - a)))
        with (r0 + ((j - b) * Z.of_nat n + (i - a))) by lia.
Qed.

Lemma seqZ_to_nat (a len : Z) : seqZ a len = seqZ a (Z.of_nat (Z.to_nat len)).
Proof. unfold seqZ. by rewrite Nat2Z.id. Qed.

Lemma fmap_bind_list {A B C : Type} (f : B → C) (g : A → list B) (l : list A) :
  f <$> (l ≫= g) = l ≫= (λ x, f <$> g x).
Proof.
  induction l as [|x l IH]; [done|]. by rewrite !bind_cons, fmap_app, IH.
Qed.

Lemma bind_singleton_fmap {A B : Type} (f : A → B) (l : list A) :
  (x ← l; [f x]) = f <$> l.
Proof. induction l as [|x l IH]; [done|]. by rewrite bind_cons, IH. Qed.

Section InteriorPass.
Context `{Collaborators}.

Lemma shift_row_S bases np c :
  bases !! np = Some c → shift_row bases (S np) = shift_row bases np + size_rows c.
Proof.
  intros Hc. unfold shift_row, sumZ. rewrite (take_S_r _ _ _ Hc), fmap_app, foldr_app.
  simpl. generalize (size_rows <$> take np bases). intros l.
  induction l as [|x l IH]; simpl; lia.
Qed.

Lemma shift_col_S bases np c :
  bases !! np = Some c → shift_col bases (S np) = shift_col bases np + size_cols c.
Proof.
  intros Hc. unfold shift_col, sumZ. rewrite (take_S_r _ _ _ Hc), fmap_app, foldr_app.
  simpl. generalize (size_cols <$> take np bases). intros l.
  induction l as [|x l IH]; simpl; lia.
Qed.

(** The interior block of one patch. *)
Lemma compute_inner_patch_run np s c :
  m_bases s !! np = Some c → is_Some (innerBasis c) →
  compute_inner_patch np (shift_row (m_bases s) np, shift_col (m_bases s) np) s
  = Some ((shift_row (m_bases s) (S np), shift_col (m_bases s) (S np)),
          add_entries (interior_entry (m_bases s) <$> patch_lattice np c) s).
Proof.
  intros Hc [b Hb]. unfold compute_inner_patch.
  run_bind ltac:(apply get_run).
  run_bind ltac:(apply lift_run, Hc).
  run_bind ltac:(apply lift_run, Hb).
  assert (Hu : dim_u c = BSplineBasis.size (TB.component b 0))
    by (unfold dim_u; by rewrite Hb).
  assert (Hv : dim_v c = BSplineBasis.size (TB.component b 1))
    by (unfold dim_v; by rewrite Hb).
  rewrite <-Hu, <-Hv.
  replace (dim_v c - 2 - 2) with (dim_v c - 4) by lia.
  replace (dim_u c - 2 - 2) with (dim_u c - 4) by lia.
  rewrite (seqZ_to_nat 2 (dim_v c - 4)), (seqZ_to_nat 2 (dim_u c - 4)).
  run_bind ltac:(apply (lattice_loop (shift_row (m_bases s) np)
                          (λ j i, shift_col (m_bases s) np + j * dim_u c + i))).
  rewrite (shift_row_S _ _ _ Hc), (shift_col_S _ _ _ Hc).
  unfold mret, M_ret. do 3 f_equal.
  unfold patch_lattice.
  rewrite <-(seqZ_to_nat 2 (dim_v c - 4)), <-(seqZ_to_nat 2 (dim_u c - 4)).
  rewrite fmap_bind_list. apply list_bind_ext; [|done]. intros j.
  rewrite (bind_singleton_fmap (λ i, (np, i, j))), <-list_fmap_compose.
  apply list_fmap_ext. intros k i Hi%list_elem_of_lookup_2%elem_of_seqZ.
  simpl. rewrite Hc. simpl.
  rewrite Z2Nat.id by lia. f_equal. f_equal; lia.
Qed.

(** The loop over the patches, from patch [k] on. *)
Lemma compute_inner_loop (n k : nat) s :
  Forall (λ c, is_Some (innerBasis c)) (m_bases s) →
  (k + n ≤ length (m_bases s))%nat →
  for_acc (seq k n) compute_inner_patch
    (shift_row (m_bases s) k, shift_col (m_bases s) k) s
  = Some ((shift_row (m_bases s) (k + n), shift_col (m_bases s) (k + n)),
          add_entries
            (interior_entry (m_bases s) <$>
               (np ← seq k n;
                match m_bases s !! np with
                | Some c => patch_lattice np c
                | None => []
                end)) s).
Proof.
  revert k s. induction n as [|n IH]; intros k s Hall Hlen.
  - simpl. rewrite add_entries_nil, Nat.add_0_r. reflexivity.
  - destruct (lookup_lt_is_Some_2 (m_bases s) k) as [c Hc]; [lia|].
    assert (Hin : is_Some (innerBasis c)).
    { rewrite Forall_forall in Hall. eapply Hall, list_elem_of_lookup_2, Hc. }
    cbn [seq for_acc].
    run_bind ltac:(apply (compute_inner_patch_run k s c Hc Hin)).
    set (s1 := add_entries _ s).
    change (m_bases s) with (m_bases s1).
    rewrite (IH (S k) s1) by (done || (change (m_bases s1) with (m_bases s); lia)).
    unfold s1. rewrite add_entries_app.
    change (m_bases (add_entries _ s)) with (m_bases s).
    replace (S k + n)%nat with (k + S n)%nat by lia.
    do 3 f_equal. by rewrite bind_cons, fmap_app, Hc.
Qed.

Lemma compute_inner_run s :
  ready s →
  compute_inner s
  = Some (tt, add_entries (interior_entry (m_bases s) <$> interior_indices (m_bases s)) s).
Proof.
  intros [Hlen Hall]. unfold compute_inner.
  run_bind ltac:(apply get_run). rewrite <-Hlen.
  run_bind ltac:(apply (compute_inner_loop _ 0 s Hall); lia).
  reflexivity.
Qed.

Lemma elem_of_interior_indices bases np i j :
  (np, i, j) ∈ interior_indices bases ↔
  ∃ c, bases !! np = Some c ∧ 2 ≤ i < dim_u c - 2 ∧ 2 ≤ j < dim_v c - 2.
Proof.
  unfold interior_indices. rewrite list_elem_of_bind. split.
  - intros (np' & Hin & Hnp). destruct (bases !! np') as [c|] eqn:Hc;
      [|by apply elem_of_nil in Hin].
    unfold patch_lattice in Hin.
    apply list_elem_of_bind in Hin as (j' & Hin & Hj%elem_of_seqZ).
    apply list_elem_of_bind in Hin as (i' & Hin & Hi%elem_of_seqZ).
    apply list_elem_of_singleton in Hin. simplify_eq. exists c. split; [done|lia].
  - intros (c & Hc & Hi & Hj). exists np. rewrite Hc. split.
    + unfold patch_lattice. apply list_elem_of_bind. exists j.
      split; [|apply elem_of_seqZ; lia]. apply list_elem_of_bind. exists i.
      split; [by apply list_elem_of_singleton|apply elem_of_seqZ; lia].
    + apply elem_of_seq. apply lookup_lt_Some in Hc. lia.
Qed.

Lemma NoDup_patch_lattice np c : NoDup (patch_lattice np c).
Proof.
  unfold patch_lattice. apply NoDup_bind; [| |apply NoDup_seqZ].
  - intros j1 j2 idx _ _ (i1 & Hi1%list_elem_of_singleton & _)%list_elem_of_bind
      (i2 & Hi2%list_elem_of_singleton & _)%list_elem_of_bind. congruence.
  - intros j _. apply NoDup_bind; [| |apply NoDup_seqZ].
    + intros i1 i2 idx _ _ Hi1%list_elem_of_singleton Hi2%list_elem_of_singleton.
      congruence.
    + intros i _. apply NoDup_singleton.
Qed.

Lemma NoDup_interior_indices bases : NoDup (interior_indices bases).
Proof.
  unfold interior_indices. apply NoDup_bind; [| |apply NoDup_seq].
  - intros np1 np2 [[np i] j] _ _ H1 H2.
    destruct (bases !! np1) as [c1|]; [|by apply elem_of_nil in H1].
    destruct (bases !! np2) as [c2|]; [|by apply elem_of_nil in H2].
    unfold patch_lattice in *.
    apply list_elem_of_bind in H1 as (? & (? & ?%list_elem_of_singleton & _)%list_elem_of_bind & _).
    apply list_elem_of_bind in H2 as (? & (? & ?%list_elem_of_singleton & _)%list_elem_of_bind & _).
    congruence.
  - intros np _. destruct (bases !! np); [apply NoDup_patch_lattice|apply NoDup_nil_2].
Qed.

(** Row-major order: the entry at place [k] of a lattice of rows of length
    [n] has the indices [i] and [j] with [k = (j - b) * n + (i - 2)]. *)
Lemma lattice_rank {A : Type} (f : Z → Z → A) (n m : nat) (b : Z) (k : nat) (x : A) :
  (j ← seqZ b (Z.of_nat m); (λ i, f i j) <$> seqZ 2 (Z.of_nat n)) !! k = Some x →
  ∃ i j, x = f i j ∧ Z.of_nat k = (j - b) * Z.of_nat n + (i - 2).
Proof.
  revert b k. induction m as [|m IH]; intros b k; [done|].
  rewrite seqZ_S, bind_cons.
  intros [Hk|[Hlen Hk]]%lookup_app_Some.
  - apply list_lookup_fmap_Some in Hk as (i & -> & [-> Hi]%lookup_seqZ).
    exists (2 + Z.of_nat k), b. split; [done|lia].
  - rewrite length_fmap, length_seqZ, Nat2Z.id in Hlen, Hk.
    apply IH in Hk as (i & j & -> & Hrank). exists i, j. split; [done|]. lia.
Qed.

Lemma patch_lattice_rank np c (k : nat) np' i j :
  patch_lattice np c !! k = Some (np', i, j) →
  Z.of_nat k = (j - 2) * (dim_u c - 4) + (i - 2).
Proof.
  unfold patch_lattice. intros Hk.
  assert (Hin : (np', i, j) ∈ (j ← seqZ 2 (dim_v c - 4);
                               i ← seqZ 2 (dim_u c - 4); [(np, i, j)]))
    by (by eapply list_elem_of_lookup_2).
  apply list_elem_of_bind in Hin as (j' & Hin & _).
  apply list_elem_of_bind in Hin as (i' & _ & Hi%elem_of_seqZ).
  rewrite (seqZ_to_nat 2 (dim_v c - 4)) in Hk.
  erewrite list_bind_ext in Hk;
    [|intros j0; rewrite (bind_singleton_fmap (λ i, (np, i, j0)));
      rewrite (seqZ_to_nat 2 (dim_u c - 4)); reflexivity|reflexivity].
  apply (lattice_rank (λ i j, (np, i, j))) in Hk as (i0 & j0 & [= -> -> ->] & Hrank).
  rewrite Hrank, Z2Nat.id by lia. done.
Qed.

End InteriorPass.

(** ** The passes of the builders and the order of [compute()] *)

Lemma same_core_refl s : same_core s s.
Proof. constructor; [apply frame_refl|done..]. Qed.

Lemma same_core_trans s1 s2 s3 : same_core s1 s2 → same_core s2 s3 → same_core s1 s3.
Proof.
  intros [] []. constructor; [by eapply frame_trans|congruence..].
Qed.

Lemma same_core_add_entries es s : same_core s (add_entries es s).
Proof. by repeat constructor. Qed.

(** A loop that hands the items of a list, one after the other, to a
    builder and records the call: every call works on the matrix the call
    before it left. *)
Lemma builder_loop {X : Type} (items : gsApproxC1Spline → list X)
    (step : gsApproxC1Spline → X → nat → gsSparseMatrix → gsSparseMatrix)
    (ev : nat → event) :
  (∀ s s', same_core s s' → items s' = items s) →
  (∀ s s', same_core s s' → step s' = step s) →
  ∀ n k s, (k + n ≤ length (items s))%nat →
  ∃ s',
    for_each (seq k n)
      (λ i, s ← get; x ← lift (items s !! i);
            update_matrix (step s x i);; record_event (ev i)) s
    = Some (tt, s') ∧
    same_core s s' ∧ trace s' = trace s ++ (ev <$> seq k n) ∧
    m_matrix s'
    = foldl (λ m it, step s it.2 it.1 m) (m_matrix s) (zip (seq k n) (drop k (items s))).
Proof.
  intros Hitems Hstep. induction n as [|n IH]; intros k s Hlen.
  - exists s. simpl. rewrite app_nil_r.
    split_and!; [done|apply same_core_refl|done|done].
  - destruct (lookup_lt_is_Some_2 (items s) k) as [x Hx]; [lia|].
    cbn [seq for_each].
    set (s1 := mkSpline (m_patches s) (m_multiBasis s) (m_options s) (p_tilde s)
                 (r_tilde s) (m_bases s) (step s x k (m_matrix s)) (gsInfo_out s)
                 (trace s ++ [ev k])).
    assert (Hcore : same_core s s1) by (by repeat constructor).
    destruct (IH (S k) s1) as (s' & Hrun & Hcore' & Htrace & Hmatrix).
    { rewrite (Hitems _ _ Hcore). lia. }
    exists s'. split_and!.
    + erewrite bind_run; [exact Hrun|].
      run_bind ltac:(apply get_run). run_bind ltac:(apply lift_run, Hx).
      reflexivity.
    + by eapply same_core_trans.
    + rewrite Htrace. simpl. by rewrite <-(assoc_L (++)).
    + rewrite Hmatrix, (Hitems _ _ Hcore), (Hstep _ _ Hcore).
      by rewrite (drop_S _ _ _ Hx).
Qed.

Lemma compressed_last (body before after : list event) :
  EvMakeCompressed ∉ body →
  body ++ [EvMakeCompressed] = before ++ EvMakeCompressed :: after →
  after = [] ∧ EvMakeCompressed ∉ before.
Proof.
  intros Hnin Heq. destruct (decide (after = [])) as [->|Hne].
  - apply app_inj_tail in Heq as [-> _]. done.
  - destruct (exists_last Hne) as (after' & z & ->). exfalso.
    rewrite app_comm_cons, (assoc_L (++)) in Heq.
    apply app_inj_tail in Heq as [-> _]. apply Hnin, elem_of_app. right. by left.
Qed.

Section Order.
Context `{Collaborators}.

Lemma compute_interfaces_run s :
  ∃ s', compute_interfaces s = Some (tt, s') ∧ same_core s s' ∧
    trace s' = trace s ++ (EvSaveBasisInterface <$> seq 0 (length (interfaces (m_patches s)))) ∧
    m_matrix s'
    = foldl (λ m it, saveBasisInterface (m_patches s) (m_bases s) it.2 it.1 (m_options s) m)
        (m_matrix s) (numbered (interfaces (m_patches s))).
Proof.
  unfold compute_interfaces, for_range.
  destruct (builder_loop (λ s, interfaces (m_patches s))
              (λ s item numInt,
                 saveBasisInterface (m_patches s) (m_bases s) item numInt (m_options s))
              EvSaveBasisInterface) with (n := length (interfaces (m_patches s)))
              (k := 0%nat) (s := s) as (s' & Hrun & Hrest); [| |done|].
  - intros s1 s2 [[-> _ _ _ _] _ _]. done.
  - intros s1 s2 [[-> _ -> _ _] -> _]. done.
  - exists s'. split; [|done]. run_bind ltac:(apply get_run). exact Hrun.
Qed.

Lemma compute_boundaries_run s :
  ∃ s', compute_boundaries s = Some (tt, s') ∧ same_core s s' ∧
    trace s' = trace s ++ (EvSaveBasisBoundary <$> seq 0 (length (boundaries (m_patches s)))) ∧
    m_matrix s'
    = foldl (λ m it, saveBasisBoundary (m_patches s) (m_bases s) it.2 it.1 (m_options s) m)
        (m_matrix s) (numbered (boundaries (m_patches s))).
Proof.
  unfold compute_boundaries, for_range.
  destruct (builder_loop (λ s, boundaries (m_patches s))
              (λ s bit numBdy,
                 saveBasisBoundary (m_patches s) (m_bases s) bit numBdy (m_options s))
              EvSaveBasisBoundary) with (n := length (boundaries (m_patches s)))
              (k := 0%nat) (s := s) as (s' & Hrun & Hrest); [| |done|].
  - intros s1 s2 [[-> _ _ _ _] _ _]. done.
  - intros s1 s2 [[-> _ -> _ _] -> _]. done.
  - exists s'. split; [|done]. run_bind ltac:(apply get_run). exact Hrun.
Qed.

Lemma compute_vertices_run s :
  ∃ s', compute_vertices s = Some (tt, s') ∧ same_core s s' ∧
    trace s' = trace s ++ (EvSaveBasisVertex <$> seq 0 (length (vertices (m_patches s)))) ∧
    m_matrix s'
    = foldl (λ m it, saveBasisVertex (m_patches s) (m_bases s) (patch <$> it.2)
                       (m_index <$> it.2) it.1 (m_options s) m)
        (m_matrix s) (numbered (vertices (m_patches s))).
Proof.
  unfold compute_vertices, for_range.
  destruct (builder_loop (λ s, vertices (m_patches s))
              (λ s allcornerLists numVer,
                 saveBasisVertex (m_patches s) (m_bases s) (patch <$> allcornerLists)
                   (m_index <$> allcornerLists) numVer (m_options s))
              EvSaveBasisVertex) with (n := length (vertices (m_patches s)))
              (k := 0%nat) (s := s) as (s' & Hrun & Hrest); [| |done|].
  - intros s1 s2 [[-> _ _ _ _] _ _]. done.
  - intros s1 s2 [[-> _ -> _ _] -> _]. done.
  - exists s'. split; [|done]. run_bind ltac:(apply get_run). exact Hrun.
Qed.

(** The output at the end of [compute()] touches neither the matrix nor
    the record of its operations. *)
Lemma compute_info_loop (n k : nat) s :
  (k + n ≤ length (m_bases s))%nat →
  ∃ s', for_each (seq k n)
          (λ np, s ← get; c ← lift (m_bases s !! np);
                 gsInfo ["(" +:+ pretty (size_rows c) +:+ "," +:+
                         pretty (size_cols c) +:+ "), "]) s
        = Some (tt, s') ∧
    trace s' = trace s ∧ m_matrix s' = m_matrix s ∧ m_bases s' = m_bases s.
Proof.
  revert k s. induction n as [|n IH]; intros k s Hk; [by exists s|].
  destruct (lookup_lt_is_Some_2 (m_bases s) k) as [c Hc]; [lia|].
  cbn [seq for_each].
  set (s1 := mkSpline (m_patches s) (m_multiBasis s) (m_options s) (p_tilde s)
               (r_tilde s) (m_bases s) (m_matrix s)
               (gsInfo_out s ++ ["(" +:+ pretty (size_rows c) +:+ "," +:+
                                 pretty (size_cols c) +:+ "), "]) (trace s)).
  destruct (IH (S k) s1) as (s2 & Hrun & Ht & Hm & Hb); [simpl; lia|].
  exists s2. split; [|done].
  erewrite bind_run; [exact Hrun|]. run_bind ltac:(apply get_run).
  run_bind ltac:(apply lift_run, Hc). reflexivity.
Qed.

Lemma compute_info_run s :
  length (m_bases s) = length (patches (m_patches s)) →
  ∃ s', compute_info s = Some (tt, s') ∧
    trace s' = trace s ∧ m_matrix s' = m_matrix s.
Proof.
  intros Hlen. unfold compute_info.
  destruct (info (m_options s)) eqn:Hinfo.
  - set (s1 := mkSpline (m_patches s) (m_multiBasis s) (m_options s) (p_tilde s)
                 (r_tilde s) (m_bases s) (m_matrix s)
                 (gsInfo_out s ++ ["Dim for Patches: " +:+ endl]) (trace s)).
    destruct (compute_info_loop (length (patches (m_patches s))) 0 s1)
      as (s2 & Hrun & Ht & Hm & Hb); [simpl; lia|].
    eexists. split.
    + run_bind ltac:(apply get_run). rewrite Hinfo. unfold when, for_range.
      erewrite bind_run by reflexivity. erewrite bind_run by exact Hrun. reflexivity.
    + by rewrite Ht, Hm.
  - exists s. split; [|done]. run_bind ltac:(apply get_run). by rewrite Hinfo.
Qed.

End Order.

Lemma ready_sample_after_init : ready sample_after_init.
Proof.
  split; [reflexivity|]. repeat constructor; eexists; reflexivity.
Qed.

(** C3: the interior pass of [compute()] appends to the matrix exactly one
    entry of value 1 for each interior lattice index [(i, j)] of each patch,
    [2 <= i < dim_u - 2] and [2 <= j < dim_v - 2], in row-major order with
    the [v]-index outermost, at row [shift_row + row_i] with [row_i], the
    place of [(i, j)] in this order, equal to
    [(j - 2) * (dim_u - 4) + (i - 2)], and column
    [shift_col + j * dim_u + i], the shifts being the sums of [size_rows()]
    and [size_cols()] over the patches before; it writes nothing else. *)
Theorem compute_inner_block `{Collaborators} (s : gsApproxC1Spline) :
  ready s →
  let bases := m_bases s in
  ∃ s',
    compute_inner s = Some (tt, s') ∧
    s' = add_entries (interior_entry bases <$> interior_indices bases) s ∧
    sm_entries (m_matrix s')
      = sm_entries (m_matrix s) ++ (interior_entry bases <$> interior_indices bases) ∧
    NoDup (interior_indices bases) ∧
    (∀ np i j, (np, i, j) ∈ interior_indices bases ↔
       ∃ c, bases !! np = Some c ∧ 2 ≤ i < dim_u c - 2 ∧ 2 ≤ j < dim_v c - 2) ∧
    (∀ np i j c, bases !! np = Some c →
       interior_entry bases (np, i, j)
       = (sumZ (size_rows <$> take np bases) + ((j - 2) * (dim_u c - 4) + (i - 2)),
          sumZ (size_cols <$> take np bases) + (j * dim_u c + i),
          1%Qc)) ∧
    (∀ np c (row_i : nat) i j, patch_lattice np c !! row_i = Some (np, i, j) →
       (j - 2) * (dim_u c - 4) + (i - 2) = Z.of_nat row_i).
Proof.
  intros Hready bases. eexists. split; [by apply compute_inner_run|].
  split_and!; [done|done|apply NoDup_interior_indices| | |].
  - apply elem_of_interior_indices.
  - intros np i j c Hc. unfold interior_entry. by rewrite Hc.
  - intros np c row_i i j Hk. symmetry. by eapply patch_lattice_rank.
Qed.

Lemma compute_inner_block_witness :
  let bases := m_bases sample_after_init in
  ∃ s',
    compute_inner (H := sample_collaborators) sample_after_init = Some (tt, s') ∧
    s' = add_entries (interior_entry (H := sample_collaborators) bases
                        <$> interior_indices bases) sample_after_init ∧
    sm_entries (m_matrix s')
      = sm_entries (m_matrix sample_after_init) ++
        (interior_entry (H := sample_collaborators) bases <$> interior_indices bases) ∧
    NoDup (interior_indices bases) ∧
    (∀ np i j, (np, i, j) ∈ interior_indices bases ↔
       ∃ c, bases !! np = Some c ∧ 2 ≤ i < dim_u c - 2 ∧ 2 ≤ j < dim_v c - 2) ∧
    (∀ np i j c, bases !! np = Some c →
       interior_entry (H := sample_collaborators) bases (np, i, j)
       = (sumZ (size_rows (Collaborators := sample_collaborators) <$> take np bases)
            + ((j - 2) * (dim_u c - 4) + (i - 2)),
          sumZ (size_cols (Collaborators := sample_collaborators) <$> take np bases)
            + (j * dim_u c + i),
          1%Qc)) ∧
    (∀ np c (row_i : nat) i j, patch_lattice np c !! row_i = Some (np, i, j) →
       (j - 2) * (dim_u c - 4) + (i - 2) = Z.of_nat row_i).
Proof.
  apply (compute_inner_block (H := sample_collaborators) sample_after_init).
  split; [reflexivity|]. repeat constructor; eexists; reflexivity.
Defined.

(** C8: the operations [compute()] applies to the matrix are, in this order,
    the insertions of the interior block of every patch, the call of the
    edge builder for every interface, then for every boundary, the call of
    the vertex builder for every vertex group, and the compression; the
    matrix is compressed once, after all of these: no operation follows the
    compression.  The matrix the call leaves is the one these calls build,
    each on the matrix the call before it left. *)
Theorem compute_order `{Collaborators} (s : gsApproxC1Spline) :
  ready s →
  ∃ s',
    compute s = Some (tt, s') ∧
    trace s' = trace s ++ compute_operations s ∧
    (∀ before after,
       compute_operations s = before ++ EvMakeCompressed :: after →
       after = [] ∧ EvMakeCompressed ∉ before) ∧
    sm_compressed (m_matrix s') = true ∧
    m_matrix s' = computed_matrix s.
Proof.
  intros Hready. pose proof Hready as [Hlen _]. unfold compute_operations.
  pose proof (compute_inner_run s Hready) as H1.
  set (s1 := add_entries _ s) in H1.
  destruct (compute_interfaces_run s1) as (s2 & H2 & C2 & T2 & M2).
  destruct (compute_boundaries_run s2) as (s3 & H3 & C3 & T3 & M3).
  destruct (compute_vertices_run s3) as (s4 & H4 & C4 & T4 & M4).
  pose proof (same_core_add_entries
                (interior_entry (m_bases s) <$> interior_indices (m_bases s)) s) as C1.
  fold s1 in C1.
  pose proof (same_core_trans _ _ _ C1 C2) as C12.
  pose proof (same_core_trans _ _ _ C12 C3) as C13.
  pose proof (same_core_trans _ _ _ C13 C4) as C14.
  set (s5 := mkSpline (m_patches s4) (m_multiBasis s4) (m_options s4) (p_tilde s4)
               (r_tilde s4) (m_bases s4) (SparseMatrix.makeCompressed (m_matrix s4))
               (gsInfo_out s4) (trace s4 ++ [EvMakeCompressed])).
  destruct (compute_info_run s5) as (s6 & H6 & T6 & M6).
  { simpl. rewrite (core_bases _ _ C14), (frame_patches _ _ (core_frame _ _ C14)). done. }
  exists s6. split_and!.
  - unfold compute. run_bind ltac:(exact H1). run_bind ltac:(exact H2).
    run_bind ltac:(exact H3). run_bind ltac:(exact H4).
    erewrite bind_run by reflexivity. exact H6.
  - rewrite T6. simpl. rewrite T4, T3, T2.
    rewrite (frame_patches _ _ (core_frame _ _ C13)),
            (frame_patches _ _ (core_frame _ _ C12)),
            (frame_patches _ _ (core_frame _ _ C1)).
    unfold s1, add_entries. simpl. by rewrite <-!(assoc_L (++)).
  - intros before after. rewrite !(assoc_L (++)). apply compressed_last.
    rewrite !not_elem_of_app. unfold insert_events. split_and!;
      by intros (? & ? & _)%list_elem_of_fmap.
  - by rewrite M6.
  - rewrite M6. unfold computed_matrix. fold s1. simpl. f_equal.
    rewrite M4, M3, M2.
    rewrite (frame_patches _ _ (core_frame _ _ C13)),
            (frame_patches _ _ (core_frame _ _ C12)),
            (frame_options _ _ (core_frame _ _ C13)),
            (frame_options _ _ (core_frame _ _ C12)),
            (core_bases _ _ C13), (core_bases _ _ C12).
    done.
Qed.

Lemma compute_order_witness :
  ∃ s',
    compute (H := marking_collaborators) sample_after_init = Some (tt, s') ∧
    trace s' = trace sample_after_init
               ++ compute_operations (H := marking_collaborators) sample_after_init ∧
    (∀ before after,
       compute_operations (H := marking_collaborators) sample_after_init
       = before ++ EvMakeCompressed :: after →
       after = [] ∧ EvMakeCompressed ∉ before) ∧
    sm_compressed (m_matrix s') = true ∧
    m_matrix s' = computed_matrix (H := marking_collaborators) sample_after_init.
Proof.
  apply (compute_order (H := marking_collaborators) sample_after_init).
  split; [reflexivity|]. repeat constructor; eexists; reflexivity.
Defined.

(** The builders of [marking_collaborators] leave their entries behind those
    of the interior block, in the order of the calls: one interface, six
    boundaries, six vertex groups. *)
Example computed_matrix_marked :
  drop (length (sm_entries (m_matrix sample_after_compute)))
       (sm_entries (computed_matrix (H := marking_collaborators) sample_after_init))
  = [(0, 0, 1%Qc);
     (0, 1, 1%Qc); (1, 1, 1%Qc); (2, 1, 1%Qc); (3, 1, 1%Qc); (4, 1, 1%Qc); (5, 1, 1%Qc);
     (0, 2, 1%Qc); (1, 2, 1%Qc); (2, 2, 1%Qc); (3, 2, 1%Qc); (4, 2, 1%Qc); (5, 2, 1%Qc)].
Proof. by vm_compute. Qed.

(** ** The frame of [init()] and [compute()] *)

(** C10: [init()] and [compute()] leave the input geometry [m_patches] and
    the input multi-basis [m_multiBasis] as they found them: every
    adjustment of a basis is applied to a local copy, and only [m_bases],
    [m_matrix] and the output are written. *)
Theorem init_compute_frame `{Collaborators} (s s1 t t1 : gsApproxC1Spline) :
  init s = Some (tt, s1) → compute t = Some (tt, t1) →
  (m_patches s1 = m_patches s ∧ m_multiBasis s1 = m_multiBasis s) ∧
  (m_patches t1 = m_patches t ∧ m_multiBasis t1 = m_multiBasis t).
Proof.
  intros [Hp Hm _ _ _]%preserves_init [Hp' Hm' _ _ _]%preserves_compute. done.
Qed.

Lemma init_compute_frame_witness :
  (m_patches sample_after_init = m_patches sample_spline ∧
   m_multiBasis sample_after_init = m_multiBasis sample_spline) ∧
  (m_patches sample_after_compute = m_patches sample_after_init ∧
   m_multiBasis sample_after_compute = m_multiBasis sample_after_init).
Proof.
  apply (init_compute_frame (H := sample_collaborators)
           sample_spline sample_after_init sample_after_init sample_after_compute);
    vm_compute; reflexivity.
Defined.

(** ** The classification of the vertices in [init()] *)

Lemma patchCorner_eta c : mkPatchCorner (patch c) (m_index c) = c.
Proof. by destruct c. Qed.

(** The two statements every branch ends with: the vertex basis and the
    kind of vertex are recorded for one corner, and nothing else changes. *)
Lemma assign_vertex_spec p v basis kind s s' :
  (update_basis p (C1Basis.setVertexBasis basis v);;
   update_basis p (C1Basis.setKindOfVertex kind v)) s = Some (tt, s') →
  frame s s' ∧
  ∀ c',
    kind_at s' c'
      = (if decide (c' = mkPatchCorner p v) then Some kind else kind_at s c') ∧
    vertex_basis_at s' c'
      = (if decide (c' = mkPatchCorner p v) then Some basis else vertex_basis_at s c').
Proof.
  intros ([] & s1 & (c & Hc & ->)%update_basis_inv & (c1 & Hc1 & ->)%update_basis_inv)%bind_inv.
  split; [by constructor|].
  simpl in Hc1. rewrite list_lookup_insert_eq in Hc1 by (by eapply lookup_lt_Some).
  injection Hc1 as <-.
  intros [p' v']. unfold kind_at, vertex_basis_at. simpl.
  rewrite list_insert_insert_eq.
  destruct (decide (p' = p)) as [->|Hp].
  - rewrite list_lookup_insert_eq by (by eapply lookup_lt_Some).
    rewrite Hc. simpl. destruct (decide (v' = v)) as [->|Hv].
    + rewrite !decide_True by done. by rewrite !lookup_insert_eq.
    + rewrite !decide_False by congruence. by rewrite !lookup_insert_ne.
  - rewrite list_lookup_insert_ne by done. by rewrite !decide_False by congruence.
Qed.

Lemma init_shared_corner_spec kind p v s s' :
  init_shared_corner kind p v s = Some (tt, s') →
  frame s s' ∧
  ∃ b, m_multiBasis s !! p = Some b ∧
  ∀ c',
    kind_at s' c'
      = (if decide (c' = mkPatchCorner p v) then Some kind else kind_at s c') ∧
    vertex_basis_at s' c'
      = (if decide (c' = mkPatchCorner p v)
         then Some (elevate_vertex_basis (p_tilde s) (r_tilde s)
                      (discreteRegularity (m_options s)) b)
         else vertex_basis_at s c').
Proof.
  unfold init_shared_corner.
  intros (s0 & ? & [= <- <-] & (b & ? & [Hb ->]%lift_inv & Hrun)%bind_inv)%bind_inv.
  apply assign_vertex_spec in Hrun as [Hframe Hat]. split; [done|]. by exists b.
Qed.

(** The loop over the corners of a group shared by several patches. *)
Lemma init_shared_group_spec kind (g : list patchCorner) s s' :
  for_each g (λ c, init_shared_corner kind (patch c) (m_index c)) s = Some (tt, s') →
  frame s s' ∧
  ∀ c',
    (c' ∈ g →
       kind_at s' c' = Some kind ∧
       ∃ b, m_multiBasis s !! patch c' = Some b ∧
            vertex_basis_at s' c'
            = Some (elevate_vertex_basis (p_tilde s) (r_tilde s)
                      (discreteRegularity (m_options s)) b)) ∧
    (c' ∉ g →
       kind_at s' c' = kind_at s c' ∧ vertex_basis_at s' c' = vertex_basis_at s c').
Proof.
  revert s. induction g as [|c0 g IH]; intros s.
  - intros [= <-]. split; [apply frame_refl|]. intros c'. split; [|done].
    by intros ?%elem_of_nil.
  - cbn [for_each]. intros ([] & s1 & H0 & Hrest)%bind_inv.
    apply init_shared_corner_spec in H0 as (F0 & b0 & Hb0 & Hat0).
    apply IH in Hrest as (F1 & Hat1).
    split; [by eapply frame_trans|]. intros c'.
    destruct (Hat0 c') as [Hk0 Hv0]. destruct (Hat1 c') as [Hin1 Hout1].
    rewrite patchCorner_eta in Hk0, Hv0.
    destruct F0 as [_ FM FO FP FR]. rewrite FM, FO, FP, FR in Hin1.
    destruct (decide (c' ∈ g)) as [Hg|Hg].
    + split; [intros _; by apply Hin1|]. intros Hn. exfalso. apply Hn. by right.
    + destruct (Hout1 Hg) as [-> ->]. split.
      * intros [->|?]%elem_of_cons; [|done].
        rewrite decide_True in Hk0 by done. rewrite decide_True in Hv0 by done.
        split; [done|]. by exists b0.
      * intros [Hne _]%not_elem_of_cons.
        rewrite decide_False in Hk0 by done. by rewrite decide_False in Hv0 by done.
Qed.

Lemma vertex_kind_range n k z :
  vertex_kind n k = Some z → z = -1 ∨ z = 0 ∨ z = 1.
Proof. unfold vertex_kind. repeat case_decide; naive_solver. Qed.

Section Vertices.
Context `{Collaborators}.

(** One round of the loop over the vertex groups. *)
Lemma init_vertex_spec (g : list patchCorner) s s' :
  init_vertex g s = Some (tt, s') →
  frame s s' ∧
  ∀ c',
    (c' ∈ g →
       kind_at s' c'
       = match vertex_kind (length g) (group_interfaces (m_patches s) g) with
         | Some k => Some k
         | None => kind_at s c'
         end) ∧
    (c' ∈ g → (1 < length g)%nat →
       (group_interfaces (m_patches s) g ≤ length g)%nat →
       ∃ b, m_multiBasis s !! patch c' = Some b ∧
            vertex_basis_at s' c'
            = Some (elevate_vertex_basis (p_tilde s) (r_tilde s)
                      (discreteRegularity (m_options s)) b)) ∧
    (c' ∉ g → kind_at s' c' = kind_at s c').
Proof.
  unfold init_vertex. intros (s0 & ? & [= <- <-] & Hrun)%bind_inv.
  rewrite length_fmap in Hrun. unfold vertex_kind.
  case_bool_decide as H1.
  - (* exactly one corner *)
    destruct g as [|c0 [|]]; try done. simpl in Hrun.
    apply bind_inv in Hrun as (p & ? & [[= <-] ->]%lift_inv & Hrun).
    apply bind_inv in Hrun as (v & ? & [[= <-] ->]%lift_inv & Hrun).
    apply bind_inv in Hrun as (b & ? & [Hb ->]%lift_inv & Hrun).
    apply assign_vertex_spec in Hrun as [Hframe Hat]. split; [done|].
    intros c'. destruct (Hat c') as [Hk _]. rewrite patchCorner_eta in Hk.
    rewrite decide_True by done. split_and!.
    + intros ->%list_elem_of_singleton. by rewrite decide_True in Hk.
    + simpl. lia.
    + intros Hne%not_elem_of_cons. by rewrite decide_False in Hk by tauto.
  - rewrite decide_False by done. case_bool_decide as H2.
    + (* several corners *)
      rewrite decide_True by done.
      apply bind_inv in Hrun as (temp_mp & ? & [Htemp ->]%lift_inv & Hrun).
      unfold group_interfaces. rewrite Htemp. simpl.
      case_bool_decide as H3; [|case_bool_decide as H4].
      * rewrite decide_True by done.
        apply init_shared_group_spec in Hrun as [Hframe Hat]. split; [done|].
        intros c'. destruct (Hat c') as [Hin Hout]. split_and!.
        -- intros Hc. by apply Hin.
        -- intros Hc _ _. by apply Hin.
        -- intros Hc. by apply Hout.
      * rewrite decide_False by done. rewrite decide_True by done.
        apply init_shared_group_spec in Hrun as [Hframe Hat]. split; [done|].
        intros c'. destruct (Hat c') as [Hin Hout]. split_and!.
        -- intros Hc. by apply Hin.
        -- intros Hc _ _. by apply Hin.
        -- intros Hc. by apply Hout.
      * rewrite !decide_False by done. injection Hrun as <-.
        split; [apply frame_refl|]. intros c'. split_and!; [done| |done].
        intros _ _ Hle. exfalso. lia.
    + rewrite decide_False by done. injection Hrun as <-.
      split; [apply frame_refl|]. intros c'. split_and!; [done| |done].
      intros _ Hlt. exfalso. lia.
Qed.

(** The loop over the vertex groups: a corner keeps the kind its own group
    gave it, no group touches the corners of another. *)
Lemma init_vertex_loop_spec (gs : list (list patchCorner)) s s' :
  for_each gs init_vertex s = Some (tt, s') →
  NoDup (concat gs) →
  frame s s' ∧
  ∀ c',
    (∀ g, g ∈ gs → c' ∈ g →
       kind_at s' c'
       = match vertex_kind (length g) (group_interfaces (m_patches s) g) with
         | Some k => Some k
         | None => kind_at s c'
         end) ∧
    (c' ∉ concat gs → kind_at s' c' = kind_at s c').
Proof.
  revert s. induction gs as [|g0 gs IH]; intros s.
  - intros [= <-] _. split; [apply frame_refl|]. intros c'. split; [|done].
    by intros g ?%elem_of_nil.
  - cbn [for_each concat]. intros ([] & s1 & H0 & Hrest)%bind_inv.
    intros (Hnd0 & Hdisj & Hnd)%NoDup_app.
    apply init_vertex_spec in H0 as (F0 & Hat0).
    apply IH in Hrest as (F1 & Hat1); [|done].
    split; [by eapply frame_trans|]. intros c'.
    destruct (Hat0 c') as (Hin0 & _ & Hout0). destruct (Hat1 c') as [Hin1 Hout1].
    rewrite (frame_patches _ _ F0) in Hin1. split.
    + intros g [->|Hg]%elem_of_cons Hc.
      * rewrite Hout1 by (by apply Hdisj). by apply Hin0.
      * rewrite (Hin1 g Hg Hc). rewrite Hout0; [done|].
        intros Hc0. apply (Hdisj c' Hc0). apply list_elem_of_bind. by exists g.
    + intros [Hn0 Hn]%not_elem_of_app. by rewrite Hout1, Hout0.
Qed.

End Vertices.

(** C2 as stated fails: on the sphere of three lunes the three corners at
    the north pole form a group of 3 corners whose patches have 6 interfaces;
    [init()] gives the corner of patch 0 no kind, where the classification
    as worded gives it kind 1. *)
Lemma vertex_kinds_counterexample :
  init (H := lune_collaborators) lune_spline = Some (tt, lune_after_init) ∧
  ¬ vertex_kinds_as_claimed (H := lune_collaborators) lune_spline lune_after_init.
Proof.
  split; [vm_compute; reflexivity|]. intros Hclaim.
  specialize (Hclaim north_pole (mkPatchCorner 0 1)).
  assert (Hk : kind_at lune_after_init (mkPatchCorner 0 1) = None) by reflexivity.
  rewrite Hclaim in Hk; [discriminate|by left|by left].
Qed.

(** C2, amended: in [init()] the loop over the vertex groups (of a topology
    that lists every corner once) gives the corners of a group with exactly
    one corner the kind -1; of a group with several corners the kind 0 when
    the number of corners equals the number of interfaces of the temporary
    multi-patch of its patches, and the kind 1 when it exceeds that number;
    when the corners are fewer than these interfaces it assigns no kind and
    the corner keeps what it had.  A kind assigned is one of -1, 0, 1. *)
Theorem init_vertices_kinds `{Collaborators} (s s' : gsApproxC1Spline)
    (g : list patchCorner) (c : patchCorner) :
  init_vertices s = Some (tt, s') →
  NoDup (concat (vertices (m_patches s))) →
  g ∈ vertices (m_patches s) → c ∈ g →
  let n := length g in
  let k := group_interfaces (m_patches s) g in
  (n = 1%nat → kind_at s' c = Some (-1)) ∧
  (n ≠ 1%nat → n = k → kind_at s' c = Some 0) ∧
  (n ≠ 1%nat → (k < n)%nat → kind_at s' c = Some 1) ∧
  (n ≠ 1%nat → (n < k)%nat → kind_at s' c = kind_at s c) ∧
  (∀ z, vertex_kind n k = Some z → kind_at s' c = Some z ∧ (z = -1 ∨ z = 0 ∨ z = 1)).
Proof.
  unfold init_vertices. intros (s0 & ? & [= <- <-] & Hrun)%bind_inv Hnd Hg Hc.
  assert (length g ≠ 0%nat) by (destruct g; [by apply elem_of_nil in Hc|done]).
  set (n := length g) in *. set (k := group_interfaces (m_patches s) g).
  apply init_vertex_loop_spec in Hrun as [_ Hat]; [|done].
  destruct (Hat c) as [Hin _]. specialize (Hin g Hg Hc). fold n k in Hin.
  clearbody n k.
  unfold vertex_kind in *. split_and!.
  - intros Hn. by rewrite decide_True in Hin.
  - intros Hn Hk. rewrite decide_False, decide_True in Hin by (done || lia).
    by rewrite decide_True in Hin.
  - intros Hn Hk. rewrite decide_False, decide_True in Hin by (done || lia).
    rewrite decide_False, decide_True in Hin by (done || lia). done.
  - intros Hn Hk. rewrite decide_False, decide_True in Hin by (done || lia).
    rewrite !decide_False in Hin by lia. done.
  - intros z Hz. rewrite Hz in Hin. split; [done|].
    by apply (vertex_kind_range n k).
Qed.

Lemma init_vertices_kinds_witness :
  let g := [mkPatchCorner 0 2; mkPatchCorner 1 1] in
  let c := mkPatchCorner 0 2 in
  let n := length g in
  let k := group_interfaces (H := sample_collaborators)
             (m_patches sample_before_vertices) g in
  (n = 1%nat → kind_at sample_after_vertices c = Some (-1)) ∧
  (n ≠ 1%nat → n = k → kind_at sample_after_vertices c = Some 0) ∧
  (n ≠ 1%nat → (k < n)%nat → kind_at sample_after_vertices c = Some 1) ∧
  (n ≠ 1%nat → (n < k)%nat →
     kind_at sample_after_vertices c = kind_at sample_before_vertices c) ∧
  (∀ z, vertex_kind n k = Some z →
     kind_at sample_after_vertices c = Some z ∧ (z = -1 ∨ z = 0 ∨ z = 1)).
Proof.
  apply (init_vertices_kinds (H := sample_collaborators)
           sample_before_vertices sample_after_vertices
           [mkPatchCorner 0 2; mkPatchCorner 1 1] (mkPatchCorner 0 2)).
  - vm_compute. reflexivity.
  - apply (bool_decide_unpack _). vm_compute. exact I.
  - apply (bool_decide_unpack _). vm_compute. exact I.
  - apply (bool_decide_unpack _). vm_compute. exact I.
Defined.

(** ** The vertex basis of a vertex shared by several patches *)

Lemma add_mult_0 km : add_mult 0 km = km.
Proof. destruct km as [x m]. unfold add_mult. simpl. f_equal. lia. Qed.

Lemma add_mult_add i j km : add_mult j (add_mult i km) = add_mult (i + j) km.
Proof. unfold add_mult. simpl. f_equal. lia. Qed.

Lemma list_shape {A : Type} (l : list A) :
  l = [] ∨ (∃ x, l = [x]) ∨ ∃ x mid y, l = x :: mid ++ [y].
Proof.
  destruct l as [|x [|y l]]; [by left|right; left; by exists x|].
  right. right. apply split_ends. simpl. lia.
Qed.

Lemma on_interior_fmap_ends {A : Type} (f : A → A) x mid y :
  on_interior (λ a, [f a]) (x :: mid ++ [y]) = x :: (f <$> mid) ++ [y].
Proof.
  by rewrite on_interior_ends, bind_singleton_fmap.
Qed.

Lemma increaseMultiplicity_0 kv : increaseMultiplicity 0 kv = kv.
Proof.
  destruct kv as [d ks]. unfold increaseMultiplicity. simpl. f_equal.
  destruct (list_shape ks) as [->|[[x ->]|(x & mid & y & ->)]]; [done..|].
  rewrite on_interior_fmap_ends. do 2 f_equal.
  rewrite <-(list_fmap_id mid) at 2. apply list_fmap_ext. intros _ km _.
  apply add_mult_0.
Qed.

Lemma increaseMultiplicity_add i j kv :
  increaseMultiplicity j (increaseMultiplicity i kv) = increaseMultiplicity (i + j) kv.
Proof.
  destruct kv as [d ks]. unfold increaseMultiplicity. simpl. f_equal.
  destruct (list_shape ks) as [->|[[x ->]|(x & mid & y & ->)]]; [done..|].
  rewrite !on_interior_fmap_ends. do 2 f_equal.
  rewrite <-list_fmap_compose. apply list_fmap_ext. intros _ km _.
  apply add_mult_add.
Qed.

(** The statements on the local copy, in one: the degree is elevated by
    [p_tilde - 1] in both directions and the continuity lowered by
    [continuity_drop r r_tilde]. *)
Lemma elevate_vertex_basis_eq p_tilde r_tilde r b :
  let f kv := increaseMultiplicity (continuity_drop r r_tilde)
                (degreeElevate (p_tilde - 1) kv) in
  elevate_vertex_basis p_tilde r_tilde r b = mkTensorBasis (f (knots_0 b)) (f (knots_1 b)).
Proof.
  unfold elevate_vertex_basis, continuity_drop, TB.degreeElevate, TB.on_component,
    TB.reduceContinuity, BSplineBasis.reduceContinuity. simpl.
  destruct (decide (r = 1)) as [Hr|Hr];
    [rewrite (bool_decide_eq_false_2 (r ≠ 1)) by tauto
    |rewrite (bool_decide_eq_true_2 (r ≠ 1)) by done];
    (destruct (decide (r_tilde < r - 1));
     [rewrite (bool_decide_eq_true_2 (r_tilde < r - 1)) by done
     |rewrite (bool_decide_eq_false_2 (r_tilde < r - 1)) by done]);
    simpl; rewrite ?increaseMultiplicity_add, ?Z.add_0_r, ?increaseMultiplicity_0;
    done.
Qed.

(** What this does to a valid knot vector. *)
Lemma elevated_knot_vector (e d : Z) kv :
  valid kv →
  let kv' := increaseMultiplicity d (degreeElevate e kv) in
  degree kv' = degree kv + e ∧ unique kv' = unique kv ∧
  interior (multiplicities kv') = (λ m, m + e + d) <$> interior (multiplicities kv) ∧
  head (multiplicities kv') = Some (degree kv' + 1) ∧
  last (multiplicities kv') = Some (degree kv' + 1).
Proof.
  intros (x0 & mid & x1 & Hk & _)%valid_shape kv'.
  assert (Hk' : m_knots kv' = (x0, m_deg kv + 1 + e)
                  :: (add_mult d <$> (add_mult e <$> mid)) ++ [(x1, m_deg kv + 1 + e)]).
  { unfold kv'. erewrite increaseMultiplicity_shape; [done|].
    unfold degreeElevate. simpl. by rewrite Hk, fmap_cons, fmap_app. }
  unfold degree, unique, multiplicities. rewrite Hk, Hk'.
  rewrite !fmap_cons, !fmap_app. cbn [fmap list_fmap fst snd head].
  rewrite !interior_ends, !last_ends, <-!list_fmap_compose.
  change (m_deg kv') with (m_deg kv + e). split_and!.
  - done.
  - do 2 f_equal.
  - apply list_fmap_ext. intros _ [x m] _. simpl. done.
  - f_equal. lia.
  - f_equal. lia.
Qed.

(** C6 as stated fails: for the two patches glued along one side, with
    discrete regularity [r = 1] and the bicubic C1 basis, [init()] classifies
    corner 2 of patch 0 as interface-boundary vertex and assigns it a basis
    of degree 5 with interior multiplicity 4, that is continuity 1 and not
    the continuity [r - 1 = 0] of the rule as worded. *)
Lemma vertex_basis_counterexample :
  init (H := sample_collaborators) sample_spline = Some (tt, sample_after_init) ∧
  m_multiBasis sample_spline !! 0%nat = Some sample_basis ∧
  kind_at sample_after_init (mkPatchCorner 0 2) = Some 1 ∧
  ∃ b', vertex_basis_at sample_after_init (mkPatchCorner 0 2) = Some b' ∧
        ¬ vertex_basis_as_claimed 3 1 1 sample_basis b'.
Proof.
  split; [vm_compute; reflexivity|]. split; [reflexivity|]. split; [reflexivity|].
  eexists. split; [reflexivity|]. intros Hclaim.
  destruct (Hclaim 0 (or_introl eq_refl)) as [_ Hall].
  vm_compute in Hall. inversion Hall as [|? ? Hm _]. discriminate Hm.
Qed.

(** C6, amended: for a vertex group with several corners that [init()]
    classifies as internal or interface-boundary, the vertex basis assigned
    to each of its corners is the basis of the patch in [m_multiBasis],
    degree-elevated by [p_tilde - 1] in both directions, its continuity then
    lowered by 1 when [r ≠ 1] (not when [r = 1]) and by a further
    [r - r_tilde - 1] when [r_tilde < r - 1]: each interior multiplicity of a
    direction grows by [p_tilde - 1] plus this drop of continuity. *)
Theorem init_vertex_basis `{Collaborators} (s s' : gsApproxC1Spline)
    (g : list patchCorner) (c : patchCorner) :
  init_vertex g s = Some (tt, s') →
  c ∈ g → (1 < length g)%nat →
  (group_interfaces (m_patches s) g ≤ length g)%nat →
  let r := discreteRegularity (m_options s) in
  let drop := (if decide (r = 1) then 0 else 1)
              + (if decide (r_tilde s < r - 1) then r - r_tilde s - 1 else 0) in
  ∃ b b',
    m_multiBasis s !! patch c = Some b ∧
    vertex_basis_at s' c = Some b' ∧
    (kind_at s' c = Some 0 ∨ kind_at s' c = Some 1) ∧
    ∀ dir, dir = 0 ∨ dir = 1 →
      let kv := TB.component b dir in
      let kv' := TB.component b' dir in
      kv' = increaseMultiplicity drop (degreeElevate (p_tilde s - 1) kv) ∧
      (valid kv →
         degree kv' = degree kv + (p_tilde s - 1) ∧
         unique kv' = unique kv ∧ clamped kv' ∧
         interior (multiplicities kv')
         = (λ m, m + (p_tilde s - 1) + drop) <$> interior (multiplicities kv)).
Proof.
  intros Hrun Hc Hlen Hk.
  apply init_vertex_spec in Hrun as [_ Hat].
  destruct (Hat c) as (Hkind & Hbasis & _).
  destruct (Hbasis Hc Hlen Hk) as (b & Hb & Hb').
  specialize (Hkind Hc). intros r drop.
  exists b, (elevate_vertex_basis (p_tilde s) (r_tilde s) r b).
  split_and!; [done|done| |].
  - unfold vertex_kind in Hkind.
    rewrite decide_False, decide_True in Hkind by lia.
    destruct (decide (length g = group_interfaces (m_patches s) g)); [by left|].
    rewrite decide_True in Hkind by lia. by right.
  - intros dir Hdir kv kv'.
    assert (Heq : kv' = increaseMultiplicity drop (degreeElevate (p_tilde s - 1) kv)).
    { unfold kv', kv. rewrite elevate_vertex_basis_eq.
      unfold TB.component. by destruct Hdir as [-> | ->]. }
    split; [done|]. intros Hv. rewrite Heq.
    destruct (elevated_knot_vector (p_tilde s - 1) drop kv Hv) as (? & ? & ? & ? & ?).
    by split_and!.
Qed.

Lemma init_vertex_basis_witness :
  let s := sample_before_vertices in
  let g := [mkPatchCorner 0 2; mkPatchCorner 1 1] in
  let c := mkPatchCorner 0 2 in
  let s' := match init_vertex (H := sample_collaborators) g s with
            | Some (_, s') => s'
            | None => s
            end in
  let r := discreteRegularity (m_options s) in
  let drop := (if decide (r = 1) then 0 else 1)
              + (if decide (r_tilde s < r - 1) then r - r_tilde s - 1 else 0) in
  ∃ b b',
    m_multiBasis s !! patch c = Some b ∧
    vertex_basis_at s' c = Some b' ∧
    (kind_at s' c = Some 0 ∨ kind_at s' c = Some 1) ∧
    ∀ dir, dir = 0 ∨ dir = 1 →
      let kv := TB.component b dir in
      let kv' := TB.component b' dir in
      kv' = increaseMultiplicity drop (degreeElevate (p_tilde s - 1) kv) ∧
      (valid kv →
         degree kv' = degree kv + (p_tilde s - 1) ∧
         unique kv' = unique kv ∧ clamped kv' ∧
         interior (multiplicities kv')
         = (λ m, m + (p_tilde s - 1) + drop) <$> interior (multiplicities kv)).
Proof.
  intros s g c s'.
  apply (init_vertex_basis (H := sample_collaborators) s s' g c).
  - vm_compute. reflexivity.
  - apply (bool_decide_unpack _). vm_compute. exact I.
  - simpl. lia.
  - vm_compute. lia.
Defined.

(** For a discrete regularity above [r_tilde + 1] the second reduction goes
    down by [r - r_tilde - 1], not to it: a biquintic C4 basis with [r = 4],
    [p_tilde = 3] and [r_tilde = 1] ends with continuity 1 in both
    directions. *)
Example elevate_quintic_C4 :
  let kv := mkKnotVector 5 [(0%Qc, 6); (one_half, 1); (1%Qc, 6)] in
  let b' := elevate_vertex_basis 3 1 4 (mkTensorBasis kv kv) in
  TB.degree b' 0 = 7 ∧ interior (multiplicities (TB.component b' 0)) = [6] ∧
  claimed_vertex_continuity 4 1 = 2.
Proof. by vm_compute. Qed.

(** ** The loop of [constructAndSolveEquationSystem_2] *)

Lemma fold_opt_inv {A S : Type} (P : S → Prop) (l : list A)
    (body : A → S → option S) (acc : S) :
  (∀ x acc, x ∈ l → P acc → ∃ acc', body x acc = Some acc' ∧ P acc') →
  P acc → ∃ acc', fold_opt l body acc = Some acc' ∧ P acc'.
Proof.
  revert acc. induction l as [|x l IH]; intros acc Hbody Hacc; [by exists acc|].
  destruct (Hbody x acc) as (acc1 & Hx & Hacc1); [by left|done|].
  simpl. rewrite Hx. simpl. apply IH; [|done].
  intros y acc2 Hy. apply Hbody. by right.
Qed.

Section SolverFacts.
Context {T mesh : Type}.
Context (one one_half : T) (add mul : T → T → T) (zero : T).
Context (getLambdas : nat → list T).
Context (createFlatMesh : list (Point2D T) → mesh).
Implicit Types (LHS m : gsMatrix T) (pts : list (Point2D T)) (st : solver_state T mesh).

#[local] Abbreviation round := (solver_round add mul zero createFlatMesh).
#[local] Abbreviation loop := (solver_loop add mul zero createFlatMesh).

Lemma store_points_length (n : nat) m pts :
  (n ≤ length pts)%nat →
  ∃ pts', fold_opt (seq 0 n) (λ i pts, store_point i (m i 0%nat) (m i 1%nat) pts) pts
          = Some pts' ∧ length pts' = length pts.
Proof.
  intros Hn.
  apply (fold_opt_inv (λ pts', length pts' = length pts)); [|done].
  intros i acc Hi%elem_of_seq Hlen. unfold store_point.
  destruct (lookup_lt_is_Some_2 acc i) as [p Hp]; [lia|].
  rewrite Hp. simpl. eexists. split; [done|]. by rewrite length_insert.
Qed.

Lemma solver_round_spec (n N : nat) LHS (k : nat) st :
  (n ≤ length (m_parameterPoints st))%nat →
  ∃ st', round n N LHS k st = Some st' ∧
    rounds st' = S (rounds st) ∧
    RHS st' = product add mul zero N LHS (RHS st) ∧
    sol st' = Some (RHS st') ∧
    length (m_parameterPoints st') = length (m_parameterPoints st).
Proof.
  intros Hn. unfold solver_round.
  destruct (store_points_length n (product add mul zero N LHS (RHS st)) _ Hn)
    as (pts' & -> & Hlen).
  simpl. eexists. split; [done|]. by simpl.
Qed.

(** From round [k] on the loop executes its body [101 - k] more times and
    then leaves. *)
Lemma solver_loop_spec (n N : nat) LHS (fuel k : nat) st :
  (k ≤ 101)%nat → (101 - k < fuel)%nat →
  (n ≤ length (m_parameterPoints st))%nat →
  ∃ st', loop fuel n N LHS k st = Some st' ∧
    rounds st' = (rounds st + (101 - k))%nat ∧
    RHS st' = Nat.iter (101 - k) (product add mul zero N LHS) (RHS st).
Proof.
  revert k st. induction fuel as [|fuel IH]; intros k st Hk Hfuel Hn; [lia|].
  simpl. case_bool_decide as Hle.
  - destruct (solver_round_spec n N LHS k st Hn) as (st1 & -> & Hr & HR & _ & Hlen).
    simpl. destruct (IH (k + 1)%nat st1) as (st' & -> & Hr' & HR'); [lia..|].
    exists st'. split; [done|]. rewrite Hr', HR', Hr, HR.
    replace (101 - k)%nat with (S (101 - (k + 1))) by lia.
    split; [lia|]. by rewrite Nat.iter_succ_r.
  - exists st. replace (101 - k)%nat with 0%nat by lia. split; [done|].
    split; [lia|done].
Qed.

Lemma setup_inner_runs (n N : nat) (acc : gsMatrix T * gsMatrix T) :
  (∀ i, (i < n)%nat → (N ≤ length (getLambdas i))%nat) →
  is_Some (setup_inner one_half getLambdas n N acc).
Proof.
  intros Hl. unfold setup_inner.
  destruct (fold_opt_inv (λ _, True) (seq 0 n)
    (λ i acc, fold_opt (seq 0 N) (λ j '(LHS, RHS),
       l ← getLambdas i !! j;
       Some (set_entry LHS i j l,
             set_entry (set_entry RHS i 0%nat one_half) i 1%nat one_half)) acc) acc)
    as (acc' & Hacc' & _); [|done|by rewrite Hacc'].
  intros i acc1 Hi%elem_of_seq _.
  apply (fold_opt_inv (λ _, True)); [|done].
  intros j [LHS RHS] Hj%elem_of_seq _.
  destruct (lookup_lt_is_Some_2 (getLambdas i) j) as [l Hl']; [|rewrite Hl'; eauto].
  specialize (Hl i). lia.
Qed.

Lemma setup_boundary_runs (n N : nat) pts (acc : gsMatrix T * gsMatrix T) :
  (N ≤ length pts)%nat → is_Some (setup_boundary one n N pts acc).
Proof.
  intros Hp. unfold setup_boundary.
  destruct (fold_opt_inv (λ _, True) (seq n (N - n))
    (λ i '(LHS, RHS),
       p ← pts !! i;
       Some (set_entry LHS i i one,
             set_entry (set_entry RHS i 0%nat (px p)) i 1%nat (py p))) acc)
    as (acc' & Hacc' & _); [|done|by rewrite Hacc'].
  intros i [LHS RHS] Hi%elem_of_seq _.
  destruct (lookup_lt_is_Some_2 pts i) as [p Hp']; [lia|rewrite Hp'; eauto].
Qed.

(** The whole function: it returns, after 101 rounds of [sol = LHS * RHS;
    RHS = sol] on the matrices of the set-up. *)
Lemma solver_spec (n N : nat) (LHS0 RHS0 : gsMatrix T) pts :
  (n ≤ N)%nat → (N ≤ length pts)%nat →
  (∀ i, (i < n)%nat → (N ≤ length (getLambdas i))%nat) →
  ∃ LHS1 RHS1 LHS2 RHS2 st,
    setup_inner one_half getLambdas n N (LHS0, RHS0) = Some (LHS1, RHS1) ∧
    setup_boundary one n N pts (LHS1, RHS1) = Some (LHS2, RHS2) ∧
    constructAndSolveEquationSystem_2 one one_half add mul zero getLambdas
      createFlatMesh n N LHS0 RHS0 pts = Some st ∧
    rounds st = 101%nat ∧
    RHS st = Nat.iter 101 (product add mul zero N LHS2) RHS2.
Proof.
  intros HnN Hp Hl. unfold constructAndSolveEquationSystem_2.
  destruct (setup_inner_runs n N (LHS0, RHS0) Hl) as [[LHS1 RHS1] E1].
  rewrite E1. cbn [mbind option_bind].
  destruct (setup_boundary_runs n N pts (LHS1, RHS1) Hp) as [[LHS2 RHS2] E2].
  rewrite E2. cbn [mbind option_bind].
  destruct (solver_loop_spec n N LHS2 102 0 (mkSolver None RHS2 pts [] 0))
    as (st & Hst & Hr & HR); [lia..|simpl; lia|].
  exists LHS1, RHS1, LHS2, RHS2, st.
  split_and!; [done|done|exact Hst|exact Hr|exact HR].
Qed.

End SolverFacts.

(** C9 as stated fails: on a mesh neighbourhood with one interior and two
    boundary points the loop does not execute 100 rounds. *)
Lemma solver_rounds_counterexample :
  ¬ executes_rounds 100
      (constructAndSolveEquationSystem_2 1%Qc one_half Qcplus Qcmult 0%Qc
         sample_lambdas sample_flat_mesh 1 3 sample_matrix sample_matrix sample_points).
Proof.
  intros (st & Hst & Hrounds).
  destruct (solver_spec 1%Qc one_half Qcplus Qcmult 0%Qc sample_lambdas
              sample_flat_mesh 1 3 sample_matrix sample_matrix sample_points)
    as (_ & _ & _ & _ & st' & _ & _ & Hst' & Hrounds' & _);
    [lia|simpl; lia|intros; simpl; lia|].
  rewrite Hst in Hst'. injection Hst' as <-. lia.
Qed.

(** C9, amended: for every mesh neighbourhood (with [n] interior points
    among [N] points, weights and parameter points for all of them)
    [constructAndSolveEquationSystem_2] returns after exactly 101 rounds
    ([k] from 0 to 100 inclusive) of the update [sol = LHS * RHS; RHS = sol]:
    the number of rounds does not depend on the input, and the final [RHS]
    is the 101-fold product of [LHS] with the [RHS] of the set-up. *)
Theorem solver_runs_101_rounds {T mesh : Type}
    (one one_half : T) (add mul : T → T → T) (zero : T)
    (getLambdas : nat → list T) (createFlatMesh : list (Point2D T) → mesh)
    (n N : nat) (LHS0 RHS0 : gsMatrix T) (pts : list (Point2D T)) :
  (n ≤ N)%nat → (N ≤ length pts)%nat →
  (∀ i, (i < n)%nat → (N ≤ length (getLambdas i))%nat) →
  executes_rounds 101
    (constructAndSolveEquationSystem_2 one one_half add mul zero getLambdas
       createFlatMesh n N LHS0 RHS0 pts) ∧
  ∃ LHS1 RHS1 LHS2 RHS2 st,
    setup_inner one_half getLambdas n N (LHS0, RHS0) = Some (LHS1, RHS1) ∧
    setup_boundary one n N pts (LHS1, RHS1) = Some (LHS2, RHS2) ∧
    constructAndSolveEquationSystem_2 one one_half add mul zero getLambdas
      createFlatMesh n N LHS0 RHS0 pts = Some st ∧
    RHS st = Nat.iter 101 (product add mul zero N LHS2) RHS2.
Proof.
  intros HnN Hp Hl.
  destruct (solver_spec one one_half add mul zero getLambdas createFlatMesh
              n N LHS0 RHS0 pts HnN Hp Hl)
    as (LHS1 & RHS1 & LHS2 & RHS2 & st & E1 & E2 & Hst & Hr & HR).
  split; [by exists st|]. by exists LHS1, RHS1, LHS2, RHS2, st.
Qed.

Lemma solver_runs_101_rounds_witness :
  executes_rounds 101
    (constructAndSolveEquationSystem_2 1%Qc one_half Qcplus Qcmult 0%Qc
       sample_lambdas sample_flat_mesh 1 3 sample_matrix sample_matrix sample_points) ∧
  ∃ LHS1 RHS1 LHS2 RHS2 st,
    setup_inner one_half sample_lambdas 1 3 (sample_matrix, sample_matrix)
      = Some (LHS1, RHS1) ∧
    setup_boundary 1%Qc 1 3 sample_points (LHS1, RHS1) = Some (LHS2, RHS2) ∧
    constructAndSolveEquationSystem_2 1%Qc one_half Qcplus Qcmult 0%Qc
      sample_lambdas sample_flat_mesh 1 3 sample_matrix sample_matrix sample_points
      = Some st ∧
    RHS st = Nat.iter 101 (product Qcplus Qcmult 0%Qc 3 LHS2) RHS2.
Proof.
  apply (solver_runs_101_rounds 1%Qc one_half Qcplus Qcmult 0%Qc sample_lambdas
           sample_flat_mesh 1 3 sample_matrix sample_matrix sample_points);
    [ lia | simpl; lia | intros; simpl; lia ].
Defined.

(** * Facts about the parametrization functions *)

(** ** Arithmetic on sizes and scalars *)

Lemma to_size_t_small (x : Z) : 0 ≤ x < 2 ^ 64 → to_size_t x = x.
Proof. intros Hx. unfold to_size_t. by apply Z.mod_small. Qed.

Lemma to_size_t_negative (x : Z) : - 2 ^ 64 ≤ x < 0 → to_size_t x = x + 2 ^ 64.
Proof.
  intros Hx. unfold to_size_t.
  rewrite <- (Z.mod_add x 1 (2 ^ 64)) by done.
  rewrite Z.mod_small; lia.
Qed.

Lemma vec_at_lookup {A : Type} (v : list A) (k : nat) :
  vec_at v (Z.of_nat k) = v !! k.
Proof.
  unfold vec_at. case_decide as H; [by rewrite Nat2Z.id|].
  symmetry. apply lookup_ge_None. lia.
Qed.

Lemma vec_at_Some {A : Type} (v : list A) (i : Z) (x : A) :
  vec_at v i = Some x ↔ 0 ≤ i ∧ v !! Z.to_nat i = Some x.
Proof.
  unfold vec_at. case_decide as H.
  - split; [intros Hx; split; [lia|done]|by intros [_ Hx]].
  - split; [done|]. intros [Hi Hx]. apply lookup_lt_Some in Hx. lia.
Qed.

Lemma Qc_eq_Qeq (x y : Qc) : x = y → (this x == this y)%Q.
Proof. by intros ->. Qed.
Lemma Qc_neq_Qeq (x y : Qc) : x ≠ y → ¬ (this x == this y)%Q.
Proof. intros H E. by apply H, Qc_is_canon. Qed.
Lemma Qc_nlt (x y : Qc) : ¬ (x < y)%Qc → (this y <= this x)%Q.
Proof. apply Qnot_lt_le. Qed.
Lemma Qc_nle (x y : Qc) : ¬ (x ≤ y)%Qc → (this y < this x)%Q.
Proof. apply Qnot_le_lt. Qed.

(** Linear arithmetic on [Qc], by way of [Q]. *)
Ltac qc_to_q :=
  repeat match goal with
  | H : @eq Qc _ _ |- _ => apply Qc_eq_Qeq in H
  | H : ¬ @eq Qc _ _ |- _ => apply Qc_neq_Qeq in H
  | H : ¬ Qclt _ _ |- _ => apply Qc_nlt in H
  | H : ¬ Qcle _ _ |- _ => apply Qc_nle in H
  | |- @eq Qc _ _ => apply Qc_is_canon
  | |- ¬ @eq Qc _ _ => let E := fresh in intros E
  | |- ¬ Qclt _ _ => apply Qle_not_lt
  | |- ¬ Qcle _ _ => apply Qlt_not_le
  end;
  unfold real, Qcle, Qclt, Qcdiv, Qcminus, Qcplus, Qcopp, Qcmult, Q2Qc, inject_Z in *;
  cbn [this] in *;
  rewrite ?Qred_correct in *.
Ltac qc_lra := qc_to_q; lra.

(** ** [rangeCheck] and [findLengthOfPositionPart] *)

(** X1.  [rangeCheck] on corners that are values of [index_t], with a
    maximum a mesh can have: it answers [true] exactly when every corner
    lies between [minimum] and [maximum]; a negative corner is refused
    whatever [minimum] is, since it is compared as a [size_t]. *)
Theorem rangeCheck_accepts (corners : list Z) (minimum maximum : Z) :
  Forall (λ c, - 2 ^ 31 ≤ c < 2 ^ 31) corners →
  0 ≤ minimum → maximum < 2 ^ 64 - 2 ^ 31 →
  rangeCheck corners minimum maximum = true ↔
  Forall (λ c, minimum ≤ c ≤ maximum) corners.
Proof.
  intros Hint Hmin Hmax.
  induction Hint as [|c corners Hc _ IH]; [done|].
  assert (to_size_t c = c ∧ 0 ≤ c ∨ to_size_t c = c + 2 ^ 64 ∧ c < 0) as Hcast.
  { destruct (decide (0 ≤ c)).
    - left. split; [apply to_size_t_small|]; lia.
    - right. split; [apply to_size_t_negative|]; lia. }
  simpl. rewrite Forall_cons. case_bool_decide as Hout.
  - split; [done|]. intros [Hin _]. lia.
  - rewrite IH. split; [|tauto]. intros Hall. split; [lia|done].
Qed.

Lemma rangeCheck_accepts_witness :
  rangeCheck [1; 4; 7] 1 8 = true ↔ Forall (λ c, 1 ≤ c ≤ 8) [1; 4; 7].
Proof.
  apply (rangeCheck_accepts [1; 4; 7] 1 8).
  - repeat constructor; lia.
  - lia.
  - lia.
Defined.

Section FindLengthFacts.
Context {T : Type} (zero : T).

(** The loop from round [k] on, when [position] lies behind [bounds[k]] and
    not behind the last bound. *)
Lemma findLengthOfPositionPart_loop_finds (position b_0 : Z) (bounds : list Z)
    (lengths : list T) (m k : nat) (b_k b_last : Z) :
  length lengths = length bounds →
  length bounds = (k + m)%nat → (0 < m)%nat →
  Forall (λ b, b_0 ≤ b < 2 ^ 63) bounds →
  0 ≤ b_0 →
  position < 2 ^ 63 →
  bounds !! k = Some b_k → b_k < position →
  last bounds = Some b_last → position ≤ b_last →
  ∃ (i : nat) l,
    findLengthOfPositionPart_loop zero position b_0 bounds lengths
      (Z.of_nat (length bounds)) (seqZ (Z.of_nat k) (Z.of_nat m)) = Some l ∧
    lengths !! i = Some l ∧
    ∃ b b', bounds !! i = Some b ∧ bounds !! S i = Some b' ∧ b < position ≤ b'.
Proof.
  intros Hlen Hnb Hm Hrange Hb0 Hpos.
  revert k b_k Hnb Hm. induction m as [|m IH]; intros k b_k Hnb Hm Hk Hlt Hlast Hle; [lia|].
  destruct (decide (m = 0%nat)) as [->|Hm0].
  { exfalso. rewrite last_lookup in Hlast.
    replace (pred (length bounds)) with k in Hlast by lia.
    rewrite Hk in Hlast. injection Hlast as ->. lia. }
  destruct (lookup_lt_is_Some_2 bounds (S k)) as [b_n Hn]; [lia|].
  rewrite seqZ_cons by lia. cbn [findLengthOfPositionPart_loop].
  rewrite (vec_at_lookup bounds k), Hk. cbn [mbind option_bind].
  assert (b_0 ≤ b_k < 2 ^ 63) as Hbk
    by (by eapply (proj1 (Forall_lookup _ _) Hrange)).
  assert (b_0 ≤ b_n < 2 ^ 63) as Hbn
    by (by eapply (proj1 (Forall_lookup _ _) Hrange)).
  assert (2 ^ 63 < 2 ^ 64) as Hpow by done.
  rewrite (to_size_t_small b_k) by lia.
  rewrite (to_size_t_small (b_k - b_0 + 1)) by lia.
  rewrite (to_size_t_small (position - b_0 + 1)) by lia.
  rewrite bool_decide_eq_true_2 by lia.
  replace ((Z.of_nat k + 1) `mod` Z.of_nat (length bounds)) with (Z.of_nat (S k))
    by (rewrite Z.mod_small; lia).
  rewrite (vec_at_lookup bounds (S k)), Hn. cbn [mbind option_bind].
  rewrite (to_size_t_small b_n) by lia.
  rewrite (to_size_t_small (b_n - b_0 + 1)) by lia.
  case_bool_decide as Hcase.
  - destruct (lookup_lt_is_Some_2 lengths k) as [l Hl]; [lia|].
    exists k, l. rewrite vec_at_lookup. split; [done|]. split; [done|].
    exists b_k, b_n. split_and!; first [done|lia].
  - replace (Z.succ (Z.of_nat k)) with (Z.of_nat (S k)) by lia.
    replace (Z.pred (Z.of_nat (S m))) with (Z.of_nat m) by lia.
    apply (IH (S k) b_n); first [done|lia].
Qed.

End FindLengthFacts.

(** X2.  [findLengthOfPositionPart] for bounds that are positions in
    non-decreasing order (in a vector, which holds less than [2^64] of
    them), one length per bound: the call returns the length
    stored for the part of the closed boundary [position] lies in, the last
    length standing for the part that runs from the last bound round to the
    first one.  The value [0] at the end of the function is never
    returned. *)
Theorem findLengthOfPositionPart_part {T : Type} (zero : T)
    (position numberOfPositions : Z) (bounds : list Z) (lengths : list T) :
  numberOfPositions < 2 ^ 63 →
  1 ≤ position ≤ numberOfPositions →
  bounds ≠ [] →
  Forall (λ b, 1 ≤ b ≤ numberOfPositions) bounds →
  StronglySorted Z.le bounds →
  Z.of_nat (length bounds) < 2 ^ 64 →
  length lengths = length bounds →
  ∃ (i : nat) l,
    findLengthOfPositionPart zero position numberOfPositions bounds lengths = Some l ∧
    lengths !! i = Some l ∧
    in_part bounds position i.
Proof.
  intros HN Hpos Hne Hrange Hsorted Hsize Hlen.
  destruct bounds as [|b_0 rest]; [done|]. clear Hne.
  remember (b_0 :: rest) as bounds eqn:Hbounds.
  assert (is_Some (last bounds)) as [b_last Hlast]
    by (rewrite last_is_Some; by subst).
  assert (2 ^ 63 < 2 ^ 64) as Hpow by done.
  assert (bounds !! 0%nat = Some b_0) as Hhead by (by subst).
  assert (1 ≤ b_0 ≤ numberOfPositions) as Hb0
    by (by apply (proj1 (Forall_lookup _ _) Hrange 0%nat)).
  assert (1 ≤ b_last ≤ numberOfPositions) as Hbl.
  { rewrite last_lookup in Hlast. by eapply (proj1 (Forall_lookup _ _) Hrange). }
  assert (length bounds = S (length rest)) as Hnb by (by subst).
  destruct (lookup_lt_is_Some_2 lengths (length rest)) as [l_last Hl]; [lia|].
  assert (vec_at lengths (to_size_t (Z.of_nat (length lengths) - 1)) = Some l_last) as Hvl.
  { rewrite to_size_t_small by lia.
    replace (Z.of_nat (length lengths) - 1) with (Z.of_nat (length rest)) by lia.
    by rewrite vec_at_lookup. }
  unfold findLengthOfPositionPart. rewrite Hvl.
  rewrite (to_size_t_small (Z.of_nat (length bounds) - 1)) by lia.
  replace (Z.of_nat (length bounds) - 1) with (Z.of_nat (pred (length bounds))) by lia.
  rewrite (vec_at_lookup bounds), <- last_lookup, Hlast. cbn [mbind option_bind].
  rewrite (to_size_t_small b_last) by lia.
  case_bool_decide as Hbehind.
  { exists (length rest), l_last. split; [done|]. split; [done|]. right.
    split; [done|]. exists b_0, b_last. split_and!; first [done|lia]. }
  change (vec_at bounds 0) with (vec_at bounds (Z.of_nat 0)).
  rewrite (vec_at_lookup bounds), Hhead. cbn [mbind option_bind].
  rewrite (to_size_t_small b_0) by lia.
  case_bool_decide as Hbefore.
  { exists (length rest), l_last. split; [done|]. split; [done|]. right.
    split; [done|]. exists b_0, b_last. split_and!; first [done|lia]. }
  destruct (findLengthOfPositionPart_loop_finds zero position b_0 bounds lengths
              (length bounds) 0 b_0 b_last) as (i & l & Hrun & Hi & Hpart);
    [done|done|lia| |lia|lia|done|lia|done|lia|].
  { apply Forall_forall. intros b Hb. split.
    - subst bounds. apply elem_of_cons in Hb as [->|Hb]; [done|].
      apply StronglySorted_inv in Hsorted as [_ Hall].
      by apply (proj1 (Forall_forall _ _) Hall).
    - pose proof (proj1 (Forall_forall _ _) Hrange b Hb) as Hb'. simpl in Hb'. lia. }
  exists i, l. split; [exact Hrun|]. split; [done|]. by left.
Qed.

Lemma findLengthOfPositionPart_part_witness :
  ∃ (i : nat) l,
    findLengthOfPositionPart 0%Qc 5 12 [2; 4; 7; 10] [1%Qc; one_half; 1%Qc; one_half]
      = Some l ∧
    [1%Qc; one_half; 1%Qc; one_half] !! i = Some l ∧
    in_part [2; 4; 7; 10] 5 i.
Proof.
  apply (findLengthOfPositionPart_part 0%Qc 5 12 [2; 4; 7; 10]
           [1%Qc; one_half; 1%Qc; one_half]).
  - done.
  - lia.
  - done.
  - repeat constructor; lia.
  - repeat constructor; lia.
  - done.
  - reflexivity.
Defined.

(** ** [findPointOnBoundary] *)

(** The four sides of the square, one per unit of [w]. *)
Lemma findPointOnBoundary_cases (Point2D_default : Point2D Qc) (w : Qc) (i : nat) :
  (0 ≤ w)%Qc → (w ≤ real 4)%Qc →
  let p := findPointOnBoundary Point2D_default w i in
  ((w ≤ 1)%Qc ∧ p = mkPoint2D w 0%Qc i) ∨
  ((1 < w)%Qc ∧ (w ≤ real 2)%Qc ∧ p = mkPoint2D 1%Qc (w - 1)%Qc i) ∨
  ((real 2 < w)%Qc ∧ (w ≤ real 3)%Qc ∧ p = mkPoint2D (1 - w + real 2)%Qc 1%Qc i) ∨
  ((real 3 < w)%Qc ∧ p = mkPoint2D 0%Qc (1 - w + real 3)%Qc i).
Proof.
  intros H0 H4. unfold findPointOnBoundary.
  repeat (case_bool_decide; cbn [andb]); try tauto; exfalso; qc_lra.
Qed.

(** X3.  [findPointOnBoundary] maps every [w] between [0] and [4] to a
    point on the boundary of the unit square that carries the vertex index
    it was given. *)
Theorem findPointOnBoundary_on_boundary (Point2D_default : Point2D Qc) (w : Qc)
    (vertexIndex : nat) :
  (0 ≤ w)%Qc → (w ≤ real 4)%Qc →
  on_square_boundary (findPointOnBoundary Point2D_default w vertexIndex) ∧
  pindex (findPointOnBoundary Point2D_default w vertexIndex) = vertexIndex.
Proof.
  intros H0 H4.
  destruct (findPointOnBoundary_cases Point2D_default w vertexIndex H0 H4)
    as [[? ->]|[(? & ? & ->)|[(? & ? & ->)|[? ->]]]];
    (split; [|done]); unfold on_square_boundary; cbn [px py];
    split_and!; try tauto; qc_lra.
Qed.

Lemma findPointOnBoundary_on_boundary_witness :
  on_square_boundary (findPointOnBoundary (mkPoint2D 0%Qc 0%Qc 0) (real 3) 7) ∧
  pindex (findPointOnBoundary (mkPoint2D 0%Qc 0%Qc 0) (real 3) 7) = 7%nat.
Proof.
  apply (findPointOnBoundary_on_boundary (mkPoint2D 0%Qc 0%Qc 0) (real 3) 7).
  - apply (bool_decide_unpack _). vm_compute. exact I.
  - apply (bool_decide_unpack _). vm_compute. exact I.
Defined.

(** X4.  [findPointOnBoundary] runs once round the square: two values of [w]
    between [0] and [4] give the same place exactly when they are equal or
    are the two ends [0] and [4], which both give the corner [(0, 0)]. *)
Theorem findPointOnBoundary_closed_curve (Point2D_default : Point2D Qc) (w w' : Qc)
    (i i' : nat) :
  (0 ≤ w)%Qc → (w ≤ real 4)%Qc → (0 ≤ w')%Qc → (w' ≤ real 4)%Qc →
  same_place (findPointOnBoundary Point2D_default w i)
             (findPointOnBoundary Point2D_default w' i') ↔
  w = w' ∨ (w = 0%Qc ∧ w' = real 4) ∨ (w = real 4 ∧ w' = 0%Qc).
Proof.
  intros H0 H4 H0' H4'.
  destruct (findPointOnBoundary_cases Point2D_default w i H0 H4)
    as [[? ->]|[(? & ? & ->)|[(? & ? & ->)|[? ->]]]];
  destruct (findPointOnBoundary_cases Point2D_default w' i' H0' H4')
    as [[? ->]|[(? & ? & ->)|[(? & ? & ->)|[? ->]]]];
  unfold same_place; cbn [px py];
  (split;
   [ intros [Hx Hy];
     first [ left; qc_lra
           | right; left; split; qc_lra
           | right; right; split; qc_lra
           | exfalso; qc_lra ]
   | intros [Hw|[[Hw Hw']|[Hw Hw']]]; split; qc_lra ]).
Qed.

Lemma findPointOnBoundary_closed_curve_witness :
  same_place (findPointOnBoundary (mkPoint2D 0%Qc 0%Qc 0) 0%Qc 1)
             (findPointOnBoundary (mkPoint2D 0%Qc 0%Qc 0) (real 4) 9) ↔
  0%Qc = real 4 ∨ (0%Qc = 0%Qc ∧ real 4 = real 4) ∨ (0%Qc = real 4 ∧ real 4 = 0%Qc).
Proof.
  apply (findPointOnBoundary_closed_curve (mkPoint2D 0%Qc 0%Qc 0) 0%Qc (real 4) 1 9);
    apply (bool_decide_unpack _); vm_compute; exact I.
Defined.


(** ** [getBoundaryCorners] *)





Section SortedAngles.
Context (lbn : list LocalNeighbourhood) (n : Z).
Context (Hrange : Forall (λ ln, 0 ≤ getVertexIndex ln - n < 2 ^ 31) lbn).


End SortedAngles.



Section RestrictFacts.
Context (dist : Z → Z → Qc) (L : Qc) (range : Qc).



End RestrictFacts.



(** ** [getSide] and [computeCorrections] *)

Lemma find_pos_le (l : list Z) (x : Z) : (find_pos l x ≤ length l)%nat.
Proof. induction l as [|y l IH]; simpl; [lia|]. case_decide; lia. Qed.

Lemma find_pos_elem_of (l : list Z) (x : Z) :
  (find_pos l x < length l)%nat ↔ x ∈ l.
Proof.
  induction l as [|y l IH]; simpl.
  - split; [lia|]. by intros ?%elem_of_nil.
  - rewrite elem_of_cons. case_decide as Hy; [subst; split; [by left|lia]|].
    rewrite <- IH. split; [intros ?; right; lia|]. intros [->|?]; [done|lia].
Qed.

Lemma find_pos_lookup (l : list Z) (x : Z) :
  x ∈ l → l !! find_pos l x = Some x.
Proof.
  induction l as [|y l IH]; [by intros ?%elem_of_nil|]. simpl.
  case_decide as Hy; [by subst|]. intros [->|?]%elem_of_cons; [done|]. by apply IH.
Qed.

Lemma find_pos_first (l : list Z) (x : Z) (k : nat) :
  (k < find_pos l x)%nat → l !! k ≠ Some x.
Proof.
  revert k. induction l as [|y l IH]; intros k; simpl; [lia|].
  case_decide as Hy; [lia|]. destruct k as [|k]; simpl.
  - intros _ [= ->]. done.
  - intros Hk. apply IH. lia.
Qed.

Lemma find_pos_app (pre post : list Z) (x : Z) :
  x ∉ pre → find_pos (pre ++ x :: post) x = length pre.
Proof.
  induction pre as [|y pre IH]; simpl; intros Hx.
  - by rewrite decide_True.
  - rewrite not_elem_of_cons in Hx. destruct Hx as [Hy Hx].
    rewrite decide_False by done. by rewrite IH.
Qed.

Section GetSideFacts.
Context (boundary : list Z) (itEnd : nat).

(** [m] rounds of the loop that neither reach [itEnd] nor the end of the
    list. *)
Lemma getSide_loop_steps (m fuel it : nat) (result : list Z) :
  (it + m ≤ length boundary)%nat →
  (∀ k, (it ≤ k < it + m)%nat → k ≠ itEnd) →
  getSide_loop (m + fuel) boundary itEnd it result =
  getSide_loop fuel boundary itEnd (it + m) (result ++ take m (drop it boundary)).
Proof.
  revert it result. induction m as [|m IH]; intros it result Hlen Hne.
  - simpl. by rewrite Nat.add_0_r, app_nil_r.
  - cbn [Nat.add getSide_loop].
    rewrite decide_True by (apply Hne; lia).
    rewrite decide_False by lia.
    destruct (lookup_lt_is_Some_2 boundary it) as [x Hx]; [lia|].
    rewrite Hx. cbn [defined mbind outcome_bind].
    rewrite IH by (first [lia|intros k Hk; apply Hne; lia]).
    replace (S it + m)%nat with (it + S m)%nat by lia.
    f_equal. rewrite <- app_assoc. f_equal.
    rewrite (drop_S _ _ _ Hx). done.
Qed.

(** The round that finds the iterator at the end of the list. *)
Lemma getSide_loop_wrap (fuel : nat) (result : list Z) (x : Z) :
  itEnd ≠ length boundary → head boundary = Some x →
  getSide_loop (S fuel) boundary itEnd (length boundary) result =
  getSide_loop fuel boundary itEnd 1 (result ++ [x]).
Proof.
  intros Hne Hx. cbn [getSide_loop].
  rewrite decide_True by done. rewrite decide_True by done.
  destruct boundary as [|y l]; [done|]. injection Hx as ->. done.
Qed.

Lemma getSide_loop_done (fuel : nat) (result : list Z) :
  getSide_loop (S fuel) boundary itEnd itEnd result = Returns result.
Proof. cbn [getSide_loop]. by rewrite decide_False by (intros H; by apply H). Qed.

End GetSideFacts.

(** X8.  [getSide] for corners [beg] and [end_] of the boundary, [end_] not
    its first element: the call returns the vertices that follow the first
    [beg] up to the first [end_], going on from the end of the list to its
    beginning when [end_] does not come after [beg]. *)
Theorem getSide_segment (fuel : nat) (boundary : list Z) (beg end_ : Z) :
  beg ∈ boundary → end_ ∈ boundary → head boundary ≠ Some end_ →
  (length boundary ≤ fuel)%nat →
  (getSide fuel boundary beg end_).2 =
  Returns (if decide (find_pos boundary beg < find_pos boundary end_)%nat
           then take (find_pos boundary end_ - S (find_pos boundary beg))
                  (drop (S (find_pos boundary beg)) boundary)
           else drop (S (find_pos boundary beg)) boundary
                ++ take (find_pos boundary end_) boundary).
Proof.
  intros Hbeg Hend Hhead Hfuel.
  pose proof (proj2 (find_pos_elem_of _ _) Hbeg) as Hi.
  pose proof (proj2 (find_pos_elem_of _ _) Hend) as Hj.
  pose proof (find_pos_lookup _ _ Hend) as Hjx.
  set (i := find_pos boundary beg) in *. set (j := find_pos boundary end_) in *.
  assert (j ≠ 0%nat) as Hj0.
  { intros Hj0. rewrite Hj0 in Hjx. destruct boundary; [done|]. simpl in *. congruence. }
  unfold getSide. cbn [snd]. fold i j. rewrite decide_False by lia.
  case_decide as Hij.
  - replace fuel with ((j - S i) + S (fuel - S (j - S i)))%nat by lia.
    rewrite getSide_loop_steps by lia.
    replace (S i + (j - S i))%nat with j by lia.
    by rewrite getSide_loop_done.
  - destruct boundary as [|x rest] eqn:Hb; [simpl in Hi; lia|]. rewrite <- Hb in *.
    replace fuel with ((length boundary - S i)
                       + S ((j - 1) + S (fuel - S (j - 1) - S (length boundary - S i))))%nat
      by lia.
    rewrite getSide_loop_steps by lia.
    replace (S i + (length boundary - S i))%nat with (length boundary) by lia.
    rewrite (getSide_loop_wrap _ _ _ _ x) by (first [lia|by rewrite Hb]).
    rewrite getSide_loop_steps by lia.
    replace (1 + (j - 1))%nat with j by lia.
    rewrite getSide_loop_done. f_equal. cbn [app].
    rewrite take_ge by (rewrite length_drop; lia).
    rewrite <- app_assoc. f_equal.
    rewrite Hb. destruct j as [|j]; [done|]. simpl.
    by rewrite ?Nat.sub_0_r.
Qed.

Lemma getSide_segment_witness :
  (getSide 6 sample_boundary 14 11).2 =
  Returns (if decide (find_pos sample_boundary 14 < find_pos sample_boundary 11)%nat
           then take (find_pos sample_boundary 11 - S (find_pos sample_boundary 14))
                  (drop (S (find_pos sample_boundary 14)) sample_boundary)
           else drop (S (find_pos sample_boundary 14)) sample_boundary
                ++ take (find_pos sample_boundary 11) sample_boundary).
Proof.
  apply (getSide_segment 6 sample_boundary 14 11).
  - apply (bool_decide_unpack _). vm_compute. exact I.
  - apply (bool_decide_unpack _). vm_compute. exact I.
  - simpl. congruence.
  - simpl. lia.
Defined.

(** X9.  [getSide] never returns when [end_] is the first element of the
    boundary: whatever the fuel, the loop is still running when it is used
    up, since the iterator is compared with [itEnd] before it is set back to
    the beginning of the list and is moved on before the next
    comparison. *)
Theorem getSide_never_returns (fuel : nat) (boundary : list Z) (beg end_ : Z) :
  beg ∈ boundary → head boundary = Some end_ →
  (getSide fuel boundary beg end_).2 = OutOfFuel.
Proof.
  intros Hbeg Hhead.
  pose proof (proj2 (find_pos_elem_of _ _) Hbeg) as Hi.
  assert (find_pos boundary end_ = 0%nat) as Hj.
  { destruct boundary as [|x rest]; [done|]. injection Hhead as ->.
    simpl. by rewrite decide_True. }
  unfold getSide. cbn [snd]. rewrite Hj, decide_False by lia.
  assert (∀ fuel it result, (1 ≤ it ≤ length boundary)%nat →
            getSide_loop fuel boundary 0 it result = OutOfFuel) as Hloop.
  { clear fuel. induction fuel as [|fuel IH]; intros it result Hit; [done|].
    cbn [getSide_loop]. rewrite decide_True by lia.
    case_decide as Hwrap.
    - destruct (lookup_lt_is_Some_2 boundary 0) as [x Hx]; [lia|].
      rewrite Hx. cbn [defined mbind outcome_bind]. apply IH. lia.
    - destruct (lookup_lt_is_Some_2 boundary it) as [x Hx]; [lia|].
      rewrite Hx. cbn [defined mbind outcome_bind]. apply IH. lia. }
  apply Hloop. lia.
Qed.

Lemma getSide_never_returns_witness :
  (getSide 1000 sample_boundary 13 10).2 = OutOfFuel.
Proof.
  apply (getSide_never_returns 1000 sample_boundary 13 10).
  - apply (bool_decide_unpack _). vm_compute. exact I.
  - reflexivity.
Defined.

Lemma rotate_to_finds (fuel : nat) (next : Z) (pre post : list Z) :
  next ∉ pre → (length pre < fuel)%nat →
  rotate_to fuel next (pre ++ next :: post) = Returns (next :: post ++ pre).
Proof.
  revert fuel post. induction pre as [|y pre IH]; intros fuel post Hnext Hfuel.
  - destruct fuel as [|fuel]; [simpl in Hfuel; lia|]. simpl.
    rewrite decide_False by (intros H; by apply H). by rewrite app_nil_r.
  - destruct fuel as [|fuel]; [simpl in Hfuel; lia|].
    rewrite not_elem_of_cons in Hnext. destruct Hnext as [Hy Hnext].
    cbn [app rotate_to]. rewrite decide_True by done.
    rewrite <- app_assoc. cbn [app].
    rewrite IH by (first [done|simpl in Hfuel; lia]).
    by rewrite <- app_assoc.
Qed.

Lemma filter_all {A : Type} (P : A → Prop) `{∀ x, Decision (P x)} (l : list A) :
  (∀ x, P x) → filter P l = l.
Proof.
  intros HP. induction l as [|x l IH]; [done|].
  rewrite filter_cons_True by done. by rewrite IH.
Qed.

Lemma remove_stitch (stitchIndices result : list Z) :
  foldl (λ result it, filter (λ x, x ≠ it) result) result stitchIndices
  = filter (λ x, x ∉ stitchIndices) result.
Proof.
  revert result. induction stitchIndices as [|it stitch IH]; intros result; simpl.
  - symmetry. apply filter_all. intros x. apply not_elem_of_nil.
  - rewrite IH, list_filter_filter. apply list_filter_iff.
    intros x. rewrite not_elem_of_cons. tauto.
Qed.

(** X10.  [computeCorrections] for a stitch of at least two vertices, where
    a vertex in the middle of the stitch has the next stitch vertex among
    its neighbours: the call returns, and what it returns are neighbours of
    the vertex that do not lie on the stitch. *)
Theorem computeCorrections_off_stitch (fuel : nat) (stitchIndices : list Z)
    (localNeighbourhood : LocalNeighbourhood) :
  (2 ≤ length stitchIndices)%nat →
  (∀ k, k = find_pos stitchIndices (getVertexIndex localNeighbourhood) →
     (0 < k)%nat → (S k < length stitchIndices)%nat →
     ∃ next, stitchIndices !! S k = Some next ∧
             next ∈ getVertexIndicesOfNeighbours localNeighbourhood) →
  (length (getVertexIndicesOfNeighbours localNeighbourhood) ≤ fuel)%nat →
  ∃ result,
    computeCorrections fuel stitchIndices localNeighbourhood = Returns result ∧
    ∀ x, x ∈ result →
      x ∈ getVertexIndicesOfNeighbours localNeighbourhood ∧ x ∉ stitchIndices.
Proof.
  intros Hlen Hmid Hfuel. unfold computeCorrections.
  set (neighbours := getVertexIndicesOfNeighbours localNeighbourhood) in *.
  set (k := find_pos stitchIndices (getVertexIndex localNeighbourhood)) in *.
  pose proof (find_pos_le stitchIndices (getVertexIndex localNeighbourhood)) as Hk.
  fold k in Hk.
  assert (∀ result0 : list Z, (∀ x, x ∈ result0 → x ∈ neighbours) →
            ∀ x, x ∈ filter (λ x, x ∉ stitchIndices) result0 →
                 x ∈ neighbours ∧ x ∉ stitchIndices) as Hfilter.
  { intros result0 Hsub x [Hx Hin]%list_elem_of_filter. split; [by apply Hsub|done]. }
  case_decide as Hend.
  { exists []. split; [done|]. by intros x ?%elem_of_nil. }
  case_decide as Hbegin.
  { destruct (lookup_lt_is_Some_2 stitchIndices 1) as [next Hnext]; [lia|].
    rewrite Hbegin, Hnext. cbn [defined mbind outcome_bind].
    eexists. split; [done|]. rewrite remove_stitch. apply Hfilter.
    intros x Hx. by eapply subseteq_drop. }
  case_decide as Hlast.
  { destruct (lookup_lt_is_Some_2 stitchIndices (pred k)) as [prev Hprev]; [lia|].
    rewrite Hprev. cbn [defined mbind outcome_bind].
    eexists. split; [done|]. rewrite remove_stitch. apply Hfilter.
    intros x Hx. by eapply subseteq_take. }
  destruct (Hmid k) as (next & Hnext & Hin); [done|lia|lia|].
  destruct (lookup_lt_is_Some_2 stitchIndices (pred k)) as [prev Hprev]; [lia|].
  apply list_elem_of_split_l in Hin as (pre & post & Hsplit & Hpre).
  rewrite Hnext. cbn [defined mbind outcome_bind].
  rewrite Hsplit, rotate_to_finds; [|done|].
  2:{ rewrite Hsplit, length_app in Hfuel. simpl in Hfuel. lia. }
  rewrite Hprev. cbn [defined mbind outcome_bind].
  eexists. split; [done|]. rewrite remove_stitch, <- Hsplit. apply Hfilter.
  intros x Hx%subseteq_take. rewrite Hsplit.
  rewrite elem_of_app, elem_of_cons. rewrite elem_of_cons, elem_of_app in Hx. tauto.
Qed.

Lemma computeCorrections_off_stitch_witness :
  ∃ result,
    computeCorrections 6 sample_stitch sample_stitch_vertex = Returns result ∧
    ∀ x, x ∈ result →
      x ∈ getVertexIndicesOfNeighbours sample_stitch_vertex ∧ x ∉ sample_stitch.
Proof.
  apply (computeCorrections_off_stitch 6 sample_stitch sample_stitch_vertex).
  - simpl. lia.
  - intros k -> _ _. exists 4. split; [reflexivity|].
    apply (bool_decide_unpack _). vm_compute. exact I.
  - simpl. lia.
Defined.

(** X11.  [computeCorrections] for a vertex in the middle of the stitch,
    between the stitch vertices [prev] and [next]: the call returns the
    neighbours met on the way round the vertex from [next] to [prev], in
    that order and without the vertices of the stitch.  Here the list of
    neighbours, taken as a cycle, reads [next], then [side], then [prev],
    then [other]. *)
Theorem computeCorrections_between (fuel k : nat) (stitchIndices : list Z)
    (localNeighbourhood : LocalNeighbourhood) (prev next : Z)
    (pre post side other : list Z) :
  find_pos stitchIndices (getVertexIndex localNeighbourhood) = S k →
  stitchIndices !! k = Some prev →
  stitchIndices !! S (S k) = Some next →
  getVertexIndicesOfNeighbours localNeighbourhood = pre ++ next :: post →
  next ∉ pre →
  post ++ pre = side ++ prev :: other →
  prev ∉ side → prev ≠ next →
  (length (getVertexIndicesOfNeighbours localNeighbourhood) ≤ fuel)%nat →
  computeCorrections fuel stitchIndices localNeighbourhood
  = Returns (filter (λ x, x ∉ stitchIndices) side).
Proof.
  intros Hk Hprev Hnext Hsplit Hpre Hcycle Hside Hne Hfuel.
  unfold computeCorrections. rewrite Hk.
  apply lookup_lt_Some in Hnext as Hlen.
  rewrite decide_False by lia. rewrite decide_False by done.
  rewrite decide_False by lia.
  rewrite Hnext. cbn [defined mbind outcome_bind].
  rewrite Hsplit, rotate_to_finds; [|done|].
  2:{ rewrite Hsplit, length_app in Hfuel. simpl in Hfuel. lia. }
  cbn [pred]. rewrite Hprev. cbn [defined mbind outcome_bind].
  rewrite remove_stitch, Hcycle. cbn [find_pos].
  rewrite decide_False by (intros H; by apply Hne).
  rewrite find_pos_app by done. cbn [take].
  rewrite take_app_length.
  rewrite filter_cons_False; [done|].
  intros Hout. apply Hout. by eapply list_elem_of_lookup_2.
Qed.

Lemma computeCorrections_between_witness :
  computeCorrections 6 sample_stitch sample_stitch_vertex
  = Returns (filter (λ x, x ∉ sample_stitch) [7; 8; 9]).
Proof.
  apply (computeCorrections_between 6 1 sample_stitch sample_stitch_vertex 2 4
           [9; 2; 6] [7; 8] [7; 8; 9] [6]).
  - reflexivity.
  - reflexivity.
  - reflexivity.
  - reflexivity.
  - apply (bool_decide_unpack _). vm_compute. exact I.
  - reflexivity.
  - apply (bool_decide_unpack _). vm_compute. exact I.
  - lia.
  - simpl. lia.
Defined.

(** ** The restricted flat mesh *)

Lemma correspondingV_defined (h0 h1 : gsVertex) (u : Qc) :
  vx h1 ≠ vx h0 → is_Some (correspondingV h0 h1 u).
Proof.
  intros Hne. unfold correspondingV, divide.
  rewrite decide_False; [by eexists|]. intros H0. apply Hne. qc_lra.
Qed.

(** The bound on the rounds of the two loops of
    [addOneFlatTriangleNotIntersectingBoundary] is never what ends them:
    when the recursion stops, the condition of the loop is false. *)
Lemma shift_down_exit (rounds : nat) (v0x v1x v2x : Qc) :
  (this v0x <= inject_Z (Z.of_nat rounds))%Q →
  ∀ a b c, shift_down rounds (v0x, v1x, v2x) = (a, b, c) →
  ¬ ((1 < a)%Qc ∧ (1 < b)%Qc ∧ (1 < c)%Qc).
Proof.
  revert v0x v1x v2x. induction rounds as [|rounds IH]; intros v0x v1x v2x Hle a b c.
  - simpl. intros [= <- <- <-] (Ha & _ & _).
    change (inject_Z (Z.of_nat 0)) with 0%Q in Hle. qc_lra.
  - cbn [shift_down].
    destruct (bool_decide (1 < v0x)%Qc && bool_decide (1 < v1x)%Qc
              && bool_decide (1 < v2x)%Qc) eqn:Hcond.
    + apply IH. rewrite Nat2Z.inj_succ, <- Z.add_1_r, inject_Z_plus in Hle.
      unfold inject_Z in *. qc_lra.
    + intros [= <- <- <-] (Ha & Hb & Hc).
      rewrite !bool_decide_eq_true_2 in Hcond by done. done.
Qed.

Lemma shift_up_exit (rounds : nat) (v0x v1x v2x : Qc) :
  (- this v0x <= inject_Z (Z.of_nat rounds))%Q →
  ∀ a b c, shift_up rounds (v0x, v1x, v2x) = (a, b, c) →
  ¬ ((a < 0)%Qc ∧ (b < 0)%Qc ∧ (c < 0)%Qc).
Proof.
  revert v0x v1x v2x. induction rounds as [|rounds IH]; intros v0x v1x v2x Hle a b c.
  - simpl. intros [= <- <- <-] (Ha & _ & _).
    change (inject_Z (Z.of_nat 0)) with 0%Q in Hle. qc_lra.
  - cbn [shift_up].
    destruct (bool_decide (v0x < 0)%Qc && bool_decide (v1x < 0)%Qc
              && bool_decide (v2x < 0)%Qc) eqn:Hcond.
    + apply IH. rewrite Nat2Z.inj_succ, <- Z.add_1_r, inject_Z_plus in Hle.
      unfold inject_Z in *. qc_lra.
    + intros [= <- <- <-] (Ha & Hb & Hc).
      rewrite !bool_decide_eq_true_2 in Hcond by done. done.
Qed.

Lemma ceiling_rounds (q : Q) : (q <= inject_Z (Z.of_nat (Z.to_nat (Qceiling q))))%Q.
Proof.
  destruct (decide (0 ≤ Qceiling q)) as [Hpos|Hneg].
  - rewrite Z2Nat.id by done. apply Qle_ceiling.
  - apply (Qle_trans _ (inject_Z (Qceiling q))); [apply Qle_ceiling|].
    rewrite <- Zle_Qle. lia.
Qed.

Lemma addOneFlatTriangleNotIntersectingBoundary_faces (st : flat) (v0 v1 v2 : gsVertex) :
  faces_in_strip st →
  faces_in_strip (addOneFlatTriangleNotIntersectingBoundary st v0 v1 v2).
Proof.
  destruct st as [mesh warn]. unfold faces_in_strip. intros Hst.
  unfold addOneFlatTriangleNotIntersectingBoundary.
  destruct (shift_up _ _) as [[v0x v1x] v2x].
  repeat (case_bool_decide; cbn [andb]); cbn [addVertex addFace fst m_face]; try done.
  apply Forall_app. split; [done|]. apply Forall_singleton.
  unfold face_in_strip, in_strip. cbn [fst snd vx]. tauto.
Qed.

Lemma addThreeFlatTrianglesOneOut_faces (st : flat) (v0 v1 v2 : gsVertex) :
  in_strip v0 → in_strip v2 → near_strip v1 →
  faces_in_strip st →
  ∃ st', addThreeFlatTrianglesOneOut st v0 v1 v2 = Some st' ∧ faces_in_strip st'.
Proof.
  destruct st as [mesh warn]. unfold faces_in_strip.
  intros [H0 H0'] [H2 H2'] [H1 H1'] Hst.
  unfold addThreeFlatTrianglesOneOut. cbn [addVertex].
  case_decide as Hleft; [|case_decide as Hright].
  - destruct (correspondingV_defined v0 v1 0%Qc) as [c01 E01]; [qc_lra|].
    destruct (correspondingV_defined v1 v2 0%Qc) as [c12 E12]; [qc_lra|].
    rewrite E01, E12. cbn [mbind option_bind].
    eexists. split; [done|]. cbn [addFace fst m_face].
    rewrite !Forall_app, !Forall_singleton.
    unfold face_in_strip, in_strip. cbn [fst snd vx].
    split_and!; first [done|qc_lra].
  - destruct (correspondingV_defined v0 v1 1%Qc) as [c01 E01]; [qc_lra|].
    destruct (correspondingV_defined v1 v2 1%Qc) as [c12 E12]; [qc_lra|].
    rewrite E01, E12. cbn [mbind option_bind].
    eexists. split; [done|]. cbn [addFace fst m_face].
    rewrite !Forall_app, !Forall_singleton.
    unfold face_in_strip, in_strip. cbn [fst snd vx].
    split_and!; first [done|qc_lra].
  - eexists. split; [done|]. done.
Qed.

Lemma addThreeFlatTrianglesTwoOut_faces (st : flat) (v0 v1 v2 : gsVertex) :
  near_strip v0 → in_strip v1 → near_strip v2 →
  faces_in_strip st →
  ∃ st', addThreeFlatTrianglesTwoOut st v0 v1 v2 = Some st' ∧ faces_in_strip st'.
Proof.
  destruct st as [mesh warn]. unfold faces_in_strip.
  intros [H0 H0'] [H1 H1'] [H2 H2'] Hst.
  unfold addThreeFlatTrianglesTwoOut. cbn [addVertex].
  destruct (bool_decide (vx v0 < 0)%Qc && bool_decide (vx v2 < 0)%Qc) eqn:Hleft;
    [|destruct (bool_decide (1 < vx v0)%Qc && bool_decide (1 < vx v2)%Qc) eqn:Hright].
  - apply andb_prop in Hleft as [Ha%bool_decide_eq_true Hb%bool_decide_eq_true].
    apply addThreeFlatTrianglesOneOut_faces; [| | |done];
      unfold in_strip, near_strip; cbn [vx]; split; qc_lra.
  - apply andb_prop in Hright as [Ha%bool_decide_eq_true Hb%bool_decide_eq_true].
    apply addThreeFlatTrianglesOneOut_faces; [| | |done];
      unfold in_strip, near_strip; cbn [vx]; split; qc_lra.
  - eexists. split; [done|]. done.
Qed.

Lemma restrict_triangle_faces (st : flat) (vh : gsVertex * gsVertex * gsVertex) :
  near_strip vh.1.1 → near_strip vh.1.2 → near_strip vh.2 →
  faces_in_strip st →
  ∃ st', restrict_triangle st vh = Some st' ∧ faces_in_strip st'.
Proof.
  destruct vh as [[vh0 vh1] vh2]. cbn [fst snd]. intros H0 H1 H2 Hst.
  assert (∀ v, bool_decide (vx v < 0 ∨ 1 < vx v)%Qc = false → in_strip v) as Hin.
  { intros v Hv%bool_decide_eq_false. unfold in_strip.
    split; apply Qcnot_lt_le; intros ?; apply Hv; tauto. }
  unfold restrict_triangle.
  destruct (bool_decide (vx vh0 < 0 ∨ 1 < vx vh0)%Qc) eqn:E0;
  destruct (bool_decide (vx vh1 < 0 ∨ 1 < vx vh1)%Qc) eqn:E1;
  destruct (bool_decide (vx vh2 < 0 ∨ 1 < vx vh2)%Qc) eqn:E2;
  cbn [negb andb];
  first [ eexists; split; [done|];
          by apply addOneFlatTriangleNotIntersectingBoundary_faces
        | apply addThreeFlatTrianglesTwoOut_faces; auto
        | apply addThreeFlatTrianglesOneOut_faces; auto ].
Qed.

(** X13.  [createRestrictedFlatMesh] for an unfolded mesh whose vertices are
    no more than one period away from the strip [0 <= x <= 1]: the loop over
    the triangles runs through, and every face it adds to the result has its
    three corners in the strip. *)
Theorem createRestrictedFlatMesh_in_strip
    (unfolded : list (gsVertex * gsVertex * gsVertex)) :
  Forall (λ vh, near_strip vh.1.1 ∧ near_strip vh.1.2 ∧ near_strip vh.2) unfolded →
  ∃ result warn,
    createRestrictedFlatMesh_loop unfolded = Some (result, warn) ∧
    Forall face_in_strip (m_face result).
Proof.
  intros Hnear. unfold createRestrictedFlatMesh_loop.
  destruct (fold_opt_inv faces_in_strip unfolded (λ vh st, restrict_triangle st vh)
              (mkMesh [] [], [])) as ([result warn] & Hrun & Hfaces).
  - intros vh st Hvh Hst.
    pose proof (proj1 (Forall_forall _ _) Hnear vh Hvh) as (H0 & H1 & H2).
    by apply restrict_triangle_faces.
  - by apply Forall_nil.
  - by exists result, warn.
Qed.

Lemma createRestrictedFlatMesh_in_strip_witness :
  ∃ result warn,
    createRestrictedFlatMesh_loop sample_unfolded = Some (result, warn) ∧
    Forall face_in_strip (m_face result).
Proof.
  apply (createRestrictedFlatMesh_in_strip sample_unfolded).
  repeat constructor; apply (bool_decide_unpack _); vm_compute; exact I.
Defined.
(** ** The weights of [LocalParametrization] *)

Section Weights.
Context (add mul div : Qc → Qc → Qc) (of_size_t : Z → Qc).

(** [m_lambdas[front - 1] += x] for an index [front] of a vertex. *)
Lemma add_at_vertex (m_lambdas : list Qc) (front : Z) (x : Qc) :
  Z.of_nat (length m_lambdas) < 2 ^ 64 →
  1 ≤ front ≤ Z.of_nat (length m_lambdas) →
  ∃ l, m_lambdas !! Z.to_nat (front - 1) = Some l ∧
    add_at add m_lambdas (to_size_t (front - 1)) x
    = Some (<[Z.to_nat (front - 1) := add l x]> m_lambdas).
Proof.
  intros Hsize Hfront. rewrite to_size_t_small by lia.
  destruct (lookup_lt_is_Some_2 m_lambdas (Z.to_nat (front - 1))) as [l Hl]; [lia|].
  exists l. split; [done|]. unfold add_at.
  replace (front - 1) with (Z.of_nat (Z.to_nat (front - 1))) at 1 by lia.
  rewrite vec_at_lookup, Hl. done.
Qed.

Lemma uniform_loop_spec (d : Z) (indices : list Z) (m_lambdas : list Qc) :
  Z.of_nat (length m_lambdas) < 2 ^ 64 →
  Forall (λ i, 1 ≤ i ≤ Z.of_nat (length m_lambdas)) indices →
  ∃ result, uniform_loop add div of_size_t d indices m_lambdas = Some result ∧
    length result = length m_lambdas ∧
    ∀ (j : nat) l, m_lambdas !! j = Some l →
      result !! j
      = Some (Nat.iter (occurrences indices j) (λ l, add l (div 1%Qc (of_size_t d))) l).
Proof.
  revert m_lambdas.
  induction indices as [|front indices IH]; intros m_lambdas Hsize Hrange.
  - exists m_lambdas. split; [done|]. split; [done|]. by intros j l ->.
  - apply Forall_cons in Hrange as [Hfront Hrange].
    set (x := div 1%Qc (of_size_t d)).
    destruct (add_at_vertex m_lambdas front x Hsize Hfront) as (l0 & Hl0 & Hadd).
    cbn [uniform_loop]. fold x. rewrite Hadd. cbn [mbind option_bind].
    destruct (IH (<[Z.to_nat (front - 1) := add l0 x]> m_lambdas))
      as (result & Hrun & Hlen & Hat);
      [by rewrite length_insert|by rewrite length_insert|].
    exists result. split; [done|]. rewrite length_insert in Hlen. split; [done|].
    intros j l Hj. unfold occurrences.
    destruct (decide (j = Z.to_nat (front - 1))) as [->|Hne].
    + rewrite Hj in Hl0. injection Hl0 as <-.
      rewrite (Hat _ (add l x))
        by (rewrite list_lookup_insert_eq; [done|by eapply lookup_lt_Some]).
      rewrite filter_cons_True by lia. cbn [length].
      by rewrite Nat.iter_succ_r.
    + rewrite (Hat _ l) by (by rewrite list_lookup_insert_ne).
      rewrite filter_cons_False by lia. done.
Qed.

Lemma distance_loop_spec (inv : Qc) (neighbourDistances : list Qc) (indices : list Z)
    (m_lambdas : list Qc) :
  Z.of_nat (length m_lambdas) < 2 ^ 64 →
  Forall (λ i, 1 ≤ i ≤ Z.of_nat (length m_lambdas)) indices →
  (length neighbourDistances ≤ length indices)%nat →
  ∃ result,
    distance_loop add mul inv neighbourDistances indices m_lambdas = Some result ∧
    length result = length m_lambdas ∧
    ∀ (j : nat) l, m_lambdas !! j = Some l →
      result !! j = Some (foldl add l (shares mul inv indices neighbourDistances j)).
Proof.
  revert indices m_lambdas.
  induction neighbourDistances as [|it dists IH]; intros indices m_lambdas Hsize Hrange Hlen.
  - exists m_lambdas. split; [done|]. split; [done|]. intros j l ->.
    unfold shares. by rewrite zip_with_nil_r.
  - destruct indices as [|front indices]; [simpl in Hlen; lia|].
    apply Forall_cons in Hrange as [Hfront Hrange].
    destruct (add_at_vertex m_lambdas front (mul it inv) Hsize Hfront)
      as (l0 & Hl0 & Hadd).
    cbn [distance_loop]. rewrite Hadd. cbn [mbind option_bind].
    destruct (IH indices (<[Z.to_nat (front - 1) := add l0 (mul it inv)]> m_lambdas))
      as (result & Hrun & Hlen' & Hat);
      [by rewrite length_insert|by rewrite length_insert|simpl in Hlen; lia|].
    exists result. split; [done|]. rewrite length_insert in Hlen'. split; [done|].
    intros j l Hj. unfold shares. cbn [zip_with].
    destruct (decide (j = Z.to_nat (front - 1))) as [->|Hne].
    + rewrite Hj in Hl0. injection Hl0 as <-.
      rewrite (Hat _ (add l (mul it inv)))
        by (rewrite list_lookup_insert_eq; [done|by eapply lookup_lt_Some]).
      rewrite filter_cons_True by (simpl; lia). done.
    + rewrite (Hat _ l) by (by rewrite list_lookup_insert_ne).
      rewrite filter_cons_False by (simpl; lia). done.
Qed.

End Weights.

(** X14.  The uniform weights ([parametrizationMethod == 2]) of a vertex
    whose neighbours are vertices of the mesh, whatever the addition and the
    division of the scalar type round to: the constructor leaves one weight
    for every vertex of the mesh; the weight of a vertex is [0] with
    [1./d] added to it once for every time the vertex is listed among the
    neighbours, so the weight of a vertex that is no neighbour is [0]
    itself. *)
Theorem LocalParametrization_2_weights (add div : Qc → Qc → Qc) (of_size_t : Z → Qc)
    (N : nat) (localNeighbourhood : LocalNeighbourhood) :
  Z.of_nat N < 2 ^ 64 →
  Forall (λ i, 1 ≤ i ≤ Z.of_nat N) (getVertexIndicesOfNeighbours localNeighbourhood) →
  ∃ m_lambdas,
    LocalParametrization_2 add div of_size_t N localNeighbourhood = Some m_lambdas ∧
    length m_lambdas = N ∧
    ∀ (j : nat) l, m_lambdas !! j = Some l →
      l = Nat.iter (occurrences (getVertexIndicesOfNeighbours localNeighbourhood) j)
            (λ l, add l (div 1%Qc (of_size_t (getNumberOfNeighbours localNeighbourhood))))
            0%Qc ∧
      (Z.of_nat j + 1 ∉ getVertexIndicesOfNeighbours localNeighbourhood → l = 0%Qc).
Proof.
  intros Hsize Hrange. unfold LocalParametrization_2.
  set (indices := getVertexIndicesOfNeighbours localNeighbourhood) in *.
  set (d := getNumberOfNeighbours localNeighbourhood).
  destruct (uniform_loop_spec add div of_size_t d indices (replicate N 0%Qc))
    as (result & Hrun & Hlen & Hat);
    [by rewrite length_replicate|by rewrite length_replicate|].
  rewrite length_replicate in Hlen. exists result. split; [done|]. split; [done|].
  intros j l Hj.
  assert (j < N)%nat as HjN by (rewrite <- Hlen; by eapply lookup_lt_Some).
  rewrite (Hat j 0%Qc) in Hj by (by apply lookup_replicate_2).
  injection Hj as <-. split; [done|].
  intros Hout. replace (occurrences indices j) with 0%nat; [done|].
  symmetry. unfold occurrences. apply length_zero_iff_nil, elem_of_nil_inv.
  intros i [-> Hi]%list_elem_of_filter. done.
Qed.

Lemma LocalParametrization_2_weights_witness :
  ∃ m_lambdas,
    LocalParametrization_2 Qcplus Qcdiv real 6 sample_inner_vertex = Some m_lambdas ∧
    length m_lambdas = 6%nat ∧
    ∀ (j : nat) l, m_lambdas !! j = Some l →
      l = Nat.iter (occurrences (getVertexIndicesOfNeighbours sample_inner_vertex) j)
            (λ l, l + 1 / real (getNumberOfNeighbours sample_inner_vertex))%Qc 0%Qc ∧
      (Z.of_nat j + 1 ∉ getVertexIndicesOfNeighbours sample_inner_vertex → l = 0%Qc).
Proof.
  apply (LocalParametrization_2_weights Qcplus Qcdiv real 6 sample_inner_vertex).
  - done.
  - repeat constructor; simpl; lia.
Defined.

(** X15.  The weights by distance ([parametrizationMethod == 3]) of a
    vertex whose neighbours are vertices of the mesh, with an index for
    every distance, whatever the operations of the scalar type round to: the
    constructor leaves one weight for every vertex of the mesh; the weight
    of a vertex is [0] with, for every neighbour listed with its index and
    in the order of the list, the distance times the inverse of the sum of
    the distances added to it, so the weight of a vertex that is not listed
    with a distance is [0] itself. *)
Theorem LocalParametrization_3_weights (add mul div : Qc → Qc → Qc)
    (N : nat) (localNeighbourhood : LocalNeighbourhood) :
  Z.of_nat N < 2 ^ 64 →
  Forall (λ i, 1 ≤ i ≤ Z.of_nat N) (getVertexIndicesOfNeighbours localNeighbourhood) →
  (length (getNeighbourDistances localNeighbourhood)
   ≤ length (getVertexIndicesOfNeighbours localNeighbourhood))%nat →
  let sumOfDistancesInv :=
    div 1%Qc (foldl add 0%Qc (getNeighbourDistances localNeighbourhood)) in
  ∃ m_lambdas,
    LocalParametrization_3 add mul div N localNeighbourhood = Some m_lambdas ∧
    length m_lambdas = N ∧
    ∀ (j : nat) l, m_lambdas !! j = Some l →
      l = foldl add 0%Qc
            (shares mul sumOfDistancesInv
               (getVertexIndicesOfNeighbours localNeighbourhood)
               (getNeighbourDistances localNeighbourhood) j) ∧
      (Z.of_nat j + 1
         ∉ take (length (getNeighbourDistances localNeighbourhood))
             (getVertexIndicesOfNeighbours localNeighbourhood) →
       l = 0%Qc).
Proof.
  intros Hsize Hrange Hlen inv. unfold LocalParametrization_3.
  set (indices := getVertexIndicesOfNeighbours localNeighbourhood) in *.
  set (dists := getNeighbourDistances localNeighbourhood) in *.
  fold inv.
  destruct (distance_loop_spec add mul inv dists indices (replicate N 0%Qc))
    as (result & Hrun & Hlen' & Hat);
    [by rewrite length_replicate|by rewrite length_replicate|done|].
  rewrite length_replicate in Hlen'. exists result. split; [done|]. split; [done|].
  intros j l Hj.
  assert (j < N)%nat as HjN by (rewrite <- Hlen'; by eapply lookup_lt_Some).
  rewrite (Hat j 0%Qc) in Hj by (by apply lookup_replicate_2).
  injection Hj as <-. split; [done|].
  intros Hout.
  assert (filter (λ p : Z * Qc, p.1 = Z.of_nat j + 1) (zip indices dists) = []) as Hnil.
  { apply elem_of_nil_inv. intros [i x] [Hi Hin]%list_elem_of_filter.
    simpl in Hi. subst i.
    apply Hout. apply list_elem_of_lookup in Hin as [k Hk].
    apply lookup_zip_with_Some in Hk as (i & x' & [= <- <-] & Hik & Hxk).
    apply list_elem_of_lookup. exists k. apply lookup_take_Some. split; [done|].
    by eapply lookup_lt_Some. }
  unfold shares. by rewrite Hnil.
Qed.

Lemma LocalParametrization_3_weights_witness :
  ∃ m_lambdas,
    LocalParametrization_3 Qcplus Qcmult Qcdiv 6 sample_inner_vertex = Some m_lambdas ∧
    length m_lambdas = 6%nat ∧
    ∀ (j : nat) l, m_lambdas !! j = Some l →
      l = foldl Qcplus 0%Qc
            (shares Qcmult
               (1 / foldl Qcplus 0 (getNeighbourDistances sample_inner_vertex))%Qc
               (getVertexIndicesOfNeighbours sample_inner_vertex)
               (getNeighbourDistances sample_inner_vertex) j) ∧
      (Z.of_nat j + 1
         ∉ take (length (getNeighbourDistances sample_inner_vertex))
             (getVertexIndicesOfNeighbours sample_inner_vertex) →
       l = 0%Qc).
Proof.
  apply (LocalParametrization_3_weights Qcplus Qcmult Qcdiv 6 sample_inner_vertex).
  - done.
  - repeat constructor; simpl; lia.
  - simpl. lia.
Defined.

(** ** The parameter points and the files of the solver *)

Lemma fold_opt_app {A S : Type} (l1 l2 : list A) (body : A → S → option S) (acc : S) :
  fold_opt (l1 ++ l2) body acc = acc' ← fold_opt l1 body acc; fold_opt l2 body acc'.
Proof.
  revert acc. induction l1 as [|x l1 IH]; intros acc; simpl; [done|].
  destruct (body x acc) as [acc1|]; simpl; [apply IH|done].
Qed.

Section SolverPoints.
Context {T mesh : Type}.
Context (one one_half : T) (add mul : T → T → T) (zero : T).
Context (getLambdas : nat → list T).
Context (createFlatMesh : list (Point2D T) → mesh).
Implicit Types (LHS m : gsMatrix T) (pts : list (Point2D T)) (st : solver_state T mesh).

(** The loop [for (i < n) m_parameterPoints[i] << sol(i, 0), sol(i, 1)]. *)
Lemma store_points_spec (n : nat) m pts :
  (n ≤ length pts)%nat →
  ∃ pts', fold_opt (seq 0 n) (λ i pts, store_point i (m i 0%nat) (m i 1%nat) pts) pts
          = Some pts' ∧ moved_to n m pts pts'.
Proof.
  induction n as [|n IH]; intros Hn.
  - exists pts. split; [done|]. split; [done|]. intros i p Hi.
    by rewrite decide_False by lia.
  - destruct IH as (pts1 & Hrun & Hlen & Hat); [lia|].
    rewrite seq_S, fold_opt_app, Hrun. cbn [mbind option_bind fold_opt Nat.add].
    destruct (lookup_lt_is_Some_2 pts n) as [p Hp]; [lia|].
    unfold store_point. rewrite (Hat n p Hp), decide_False by lia.
    cbn [mbind option_bind]. eexists. split; [done|].
    split; [by rewrite length_insert|]. intros i q Hi.
    destruct (decide (i = n)) as [->|Hne].
    + rewrite list_lookup_insert_eq by lia. rewrite decide_True by lia. congruence.
    + rewrite list_lookup_insert_ne by done. rewrite (Hat i q Hi).
      destruct (decide (i < n)%nat); [by rewrite decide_True by lia|].
      by rewrite decide_False by lia.
Qed.

Lemma moved_to_twice (n : nat) m m' pts pts1 pts2 :
  moved_to n m pts pts1 → moved_to n m' pts1 pts2 → moved_to n m' pts pts2.
Proof.
  intros [Hlen1 Hat1] [Hlen2 Hat2]. split; [congruence|].
  intros i p Hi. rewrite (Hat2 i _ (Hat1 i p Hi)). by case_decide.
Qed.

Lemma solver_loop_points (n N : nat) LHS (fuel k : nat) st :
  (k ≤ 100)%nat → (101 - k < fuel)%nat →
  (n ≤ length (m_parameterPoints st))%nat →
  ∃ st', solver_loop add mul zero createFlatMesh fuel n N LHS k st = Some st' ∧
    moved_to n (RHS st') (m_parameterPoints st) (m_parameterPoints st') ∧
    (written st').*1 = (written st).*1 ++ names_from k.
Proof.
  revert k st. induction fuel as [|fuel IH]; intros k st Hk Hfuel Hn; [lia|].
  cbn [solver_loop]. rewrite bool_decide_eq_true_2 by lia.
  unfold solver_round.
  destruct (store_points_spec n (product add mul zero N LHS (RHS st)) _ Hn)
    as (pts1 & -> & Hmoved).
  cbn [mbind option_bind].
  set (st1 := mkSolver _ _ _ _ _).
  assert (names_from k
          = (if bool_decide (k `mod` 5 = 0)%nat then [mesh_name k] else [])
            ++ (if decide (k < 100)%nat then names_from (S k) else [])) as Hnames.
  { unfold names_from. replace (101 - k)%nat with (S (101 - S k)) by lia.
    cbn [seq]. rewrite filter_cons.
    assert ((if decide (k < 100)%nat
             then mesh_name <$> filter (λ k, k `mod` 5 = 0)%nat (seq (S k) (101 - S k))
             else [])
            = mesh_name <$> filter (λ k, k `mod` 5 = 0)%nat (seq (S k) (101 - S k)))
      as ->.
    { case_decide; [done|]. by replace (101 - S k)%nat with 0%nat by lia. }
    destruct (decide (k `mod` 5 = 0)%nat) as [H5|H5].
    - by rewrite bool_decide_eq_true_2 by done.
    - by rewrite bool_decide_eq_false_2 by done. }
  assert ((written st1).*1 = (written st).*1
          ++ (if bool_decide (k `mod` 5 = 0)%nat then [mesh_name k] else [])) as Hw1.
  { unfold st1. cbn [written]. case_bool_decide; [|by rewrite app_nil_r].
    by rewrite fmap_app. }
  destruct (decide (k < 100)%nat) as [Hlt|Hge].
  - destruct (IH (k + 1)%nat st1) as (st' & Hrun & Hmoved' & Hw);
      [lia|lia|unfold st1; cbn [m_parameterPoints]; destruct Hmoved as [Hlen _]; lia|].
    exists st'. split; [done|]. split.
    + by eapply moved_to_twice.
    + rewrite Hw, Hw1, Hnames.
      replace (k + 1)%nat with (S k) by lia. by rewrite app_assoc.
  - destruct fuel as [|fuel]; [lia|]. cbn [solver_loop].
    rewrite bool_decide_eq_false_2 by lia.
    exists st1. split; [done|]. split; [done|].
    by rewrite Hw1, Hnames, app_nil_r.
Qed.

(** What the whole function does to the parameter points and which files
    it writes. *)
Lemma solver_points (n N : nat) (LHS0 RHS0 : gsMatrix T) pts :
  (n ≤ N)%nat → (N ≤ length pts)%nat →
  (∀ i, (i < n)%nat → (N ≤ length (getLambdas i))%nat) →
  ∃ st,
    constructAndSolveEquationSystem_2 one one_half add mul zero getLambdas
      createFlatMesh n N LHS0 RHS0 pts = Some st ∧
    moved_to n (RHS st) pts (m_parameterPoints st) ∧
    (written st).*1 = names_from 0.
Proof.
  intros HnN Hp Hl. unfold constructAndSolveEquationSystem_2.
  destruct (setup_inner_runs one_half getLambdas n N (LHS0, RHS0) Hl) as [[LHS1 RHS1] E1].
  rewrite E1. cbn [mbind option_bind].
  destruct (setup_boundary_runs one n N pts (LHS1, RHS1) Hp) as [[LHS2 RHS2] E2].
  rewrite E2. cbn [mbind option_bind].
  destruct (solver_loop_points n N LHS2 102 0 (mkSolver None RHS2 pts [] 0))
    as (st & Hst & Hmoved & Hw); [lia|lia|simpl; lia|].
  exists st. split; [exact Hst|]. split; [exact Hmoved|exact Hw].
Qed.

End SolverPoints.

(** X16.  [constructAndSolveEquationSystem_2] and the parameter points: of
    the points it is given it changes the coordinates of the [n] inner ones
    only, to the rows of the last iterate; the points of the boundary, the
    number of the points and the vertex index of every point are kept. *)
Theorem solver_keeps_boundary_points {T mesh : Type}
    (one one_half : T) (add mul : T → T → T) (zero : T)
    (getLambdas : nat → list T) (createFlatMesh : list (Point2D T) → mesh)
    (n N : nat) (LHS0 RHS0 : gsMatrix T) (pts : list (Point2D T)) :
  (n ≤ N)%nat → (N ≤ length pts)%nat →
  (∀ i, (i < n)%nat → (N ≤ length (getLambdas i))%nat) →
  ∃ st,
    constructAndSolveEquationSystem_2 one one_half add mul zero getLambdas
      createFlatMesh n N LHS0 RHS0 pts = Some st ∧
    length (m_parameterPoints st) = length pts ∧
    ∀ (i : nat) p, pts !! i = Some p →
      ∃ p', m_parameterPoints st !! i = Some p' ∧
        pindex p' = pindex p ∧
        ((n ≤ i)%nat → p' = p) ∧
        ((i < n)%nat → px p' = RHS st i 0%nat ∧ py p' = RHS st i 1%nat).
Proof.
  intros HnN Hp Hl.
  destruct (solver_points one one_half add mul zero getLambdas createFlatMesh
              n N LHS0 RHS0 pts HnN Hp Hl) as (st & Hst & [Hlen Hat] & _).
  exists st. split; [done|]. split; [done|]. intros i p Hi.
  eexists. split; [by apply Hat|]. case_decide; split_and!; first [done|lia].
Qed.

Lemma solver_keeps_boundary_points_witness :
  ∃ st,
    constructAndSolveEquationSystem_2 1%Qc one_half Qcplus Qcmult 0%Qc sample_lambdas
      sample_flat_mesh 1 3 sample_matrix sample_matrix sample_points = Some st ∧
    length (m_parameterPoints st) = length sample_points ∧
    ∀ (i : nat) p, sample_points !! i = Some p →
      ∃ p', m_parameterPoints st !! i = Some p' ∧
        pindex p' = pindex p ∧
        ((1 ≤ i)%nat → p' = p) ∧
        ((i < 1)%nat → px p' = RHS st i 0%nat ∧ py p' = RHS st i 1%nat).
Proof.
  apply (solver_keeps_boundary_points 1%Qc one_half Qcplus Qcmult 0%Qc sample_lambdas
           sample_flat_mesh 1 3 sample_matrix sample_matrix sample_points);
    [ lia | simpl; lia | intros; simpl; lia ].
Defined.

(** X17.  [constructAndSolveEquationSystem_2] writes 21 files, one in every
    fifth of its rounds: [mesh0], [mesh5] and so on to [mesh100], in this
    order. *)
Theorem solver_writes_every_fifth_round {T mesh : Type}
    (one one_half : T) (add mul : T → T → T) (zero : T)
    (getLambdas : nat → list T) (createFlatMesh : list (Point2D T) → mesh)
    (n N : nat) (LHS0 RHS0 : gsMatrix T) (pts : list (Point2D T)) :
  (n ≤ N)%nat → (N ≤ length pts)%nat →
  (∀ i, (i < n)%nat → (N ≤ length (getLambdas i))%nat) →
  ∃ st,
    constructAndSolveEquationSystem_2 one one_half add mul zero getLambdas
      createFlatMesh n N LHS0 RHS0 pts = Some st ∧
    (written st).*1 = (λ j, mesh_name (5 * j)) <$> seq 0 21.
Proof.
  intros HnN Hp Hl.
  destruct (solver_points one one_half add mul zero getLambdas createFlatMesh
              n N LHS0 RHS0 pts HnN Hp Hl) as (st & Hst & _ & Hw).
  exists st. split; [done|]. rewrite Hw. vm_compute. reflexivity.
Qed.

Lemma solver_writes_every_fifth_round_witness :
  ∃ st,
    constructAndSolveEquationSystem_2 1%Qc one_half Qcplus Qcmult 0%Qc sample_lambdas
      sample_flat_mesh 1 3 sample_matrix sample_matrix sample_points = Some st ∧
    (written st).*1 = (λ j, mesh_name (5 * j)) <$> seq 0 21.
Proof.
  apply (solver_writes_every_fifth_round 1%Qc one_half Qcplus Qcmult 0%Qc
           sample_lambdas sample_flat_mesh 1 3 sample_matrix sample_matrix
           sample_points);
    [ lia | simpl; lia | intros; simpl; lia ].
Defined.

(** ** The system for a free boundary *)

Lemma fold_opt_fails {A S : Type} (l : list A) (body : A → S → option S) (acc : S)
    (x : A) :
  x ∈ l → (∀ acc, body x acc = None) → fold_opt l body acc = None.
Proof.
  intros Hx Hfail. revert acc. induction l as [|y l IH]; intros acc.
  - by apply elem_of_nil in Hx.
  - simpl. apply elem_of_cons in Hx as [<-|Hx]; [by rewrite Hfail|].
    destruct (body y acc); simpl; [by apply IH|done].
Qed.

(** X19.  The assembly of the system for a free boundary, for a mesh with
    four or more inner vertices: the loop over the corners starts at [i = n]
    and ends at [i < 4], so it runs no round, and the assembled system is
    the same whatever the corners are. *)
Theorem free_boundary_corners_not_read {T : Type} (one zero : T) (opp : T → T)
    (m_localParametrizations : list (list T)) (n N : Z) (corners corners' : list Z)
    (botBoundary rgtBoundary topBoundary lftBoundary : list Z) (s : free_system T) :
  4 ≤ n →
  constructAndSolveEquationSystem_assembly one zero opp m_localParametrizations
    n N corners botBoundary rgtBoundary topBoundary lftBoundary s
  = constructAndSolveEquationSystem_assembly one zero opp m_localParametrizations
    n N corners' botBoundary rgtBoundary topBoundary lftBoundary s.
Proof.
  intros Hn. unfold constructAndSolveEquationSystem_assembly.
  destruct (free_interior _ _ _ _ _ _) as [s1|]; [|done]. cbn [mbind option_bind].
  unfold free_corners. replace (seqZ n (4 - n)) with (@nil Z); [done|].
  unfold seqZ. by replace (Z.to_nat (4 - n)) with 0%nat by lia.
Qed.

Lemma free_boundary_corners_not_read_witness :
  constructAndSolveEquationSystem_assembly 1%Qc 0%Qc Qcopp sample_weights
    4 6 [4; 5] [] [] [] [] sample_free_system
  = constructAndSolveEquationSystem_assembly 1%Qc 0%Qc Qcopp sample_weights
    4 6 [5; 4] [] [] [] [] sample_free_system.
Proof.
  apply (free_boundary_corners_not_read 1%Qc 0%Qc Qcopp sample_weights 4 6
           [4; 5] [5; 4] [] [] [] [] sample_free_system).
  lia.
Defined.

(** X20.  The assembly of the system for a free boundary reads the weights
    of every vertex on the four sides with [getLambdas], that is from
    [m_localParametrizations]: when a side holds a vertex with an index
    that is not below the number of local parametrizations, the call is
    undefined. *)
Theorem free_boundary_side_undefined {T : Type} (one zero : T) (opp : T → T)
    (m_localParametrizations : list (list T)) (n N : Z) (corners : list Z)
    (botBoundary rgtBoundary topBoundary lftBoundary : list Z) (s : free_system T)
    (i : Z) :
  i ∈ botBoundary ++ topBoundary ++ lftBoundary ++ rgtBoundary →
  Z.of_nat (length m_localParametrizations) ≤ i →
  constructAndSolveEquationSystem_assembly one zero opp m_localParametrizations
    n N corners botBoundary rgtBoundary topBoundary lftBoundary s = None.
Proof.
  intros Hi Hout.
  assert (Neighbourhood_getLambdas m_localParametrizations i = None) as Hnone.
  { unfold Neighbourhood_getLambdas, vec_at. by rewrite decide_False by lia. }
  unfold constructAndSolveEquationSystem_assembly.
  destruct (free_interior _ _ _ _ _ _) as [s1|]; [|done]. cbn [mbind option_bind].
  destruct (free_corners _ _ _ _ _ _) as [s2|]; [|done]. cbn [mbind option_bind].
  rewrite !elem_of_app in Hi.
  destruct (free_bottom _ _ _ _ _ _) as [s3|] eqn:Hbot; cbn [mbind option_bind].
  2:{ done. }
  destruct (free_top _ _ _ _ _ _) as [s4|] eqn:Htop; cbn [mbind option_bind].
  2:{ done. }
  destruct (free_left _ _ _ _ _ _) as [s5|] eqn:Hlft; cbn [mbind option_bind].
  2:{ done. }
  destruct Hi as [Hi|[Hi|[Hi|Hi]]].
  - unfold free_bottom in Hbot. rewrite (fold_opt_fails _ _ _ i) in Hbot; [done|done|].
    intros acc. by rewrite Hnone.
  - unfold free_top in Htop. rewrite (fold_opt_fails _ _ _ i) in Htop; [done|done|].
    intros acc. by rewrite Hnone.
  - unfold free_left in Hlft. rewrite (fold_opt_fails _ _ _ i) in Hlft; [done|done|].
    intros acc. by rewrite Hnone.
  - unfold free_right. apply (fold_opt_fails _ _ _ i); [done|].
    intros acc. by rewrite Hnone.
Qed.

Lemma free_boundary_side_undefined_witness :
  constructAndSolveEquationSystem_assembly 1%Qc 0%Qc Qcopp sample_weights
    4 6 [4; 5] [5] [] [] [] sample_free_system = None.
Proof.
  apply (free_boundary_side_undefined 1%Qc 0%Qc Qcopp sample_weights 4 6
           [4; 5] [5] [] [] [] sample_free_system 5).
  - apply (bool_decide_unpack _). vm_compute. exact I.
  - simpl. lia.
Defined.

(** * Further facts about [gsApproxC1Spline] *)

(** ** [createLokalVertexSpace] *)

(** X21.  [createLokalVertexSpace] for a basis with valid knot vectors: in
    both directions the result has the degree raised by [p_tilde], the same
    break points, clamped ends, and at every interior break point the
    multiplicity raised by [p_tilde + r - 1], so that the continuity there
    is lowered by [r - 1], [r] being the discrete regularity; the diagnostic
    is written exactly when the two degrees of the basis differ, and the
    result is computed all the same. *)
Theorem createLokalVertexSpace_law (m_options : gsOptionList) (p_tilde : Z)
    (basis_vertex : gsTensorBSplineBasis) :
  valid (knots_0 basis_vertex) → valid (knots_1 basis_vertex) →
  local_vertex_law p_tilde (discreteRegularity m_options) basis_vertex
    (createLokalVertexSpace m_options p_tilde basis_vertex).2 ∧
  ((createLokalVertexSpace m_options p_tilde basis_vertex).1 = [] ↔
   TB.degree basis_vertex 0 = TB.degree basis_vertex 1).
Proof.
  intros Hv0 Hv1. split.
  - intros dir Hdir.
    assert (valid (TB.component basis_vertex dir)) as Hv
      by (unfold TB.component; by case_decide).
    assert (TB.component (createLokalVertexSpace m_options p_tilde basis_vertex).2 dir
            = increaseMultiplicity (discreteRegularity m_options - 1)
                (degreeElevate p_tilde (TB.component basis_vertex dir))) as ->.
    { unfold createLokalVertexSpace, TB.degreeElevate, TB.on_component,
        TB.reduceContinuity, BSplineBasis.reduceContinuity, TB.component.
      cbn [snd]. destruct Hdir as [-> | ->]; by simpl. }
    destruct (elevated_knot_vector p_tilde (discreteRegularity m_options - 1) _ Hv)
      as (Hdeg & Huniq & Hmult & Hhead & Hlast).
    cbv zeta. split_and!; [done|done|by split|done|].
    rewrite Hmult, Hdeg. apply Forall2_fmap_r, Forall_Forall2_diag, Forall_forall.
    intros m _. unfold compose. lia.
  - unfold createLokalVertexSpace, info_if. cbn [fst].
    case_bool_decide as Hd; split; [done|tauto|done|done].
Qed.

Lemma createLokalVertexSpace_law_witness :
  local_vertex_law 3 (discreteRegularity (mkOptions 2 false)) sample_basis
    (createLokalVertexSpace (mkOptions 2 false) 3 sample_basis).2 ∧
  ((createLokalVertexSpace (mkOptions 2 false) 3 sample_basis).1 = [] ↔
   TB.degree sample_basis 0 = TB.degree sample_basis 1).
Proof.
  apply (createLokalVertexSpace_law (mkOptions 2 false) 3 sample_basis).
  - apply valid_kv_cubic_C1.
  - apply valid_kv_cubic_C1.
Defined.

(** ** What the statements of [init()] keep *)

Section Keeps.
Context (R : relation gsApproxC1Spline).
Context (Hrefl : ∀ s, R s s) (Htrans : ∀ s1 s2 s3, R s1 s2 → R s2 s3 → R s1 s3).

Lemma keeps_ret {A : Type} (a : A) : keeps R (mret a).
Proof. intros s a' s1 [= <- <-]. apply Hrefl. Qed.

Lemma keeps_get : keeps R get.
Proof. intros s a s1 [= <- <-]. apply Hrefl. Qed.

Lemma keeps_lift {A : Type} (o : option A) : keeps R (lift o).
Proof. intros s a s1 [_ ->]%lift_inv. apply Hrefl. Qed.

Lemma keeps_bind {A B : Type} (m : M A) (f : A → M B) :
  keeps R m → (∀ a, keeps R (f a)) → keeps R (m ≫= f).
Proof.
  intros Hm Hf s b s2 (a & s1 & H1 & H2)%bind_inv.
  eapply Htrans; [by eapply Hm|by eapply Hf].
Qed.

Lemma keeps_for_each {A : Type} (l : list A) (body : A → M unit) :
  (∀ x, keeps R (body x)) → keeps R (for_each l body).
Proof.
  intros Hbody s [] s1 Hrun.
  eapply (for_each_inv (R s)); [|apply Hrefl|done].
  intros x s2 s3 _ Hs2 Hx. eapply Htrans; [done|by eapply Hbody].
Qed.

Lemma keeps_when (b : bool) (body : M unit) : keeps R body → keeps R (when b body).
Proof. destruct b; [done|]. intros _. apply (keeps_ret tt). Qed.

End Keeps.

Lemma same_count_refl s : same_count s s.
Proof. done. Qed.
Lemma same_count_trans s1 s2 s3 : same_count s1 s2 → same_count s2 s3 → same_count s1 s3.
Proof. unfold same_count. congruence. Qed.
Lemma same_bases_refl s : same_bases s s.
Proof. done. Qed.
Lemma same_bases_trans s1 s2 s3 : same_bases s1 s2 → same_bases s2 s3 → same_bases s1 s3.
Proof. unfold same_bases. congruence. Qed.
Lemma same_matrix_refl s : same_matrix s s.
Proof. done. Qed.
Lemma same_matrix_trans s1 s2 s3 :
  same_matrix s1 s2 → same_matrix s2 s3 → same_matrix s1 s3.
Proof. intros [? ?] [? ?]. unfold same_matrix. split; congruence. Qed.

(** The relation of the goal is reflexive and transitive. *)
Ltac keeps_rel :=
  first [ exact same_count_refl | exact same_count_trans
        | exact same_bases_refl | exact same_bases_trans
        | exact same_matrix_refl | exact same_matrix_trans ].

Lemma same_count_update_basis np f : keeps same_count (update_basis np f).
Proof.
  intros s a s1 (c & _ & ->)%update_basis_inv. unfold same_count. simpl.
  by rewrite length_insert.
Qed.

Lemma same_count_gsInfo out : keeps same_count (gsInfo out).
Proof. by intros s a s1 [= <- <-]. Qed.

Lemma same_count_update_matrix f : keeps same_count (update_matrix f).
Proof. by intros s a s1 [= <- <-]. Qed.

Lemma same_bases_gsInfo out : keeps same_bases (gsInfo out).
Proof. by intros s a s1 [= <- <-]. Qed.

Lemma same_bases_update_matrix f : keeps same_bases (update_matrix f).
Proof. by intros s a s1 [= <- <-]. Qed.

Lemma same_matrix_gsInfo out : keeps same_matrix (gsInfo out).
Proof. by intros s a s1 [= <- <-]. Qed.

Lemma same_matrix_update_basis np f : keeps same_matrix (update_basis np f).
Proof. by intros s a s1 (c & _ & ->)%update_basis_inv. Qed.

Lemma same_matrix_push_back_basis c : keeps same_matrix (push_back_basis c).
Proof. by intros s a s1 [= <- <-]. Qed.

(** One step of a proof that a statement keeps a relation. *)
Ltac keeps_step :=
  first
    [ apply keeps_ret; keeps_rel
    | apply keeps_get; keeps_rel
    | apply keeps_lift; keeps_rel
    | apply same_count_update_basis
    | apply same_count_gsInfo
    | apply same_count_update_matrix
    | apply same_bases_gsInfo
    | apply same_bases_update_matrix
    | apply same_matrix_gsInfo
    | apply same_matrix_update_basis
    | apply same_matrix_push_back_basis
    | apply keeps_when; [keeps_rel|]
    | apply keeps_for_each; [keeps_rel|keeps_rel|intros ?]
    | apply keeps_bind; [keeps_rel| |intros ?]
    | match goal with
      | |- keeps _ (match ?x with _ => _ end) => destruct x
      end ].

Section InitKeeps.
Context `{Collaborators}.

Lemma init_containers_count s s' :
  init_containers s = Some (tt, s') →
  length (m_bases s')
  = (length (m_bases s) + length (patches (m_patches s)))%nat ∧
  m_matrix s' = m_matrix s ∧ m_patches s' = m_patches s.
Proof.
  unfold init_containers. intros (s0 & ? & [= <- <-] & Hrun)%bind_inv.
  unfold for_range in Hrun.
  assert (∀ l t t', for_each l (λ np : nat,
            s ← get; push_back_basis
                       (C1Basis.setOptions (m_options s) (C1Basis.make np))) t
          = Some (tt, t') →
          length (m_bases t') = (length (m_bases t) + length l)%nat ∧
          m_matrix t' = m_matrix t ∧ m_patches t' = m_patches t) as Hloop.
  { induction l as [|np l IH]; intros t t'; simpl.
    - intros [= <-]. split_and!; [lia|done|done].
    - intros ([] & t1 & Hbody & Hrest)%bind_inv.
      apply bind_inv in Hbody as (t0 & ? & [= <- <-] & [= <-]).
      destruct (IH _ _ Hrest) as (Hlen & Hm & Hp). simpl in *.
      rewrite length_app in Hlen. simpl in Hlen. split_and!; [lia|done|done]. }
  destruct (Hloop _ _ _ Hrun) as (Hlen & Hm & Hp).
  rewrite length_seq in Hlen. done.
Qed.

Lemma same_count_init_inner : keeps same_count init_inner.
Proof. unfold init_inner, for_range. repeat keeps_step. Qed.

Lemma same_count_init_interfaces : keeps same_count init_interfaces.
Proof. unfold init_interfaces, init_interface. repeat keeps_step. Qed.

Lemma same_count_init_boundaries : keeps same_count init_boundaries.
Proof. unfold init_boundaries, init_boundary. repeat keeps_step. Qed.

Lemma same_count_init_vertices : keeps same_count init_vertices.
Proof.
  unfold init_vertices, init_vertex, init_shared_corner. repeat keeps_step.
Qed.

Lemma foldl_sumZ (f : gsC1Basis → Z) (bases : list gsC1Basis) (a : Z) :
  foldl (λ acc c, acc + f c) a bases = a + sumZ (f <$> bases).
Proof.
  revert a. induction bases as [|c bases IH]; intros a.
  - change (a = a + 0). lia.
  - change (foldl (λ acc c, acc + f c) (a + f c) bases
            = a + (f c + sumZ (f <$> bases))).
    rewrite IH. lia.
Qed.

(** The end of [init()]: the layout of every container is frozen, then the
    matrix is cleared and sized for the containers. *)
Lemma init_matrix_sized s s' :
  init_matrix s = Some (tt, s') →
  length (m_bases s') = length (m_bases s) ∧
  m_matrix s' = sized_matrix (m_bases s').
Proof.
  unfold init_matrix.
  intros (s0 & ? & [= <- <-] & Hrun)%bind_inv.
  apply bind_inv in Hrun as ([] & s1 & Hlayout & Hrun).
  apply bind_inv in Hrun as ([] & s2 & [= <-] & Hrun).
  apply bind_inv in Hrun as (s3 & ? & [= <- <-] & Hrun).
  apply bind_inv in Hrun as ([] & s4 & [= <-] & Hrun).
  apply bind_inv in Hrun as ([] & s5 & [= <-] & Hrun).
  match type of Hlayout with
  | ?m _ = _ =>
      assert (keeps same_count m) as Hcount by (unfold for_range; repeat keeps_step)
  end.
  apply Hcount in Hlayout as Hlen. unfold same_count in Hlen.
  match type of Hrun with
  | ?m _ = _ =>
      assert (keeps same_bases m) as Hbases by (unfold for_range; repeat keeps_step);
      assert (keeps same_matrix m) as Hmatrix by (unfold for_range; repeat keeps_step)
  end.
  apply Hbases in Hrun as Hb. apply Hmatrix in Hrun as [Hm _].
  unfold same_bases in Hb. simpl in Hb, Hm.
  rewrite Hb, Hm. split; [done|].
  unfold sized_matrix, SparseMatrix.reserve, SparseMatrix.resize. simpl.
  by rewrite !foldl_sumZ, !Z.add_0_l.
Qed.

End InitKeeps.

(** X22.  [init()] adds one container for every patch to those the object
    holds (it does not clear [m_bases]) and leaves the matrix without
    entries, not compressed, with as many rows and columns as all the
    containers of the object have together and with room reserved for seven
    entries in every row. *)
Theorem init_sizes_matrix `{Collaborators} (s s' : gsApproxC1Spline) :
  init s = Some (tt, s') →
  length (m_bases s') = (length (m_bases s) + length (patches (m_patches s)))%nat ∧
  m_matrix s' = sized_matrix (m_bases s').
Proof.
  unfold init. intros Hrun.
  apply bind_inv in Hrun as ([] & s1 & H1 & Hrun).
  apply bind_inv in Hrun as ([] & s2 & H2 & Hrun).
  apply bind_inv in Hrun as ([] & s3 & H3 & Hrun).
  apply bind_inv in Hrun as ([] & s4 & H4 & Hrun).
  apply bind_inv in Hrun as ([] & s5 & H5 & Hrun).
  apply init_containers_count in H1 as (L1 & _ & _).
  apply same_count_init_inner in H2. apply same_count_init_interfaces in H3.
  apply same_count_init_boundaries in H4. apply same_count_init_vertices in H5.
  apply init_matrix_sized in Hrun as [L6 Hm].
  unfold same_count in *. split; [congruence|done].
Qed.

Lemma init_sizes_matrix_witness :
  length (m_bases sample_after_init)
  = (length (m_bases sample_spline) + length (patches (m_patches sample_spline)))%nat ∧
  m_matrix sample_after_init
  = sized_matrix (H := sample_collaborators) (m_bases sample_after_init).
Proof.
  apply (init_sizes_matrix (H := sample_collaborators) sample_spline sample_after_init).
  vm_compute. reflexivity.
Defined.

(** ** [compute()] needs the containers of [init()] *)

Lemma keeps_for_acc (R : relation gsApproxC1Spline)
    (Hrefl : ∀ s, R s s) (Htrans : ∀ s1 s2 s3, R s1 s2 → R s2 s3 → R s1 s3)
    {A B : Type} (l : list A) (body : A → B → M B) (acc : B) :
  (∀ x acc, keeps R (body x acc)) → keeps R (for_acc l body acc).
Proof.
  intros Hbody. revert acc. induction l as [|x l IH]; intros acc; simpl.
  - by apply keeps_ret.
  - intros s b s2 (acc1 & s1 & H1 & H2)%bind_inv.
    eapply Htrans; [by eapply Hbody|by eapply IH].
Qed.

Lemma same_bases_record_event e : keeps same_bases (record_event e).
Proof. by intros s a s1 [= <- <-]. Qed.

Lemma for_acc_fails {A B : Type} (l : list A) (body : A → B → M B) (acc : B)
    (x : A) s :
  x ∈ l →
  (∀ y acc, keeps same_bases (body y acc)) →
  (∀ acc t, same_bases s t → body x acc t = None) →
  for_acc l body acc s = None.
Proof.
  intros Hx Hkeeps. revert acc s. induction l as [|y l IH]; intros acc s Hfail.
  - by apply elem_of_nil in Hx.
  - simpl. unfold mbind, M_bind.
    apply elem_of_cons in Hx as [<-|Hx]; [by rewrite Hfail|].
    destruct (body y acc s) as [[acc1 s1]|] eqn:Hy; [|done].
    apply IH; [done|]. intros acc2 t Ht. apply Hfail.
    apply Hkeeps in Hy. unfold same_bases in *. congruence.
Qed.

(** X23.  [compute()] on an object that holds fewer containers than the
    geometry has patches, as before [init()]: the loop over the patches
    reads [m_bases[np]] outside the vector, so the call is undefined. *)
Theorem compute_needs_containers `{Collaborators} (s : gsApproxC1Spline) :
  (length (m_bases s) < length (patches (m_patches s)))%nat →
  compute s = None.
Proof.
  intros Hlen. unfold compute.
  assert (compute_inner s = None) as Hinner.
  { unfold compute_inner. unfold mbind at 1, M_bind at 1. rewrite get_run.
    unfold mbind at 1, M_bind at 1.
    rewrite (for_acc_fails _ _ _ (length (m_bases s))); [done| | |].
    - apply elem_of_seq. lia.
    - intros y [shift_row shift_col]. unfold compute_inner_patch, matrix_insert.
      repeat first [ apply same_bases_record_event
                   | apply keeps_for_acc; [keeps_rel|keeps_rel|intros ? ?]
                   | keeps_step ].
    - intros [shift_row shift_col] t Ht. unfold compute_inner_patch.
      unfold mbind at 1, M_bind at 1. rewrite get_run.
      unfold mbind at 1, M_bind at 1. unfold same_bases in Ht.
      rewrite Ht, (lookup_ge_None_2 (m_bases s)) by lia. done. }
  unfold mbind at 1, M_bind at 1. by rewrite Hinner.
Qed.

Lemma compute_needs_containers_witness :
  compute (H := sample_collaborators) sample_spline = None.
Proof.
  apply (compute_needs_containers (H := sample_collaborators) sample_spline).
  simpl. lia.
Defined.

(** ** The two sides of an interface *)

Section Ensures.
Context {A B : Type} (P : gsApproxC1Spline → Prop).

Lemma ensures_bind_l (m : M A) (f : A → M B) :
  ensures P m → (∀ a, keeps (λ s s', P s → P s') (f a)) → ensures P (m ≫= f).
Proof.
  intros Hm Hf s b s2 (a & s1 & H1 & H2)%bind_inv.
  eapply Hf; [done|]. by eapply Hm.
Qed.

Lemma ensures_bind_r (m : M A) (f : A → M B) :
  (∀ a, ensures P (f a)) → ensures P (m ≫= f).
Proof. intros Hf s b s2 (a & s1 & H1 & H2)%bind_inv. by eapply Hf. Qed.

End Ensures.

Lemma ensures_update_basis (p : nat) (Q : gsC1Basis → Prop) (f : gsC1Basis → gsC1Basis) :
  (∀ c, Q (f c)) → ensures (holds_at p Q) (update_basis p f).
Proof.
  intros HQ s a s1 (c & Hc & ->)%update_basis_inv. exists (f c). split; [|done].
  simpl. apply list_lookup_insert_eq. by eapply lookup_lt_Some.
Qed.

Lemma kept_at_update_basis (p : nat) (Q : gsC1Basis → Prop) np f :
  (∀ c, Q c → Q (f c)) → keeps (kept_at p Q) (update_basis np f).
Proof.
  intros HQ s a s1 (c & Hc & ->)%update_basis_inv (c' & Hc' & HQ').
  unfold holds_at. simpl. destruct (decide (p = np)) as [->|Hne].
  - exists (f c). rewrite list_lookup_insert_eq by (by eapply lookup_lt_Some).
    split; [done|]. apply HQ. congruence.
  - exists c'. by rewrite list_lookup_insert_ne.
Qed.

Lemma kept_at_gsInfo (p : nat) (Q : gsC1Basis → Prop) out :
  keeps (kept_at p Q) (gsInfo out).
Proof. intros s a s1 [= <- <-] Hs. exact Hs. Qed.

Lemma kept_at_refl p Q s : kept_at p Q s s.
Proof. by intros ?. Qed.

Lemma kept_at_trans p Q s1 s2 s3 :
  kept_at p Q s1 s2 → kept_at p Q s2 s3 → kept_at p Q s1 s3.
Proof. unfold kept_at. tauto. Qed.

(** A setter of the container keeps what was recorded for a side, when it
    writes another field, another side or the same value. *)
Ltac setter_keeps :=
  let c := fresh "c" in
  let Hc := fresh "Hc" in
  intros c Hc; try exact Hc; cbn in Hc |- *;
  first
    [ exact Hc
    | match goal with
      | |- <[?k := _]> _ !! ?k' = _ =>
          destruct (decide (k = k')) as [->|];
          [by rewrite lookup_insert_eq|by rewrite lookup_insert_ne]
      end ].

(** The rest of a sequence of statements keeps what holds of a container. *)
Ltac kept_step :=
  first
    [ apply kept_at_gsInfo
    | apply kept_at_update_basis; setter_keeps
    | apply keeps_lift; apply kept_at_refl
    | apply keeps_ret; apply kept_at_refl
    | apply keeps_bind; [apply kept_at_trans| |intros ?]
    | match goal with
      | |- keeps _ (match ?x with _ => _ end) => destruct x
      end ].

(** Some statement of a sequence records a value for a side, and the
    statements after it keep it. *)
Ltac ensures_tac :=
  repeat first
    [ apply ensures_update_basis; intros ?; cbn; by rewrite lookup_insert_eq
    | apply ensures_bind_l;
      [ apply ensures_update_basis; intros ?; cbn; by rewrite lookup_insert_eq
      | intros ?; repeat kept_step ]
    | apply ensures_bind_r; intros ? ].

(** X24.  The body of the loop of [init()] over the interfaces records the
    same plus space, the same minus space and the same space of the gluing
    data for the two sides of the interface: those [createPlusMinusSpace]
    and [createGluingDataSpace] derive from the knot vectors of the two
    sides. *)
Theorem init_interface_same_spaces (item : boundaryInterface)
    (s s' : gsApproxC1Spline) :
  init_interface item s = Some (tt, s') →
  is_Some (side_spaces s' (first item)) ∧
  side_spaces s' (first item) = side_spaces s' (second item).
Proof.
  unfold init_interface. intros Hrun.
  apply bind_inv in Hrun as (s0 & ? & [= <- <-] & Hrun).
  apply bind_inv in Hrun as (mb_1 & ? & [Hmb1 ->]%lift_inv & Hrun).
  apply bind_inv in Hrun as (mb_2 & ? & [Hmb2 ->]%lift_inv & Hrun).
  apply bind_inv in Hrun as (geo_1 & ? & [Hgeo1 ->]%lift_inv & Hrun).
  apply bind_inv in Hrun as (geo_2 & ? & [Hgeo2 ->]%lift_inv & Hrun).
  apply bind_inv in Hrun as ([[out kv_plus] kv_minus] & ? & [Hpm ->]%lift_inv & Hrun).
  apply bind_inv in Hrun as ([] & s1 & Hout1 & Hrun).
  destruct (createGluingDataSpace _ _ _ _ _ _) as [out' kv_gluingData] eqn:Hgd.
  apply bind_inv in Hrun as ([] & s2 & Hout2 & Hrun).
  set (patch_1 := side_patch (first item)) in *.
  set (patch_2 := side_patch (second item)) in *.
  set (side_1 := side_index (first item)) in *.
  set (side_2 := side_index (second item)) in *.
  assert (∀ p side, (p = patch_1 ∧ side = side_1) ∨ (p = patch_2 ∧ side = side_2) →
            holds_at p (λ c, basisPlus c !! side = Some kv_plus) s' ∧
            holds_at p (λ c, basisMinus c !! side = Some kv_minus) s' ∧
            holds_at p (λ c, basisGluingData c !! side = Some kv_gluingData) s')
    as Hsides.
  { intros p side [[-> ->]|[-> ->]]; split_and!;
      (eapply (λ H, H s2 tt s' Hrun)); clear; ensures_tac. }
  assert (∀ ps, ps = first item ∨ ps = second item →
            side_spaces s' ps = Some (kv_plus, kv_minus, kv_gluingData)) as Hspaces.
  { intros ps Hps.
    destruct (Hsides (side_patch ps) (side_index ps)) as ((c & Hc & Hp) & (c' & Hc' & Hm)
                                                          & (c'' & Hc'' & Hg)).
    { destruct Hps as [-> | ->]; [by left|by right]. }
    unfold side_spaces. rewrite Hc. cbn [mbind option_bind].
    rewrite Hc in Hc', Hc''. injection Hc' as <-. injection Hc'' as <-.
    by rewrite Hp, Hm, Hg. }
  rewrite (Hspaces (first item)), (Hspaces (second item)) by tauto.
  split; [by eexists|done].
Qed.

Lemma init_interface_same_spaces_witness :
  is_Some (side_spaces sample_after_interface (first sample_interface)) ∧
  side_spaces sample_after_interface (first sample_interface)
  = side_spaces sample_after_interface (second sample_interface).
Proof.
  apply (init_interface_same_spaces sample_interface sample_before_interface
           sample_after_interface).
  vm_compute. reflexivity.
Defined.
